(** * order-api: the per-tenant serialization queue, the reset job and the
    order-number formatter

    Shallow embedding of [src/services/queue.js] (class [Queue]),
    [src/jobs/index.js] ([resetCounters]) and [src/utils/index.js]
    ([formatOrderNumber]).

    JavaScript runs every callback to completion before the next one starts,
    so the program is modelled as a transition system whose atomic steps are
    the turns of the event loop: a call of [enqueue], the resumption of an
    operation that was waiting on an inner [await], and the resumption of a
    [processQueue] activation that was waiting on [await operation()]. *)

From Stdlib Require Import ZArith Lia Ascii String.
From Stdlib Require QArith.
From stdpp Require Import base option list gmap sets strings.

Set Warnings "-register-all,-clear-no-such-hyp".

(** ** JavaScript data *)

Module Js.

(** Values that are used as [Map] keys ([tenantId]). *)
Inductive key : Type :=
| KUndefined
| KNull
| KStr (s : string)
| KNum (n : Z).

#[global] Instance key_eq_dec : EqDecision key.
Proof. solve_decision. Defined.

#[global] Instance key_countable : Countable key.
Proof.
  refine (inj_countable'
    (λ k, match k with
          | KUndefined => inl (inl ())
          | KNull => inl (inr ())
          | KStr s => inr (inl s)
          | KNum n => inr (inr n)
          end)
    (λ x, match x with
          | inl (inl _) => KUndefined
          | inl (inr _) => KNull
          | inr (inl s) => KStr s
          | inr (inr n) => KNum n
          end) _).
  by intros [].
Defined.

(** Values produced or thrown by operations.  [VError msg] is an error
    object whose [message] is [msg]: [new Error(msg)], or the instance of a
    subclass such as [TypeError] that the engine throws. *)
Inductive value : Type :=
| VUndefined
| VNull
| VBool (b : bool)
| VNum (n : Z)
| VStr (s : string)
| VError (msg : string)
| VObj (fields : list (string * value)).

(** How a promise settles. *)
Inductive outcome : Type :=
| Fulfilled (v : value)
| Rejected (e : value).

(** Result of evaluating a statement sequence: normal completion or a throw. *)
Inductive completion (A : Type) : Type :=
| Normal (a : A)
| Abrupt (e : value).
Arguments Normal {A} a.
Arguments Abrupt {A} e.

(** The [TypeError] raised by reading the property [name] of [undefined]. *)
Definition type_error (name : string) : value :=
  VError ("Cannot read properties of undefined (reading '" +:+ name +:+ "')").

End Js.
Export Js.

(** ** Operations

    An operation is opaque to the queue.  Calling it runs its synchronous
    prefix on the world [W] (everything outside the queue object: databases,
    captured variables) and either throws, or returns a promise.  The promise
    is what remains of the asynchronous function: already fulfilled, already
    rejected, or waiting on an inner [await] whose outcome the environment
    delivers later. *)

Section Operations.
Context {W : Type}.

Inductive promise : Type :=
| Resolved (v : value)
| Failed (e : value)
| Pending (resume : outcome → W → W * promise).

Inductive called : Type :=
| Threw (e : value)
| Returned (p : promise).

Definition operation : Type := W → W * called.

End Operations.
Arguments promise : clear implicits.
Arguments called : clear implicits.
Arguments operation : clear implicits.

(** ** The queue object *)

Definition handle := nat.
Definition loc := nat.

(** Events of the instrumented trace.  They are ghost state: each is
    emitted where the source executes the named line of [queue.js]. *)
Inductive obs : Type :=
| Submitted (k : key) (h : handle)               (* line 28: push *)
| WorkerStart (k : key)                          (* line 42: processing.add *)
| Started (k : key) (h : handle)                 (* lines 46-49: shift, operation() *)
| Settled (k : key) (h : handle) (o : outcome)   (* line 50 resolve / line 52 reject *)
| WorkerExit (k : key).                          (* line 57: processing.delete *)

Section Queue.
Context {W : Type}.

(** [{ operation, resolve, reject }]: [resolve] and [reject] are the two
    capabilities of the promise created by [new Promise] in [enqueue]; the
    promise is identified by its handle. *)
Record entry : Type := Entry {
  entry_operation : operation W;
  entry_handle : handle
}.

(** A [processQueue] activation suspended at [await operation()]: its local
    variables [tenantId], [queue] (a reference to the array object, not a
    copy), the [resolve]/[reject] pair of the entry taken last, and the
    promise it awaits. *)
Record worker : Type := Worker {
  wk_tenantId : key;
  wk_queue : loc;
  wk_handle : handle;
  wk_awaiting : promise W
}.

(** The [Queue] instance together with the heap of array objects, the
    suspended activations, the world and the ghost trace. *)
Record State : Type := mkState {
  queues : gmap key loc;            (* this.queues : Map tenantId -> array *)
  arrays : gmap loc (list entry);   (* the array objects *)
  processing : gset key;            (* this.processing : Set *)
  suspended : list worker;
  world : W;
  next_handle : handle;
  next_loc : loc;
  trace : list obs
}.

Definition init (w : W) : State :=
  mkState ∅ ∅ ∅ [] w 0 0 [].

Definition set_queues (f : gmap key loc → gmap key loc) (s : State) : State :=
  mkState (f (queues s)) (arrays s) (processing s) (suspended s) (world s)
          (next_handle s) (next_loc s) (trace s).
Definition set_arrays (f : gmap loc (list entry) → gmap loc (list entry))
    (s : State) : State :=
  mkState (queues s) (f (arrays s)) (processing s) (suspended s) (world s)
          (next_handle s) (next_loc s) (trace s).
Definition set_processing (f : gset key → gset key) (s : State) : State :=
  mkState (queues s) (arrays s) (f (processing s)) (suspended s) (world s)
          (next_handle s) (next_loc s) (trace s).
Definition set_suspended (ws : list worker) (s : State) : State :=
  mkState (queues s) (arrays s) (processing s) ws (world s)
          (next_handle s) (next_loc s) (trace s).
Definition set_world (w : W) (s : State) : State :=
  mkState (queues s) (arrays s) (processing s) (suspended s) w
          (next_handle s) (next_loc s) (trace s).
Definition emit (o : obs) (s : State) : State :=
  mkState (queues s) (arrays s) (processing s) (suspended s) (world s)
          (next_handle s) (next_loc s) (trace s ++ [o]).

(** Contents of the array object at [l]. *)
Definition array_at (l : loc) (s : State) : list entry :=
  default [] (arrays s !! l).

(** Lines 56-60 of [processQueue]: the code after the [while] loop. *)
Definition finish (k : key) (l : loc) (s : State) : State :=
  let s1 := emit (WorkerExit k) (set_processing (λ p, p ∖ {[k]}) s) in
  if decide (length (array_at l s1) = 0)
  then set_queues (delete k) s1
  else s1.

(** Lines 45-54 of [processQueue]: the [while] loop, run until the activation
    suspends at [await] or leaves the loop.  [q] is the content of the array
    [l] on entry; an operation acts on the world only, so the array changes
    by the [shift] alone while the loop runs.  An operation that throws
    synchronously is caught without suspending, and the loop goes on in the
    same turn. *)
Fixpoint drain (k : key) (l : loc) (q : list entry) (s : State) : State :=
  match q with
  | [] => finish k l s
  | e :: q' =>
      let s1 := set_arrays <[l := q']> s in
      let r := entry_operation e (world s1) in
      let s2 := emit (Started k (entry_handle e)) (set_world (fst r) s1) in
      match snd r with
      | Threw err =>
          drain k l q' (emit (Settled k (entry_handle e) (Rejected err)) s2)
      | Returned p =>
          set_suspended (suspended s2 ++ [Worker k l (entry_handle e) p]) s2
      end
  end.

(** [processQueue(tenantId)] up to its first suspension.  It is an [async]
    function: a throw inside it rejects its own promise and does not reach
    the caller; the completion records it. *)
Definition processQueue (k : key) (s : State) : State * completion unit :=
  let s1 := emit (WorkerStart k) (set_processing (λ p, {[k]} ∪ p) s) in
  match queues s1 !! k with
  | None => (s1, Abrupt (type_error "length"))
  | Some l => (drain k l (array_at l s1) s1, Normal ())
  end.

(** [enqueue(tenantId, operation)].  The body has no [await], so the whole
    call is one turn.  The completion is [Normal h] when the call returns the
    promise [h] it created, and [Abrupt e] when the body throws (the returned
    promise is then rejected with [e] without the operation being involved). *)
Definition enqueue (k : key) (op : operation W) (s : State)
    : State * completion handle :=
  (* lines 22-24 *)
  let s1 :=
    match queues s !! k with
    | Some _ => s
    | None =>
        let l := next_loc s in
        mkState (<[k := l]> (queues s)) (<[l := []]> (arrays s)) (processing s)
                (suspended s) (world s) (next_handle s) (S l) (trace s)
    end in
  (* line 27: new Promise *)
  let h := next_handle s1 in
  let s2 := mkState (queues s1) (arrays s1) (processing s1) (suspended s1)
                    (world s1) (S h) (next_loc s1) (trace s1) in
  (* line 28 *)
  match queues s2 !! k with
  | None => (s2, Abrupt (type_error "push"))
  | Some l =>
      let s3 :=
        emit (Submitted k h)
             (set_arrays <[l := array_at l s2 ++ [Entry op h]]> s2) in
      (* lines 31-33 *)
      if decide (k ∈ processing s3)
      then (s3, Normal h)
      else (fst (processQueue k s3), Normal h)
  end.

(** Removes the activation that holds handle [h] from the suspended ones. *)
Fixpoint pick (h : handle) (ws : list worker) : option (worker * list worker) :=
  match ws with
  | [] => None
  | w :: ws' =>
      if decide (wk_handle w = h) then Some (w, ws')
      else match pick h ws' with
           | Some (w', rest) => Some (w', w :: rest)
           | None => None
           end
  end.

(** The inner [await] of the operation in flight for [h] settles with [o]:
    the operation runs its next segment.  The worker stays suspended. *)
Definition progress (h : handle) (o : outcome) (s : State) : option State :=
  match pick h (suspended s) with
  | Some (wk, rest) =>
      match wk_awaiting wk with
      | Pending resume =>
          let r := resume o (world s) in
          Some (set_suspended
                  (rest ++ [Worker (wk_tenantId wk) (wk_queue wk) h (snd r)])
                  (set_world (fst r) s))
      | _ => None
      end
  | None => None
  end.

(** The promise awaited by the activation holding [h] has settled: the
    activation resumes after [await] (lines 49-53) and goes round the loop. *)
Definition wake (h : handle) (s : State) : option State :=
  match pick h (suspended s) with
  | Some (wk, rest) =>
      let k := wk_tenantId wk in
      let l := wk_queue wk in
      let continue o :=
        let s1 := emit (Settled k h o) (set_suspended rest s) in
        Some (drain k l (array_at l s1) s1) in
      match wk_awaiting wk with
      | Resolved v => continue (Fulfilled v)
      | Failed e => continue (Rejected e)
      | Pending _ => None
      end
  | None => None
  end.

(** Turns of the event loop. *)
Inductive event : Type :=
| Enqueue (k : key) (op : operation W)
| Progress (h : handle) (o : outcome)
| Wake (h : handle).

Definition step (s : State) (ev : event) : option State :=
  match ev with
  | Enqueue k op => Some (fst (enqueue k op s))
  | Progress h o => progress h o s
  | Wake h => wake h s
  end.

Fixpoint run (s : State) (evs : list event) : option State :=
  match evs with
  | [] => Some s
  | ev :: evs' =>
      match step s ev with
      | Some s' => run s' evs'
      | None => None
      end
  end.

End Queue.
Arguments entry : clear implicits.
Arguments worker : clear implicits.
Arguments State : clear implicits.
Arguments event : clear implicits.

(** The submission fails: the call throws instead of returning its promise. *)
Definition submission_fails {W} (k : key) (op : operation W) (s : State W)
    : Prop :=
  ∃ e, snd (enqueue k op s) = Abrupt e.

(** ** Reading the trace *)

Definition obs_key (o : obs) : key :=
  match o with
  | Submitted k _ | WorkerStart k | Started k _ | Settled k _ _
  | WorkerExit k => k
  end.

(** Handles submitted, started and settled under key [k], in trace order. *)
Definition submitted (k : key) (t : list obs) : list handle :=
  omap (λ o, match o with
             | Submitted k' h => if decide (k' = k) then Some h else None
             | _ => None
             end) t.

Definition started (k : key) (t : list obs) : list handle :=
  omap (λ o, match o with
             | Started k' h => if decide (k' = k) then Some h else None
             | _ => None
             end) t.

Definition settled (k : key) (t : list obs) : list handle :=
  omap (λ o, match o with
             | Settled k' h _ => if decide (k' = k) then Some h else None
             | _ => None
             end) t.

(** Every call of [resolve] or [reject] made on the promise [h]. *)
Definition settlements (h : handle) (t : list obs) : list outcome :=
  omap (λ o, match o with
             | Settled _ h' r => if decide (h' = h) then Some r else None
             | _ => None
             end) t.

(** A promise keeps the first settlement; later calls are ignored. *)
Definition promise_state (h : handle) (t : list obs) : option outcome :=
  head (settlements h t).

(** The activations of the worker of [k]: [true] for a start, [false] for
    an exit. *)
Definition worker_events (k : key) (t : list obs) : list bool :=
  omap (λ o, match o with
             | WorkerStart k' => if decide (k' = k) then Some true else None
             | WorkerExit k' => if decide (k' = k) then Some false else None
             | _ => None
             end) t.

(** [alternates b l]: [l] is [b], [negb b], [b], ... *)
Fixpoint alternates (expect : bool) (l : list bool) : bool :=
  match l with
  | [] => true
  | b :: l' => bool_decide (b = expect) && alternates (negb expect) l'
  end.

(** ** The serial FIFO discipline, as an automaton on the events of one key

    This follows the words of the specification: a worker is started only
    when none is active, takes the entry appended earliest among those not
    started, starts an entry only when the previous one has been settled,
    and exits only on an empty backlog. *)

Record kstate : Type := KState {
  ks_active : bool;
  ks_current : option handle;
  ks_pending : list handle
}.

Definition kinit : kstate := KState false None [].

Definition kstep (st : kstate) (o : obs) : option kstate :=
  match o with
  | Submitted _ h =>
      Some (KState (ks_active st) (ks_current st) (ks_pending st ++ [h]))
  | WorkerStart _ =>
      if ks_active st then None
      else Some (KState true (ks_current st) (ks_pending st))
  | Started _ h =>
      match ks_active st, ks_current st, ks_pending st with
      | true, None, h' :: rest =>
          if decide (h' = h) then Some (KState true (Some h) rest) else None
      | _, _, _ => None
      end
  | Settled _ h _ =>
      match ks_active st, ks_current st with
      | true, Some h' =>
          if decide (h' = h) then Some (KState true None (ks_pending st))
          else None
      | _, _ => None
      end
  | WorkerExit _ =>
      match ks_active st, ks_current st, ks_pending st with
      | true, None, [] => Some kinit
      | _, _, _ => None
      end
  end.

Definition kstep_for (k : key) (acc : option kstate) (o : obs) : option kstate :=
  match acc with
  | Some st => if decide (obs_key o = k) then kstep st o else Some st
  | None => None
  end.

Definition kreplay (k : key) (t : list obs) : option kstate :=
  foldl (kstep_for k) (Some kinit) t.

(** A trace is accepted when the automaton of every key accepts it. *)
Definition accepted (t : list obs) : Prop := ∀ k, is_Some (kreplay k t).

(** ** Abstraction of a queue state to the automaton state of one key *)

Section Abstraction.
Context {W : Type}.
Implicit Types (s : State W) (k : key) (l : loc).

Definition workers_of k s : list (worker W) :=
  filter (λ w, wk_tenantId w = k) (suspended s).

Definition backlog k s : list (entry W) :=
  match queues s !! k with
  | Some l => array_at l s
  | None => []
  end.

Definition in_flight k s : option handle :=
  head (wk_handle <$> workers_of k s).

Definition abs k s : kstate :=
  KState (bool_decide (k ∈ processing s)) (in_flight k s)
         (entry_handle <$> backlog k s).

(** A state is quiescent when no activation is suspended. *)
Definition quiescent s : Prop := suspended s = [].

(** What the suspended activations still have to do: for each of them the
    entry in flight and the entries waiting in the array it holds. *)
Definition pending_work s : nat :=
  sum_list_with (λ w, S (length (array_at (wk_queue w) s))) (suspended s).

(** A turn of a worker or of an operation in flight: not a submission. *)
Definition worker_turn (ev : event W) : Prop :=
  match ev with
  | Enqueue _ _ => False
  | _ => True
  end.

(** *** Invariants *)

(** The registry is injective and refers to allocated arrays only. *)
Definition registry_ok s : Prop :=
  (∀ k1 k2 l, queues s !! k1 = Some l → queues s !! k2 = Some l → k1 = k2) ∧
  (∀ k l, queues s !! k = Some l → l < next_loc s).

(** Handles are allocated once. *)
Definition handles_ok (n : handle) (t : list obs) : Prop :=
  (∀ k h, h ∈ submitted k t → h < n) ∧
  (∀ k, NoDup (submitted k t)) ∧
  (∀ k k' h, h ∈ submitted k t → h ∈ submitted k' t → k = k').

(** Key [k] at rest: either unknown to the queue, or registered with exactly
    one suspended activation that holds the registered array. *)
Definition key_rest k s : Prop :=
  match queues s !! k with
  | None => (k ∉ processing s) ∧ workers_of k s = []
  | Some l => (k ∈ processing s) ∧
              (∃ h p, workers_of k s = [Worker k l h p])
  end.

(** Key [k] while its activation runs on the array [l]. *)
Definition key_running k l s : Prop :=
  queues s !! k = Some l ∧ k ∈ processing s ∧ workers_of k s = [].

Definition Inv s : Prop :=
  registry_ok s ∧ handles_ok (next_handle s) (trace s) ∧
  (∀ k, key_rest k s) ∧
  (∀ k, kreplay k (trace s) = Some (abs k s)).

Definition InvRunning k0 l s : Prop :=
  registry_ok s ∧ handles_ok (next_handle s) (trace s) ∧
  key_running k0 l s ∧
  (∀ k, kreplay k (trace s) = Some (abs k s)) ∧
  (∀ k, k ≠ k0 → key_rest k s).

End Abstraction.

(** ** Summary of one run of the loop

    [drain] depends on the state only through the world and the array it is
    given.  [drain_result] collects what one run of the loop does, and
    [install] writes it into a state; [drain_spec] below shows that this is
    [drain]. *)

Section Summary.
Context {W : Type}.

Record drained : Type := Drained {
  d_world : W;                         (* the world after the run *)
  d_events : list obs;                 (* the events emitted *)
  d_array : option (list (entry W));   (* the array, if an entry was shifted *)
  d_parked : option (worker W)         (* the suspended activation; [None]: it exited *)
}.

Fixpoint drain_result (k : key) (l : loc) (q : list (entry W)) (w : W)
    : drained :=
  match q with
  | [] => Drained w [WorkerExit k] None None
  | e :: q' =>
      let r := entry_operation e w in
      let h := entry_handle e in
      match snd r with
      | Threw err =>
          let d := drain_result k l q' (fst r) in
          Drained (d_world d)
                  (Started k h :: Settled k h (Rejected err) :: d_events d)
                  (Some (default q' (d_array d))) (d_parked d)
      | Returned p =>
          Drained (fst r) [Started k h] (Some q') (Some (Worker k l h p))
      end
  end.

Definition install (k : key) (l : loc) (d : drained) (s : State W) : State W :=
  mkState (match d_parked d with
           | Some _ => queues s
           | None => delete k (queues s)
           end)
          (match d_array d with
           | Some a => <[l := a]> (arrays s)
           | None => arrays s
           end)
          (match d_parked d with
           | Some _ => processing s
           | None => processing s ∖ {[k]}
           end)
          (suspended s ++ option_list (d_parked d))
          (d_world d) (next_handle s) (next_loc s)
          (trace s ++ d_events d).

End Summary.
Arguments drained : clear implicits.

(** ** What is left to the suspended activations

    An agenda is what one suspended activation has before it: the promise
    it awaits and the entries left in the array it holds.  It moves when
    the awaited operation runs its next segment, and when the activation
    resumes on a settled promise and parks again on a later entry. *)

Section Agendas.
Context {W : Type}.

Definition agenda : Type := promise W * list (entry W).

(** [agenda_step t' t]: one turn takes the agenda [t] to [t']. *)
Inductive agenda_step : agenda → agenda → Prop :=
| agenda_progress resume q o w :
    agenda_step (snd (resume o w), q) (Pending resume, q)
| agenda_resume p q k l w wk a :
    match p with Pending _ => False | _ => True end →
    d_parked (drain_result k l q w) = Some wk →
    d_array (drain_result k l q w) = Some a →
    agenda_step (wk_awaiting wk, a) (p, q).

Definition agendas (s : State W) : list agenda :=
  (λ w, (wk_awaiting w, array_at (wk_queue w) s)) <$> suspended s.

(** One agenda of the collection moves or ends; the order is immaterial. *)
Inductive agendas_step : list agenda → list agenda → Prop :=
| agendas_done c c' t c0 :
    c ≡ₚ t :: c0 → c' ≡ₚ c0 → agendas_step c' c
| agendas_move c c' t t' c0 :
    c ≡ₚ t :: c0 → agenda_step t' t → c' ≡ₚ t' :: c0 → agendas_step c' c.

(** [worker_step s' s]: a turn other than a submission takes [s] to [s']. *)
Definition worker_step (s' s : State W) : Prop :=
  ∃ ev, worker_turn ev ∧ step s ev = Some s'.

End Agendas.

(** ** Whose operation runs under a handle

    A schedule lists the calls of [enqueue]; the call at position [h]
    creates the promise [h].  What the queue keeps of a call is the entry
    with its operation, then the promise that the operation returned, and
    in the end the settlement of [h]. *)

Section Provenance.
Context {W : Type}.

(** The calls of [enqueue] of a schedule, in order. *)
Definition enqueued (evs : list (event W)) : list (key * operation W) :=
  omap (λ ev, match ev with
              | Enqueue k op => Some (k, op)
              | _ => None
              end) evs.

(** The calls made under [k], each with the handle of its promise; the
    first call of the list creates the promise [n]. *)
Fixpoint enqueued_under (k : key) (n : handle)
    (calls : list (key * operation W)) : list (handle * operation W) :=
  match calls with
  | [] => []
  | (k', op) :: calls' =>
      (if decide (k' = k) then [(n, op)] else [])
      ++ enqueued_under k (S n) calls'
  end.

Definition entry_pair (e : entry W) : handle * operation W :=
  (entry_handle e, entry_operation e).

(** [remains_of op p]: [p] is the promise that a call of [op] returned, or
    what has become of that promise after some of its inner [await]s. *)
Inductive remains_of (op : operation W) : promise W → Prop :=
| remains_returned w p :
    snd (op w) = Returned p → remains_of op p
| remains_resumed resume o w :
    remains_of op (Pending resume) → remains_of op (snd (resume o w)).

(** [own_outcome op o]: [o] is what [op] itself came to: the value its
    promise was fulfilled with, the error it was rejected with, or the
    error that the call threw. *)
Definition own_outcome (op : operation W) (o : outcome) : Prop :=
  match o with
  | Fulfilled v => remains_of op (Resolved v)
  | Rejected e => remains_of op (Failed e) ∨ ∃ w, snd (op w) = Threw e
  end.

(** The call that created [h] handed over [op]. *)
Definition called_as (calls : list (key * operation W)) (h : handle)
    (op : operation W) : Prop :=
  ∃ k, calls !! h = Some (k, op).

(** What the queue holds comes from the calls: handles are given in the
    order of the calls, an entry holds the operation of the call that
    created its handle, a suspended activation awaits what remains of the
    operation of its handle, and a handle was settled with an outcome of
    its own operation. *)
Definition provenance (calls : list (key * operation W)) (s : State W)
    : Prop :=
  next_handle s = length calls ∧
  (∀ k, submitted k (trace s) = (enqueued_under k 0 calls).*1) ∧
  (∀ l e, e ∈ array_at l s →
     called_as calls (entry_handle e) (entry_operation e)) ∧
  (∀ wk, wk ∈ suspended s →
     ∃ op, called_as calls (wk_handle wk) op ∧
           remains_of op (wk_awaiting wk)) ∧
  (∀ k h o, Settled k h o ∈ trace s →
     ∃ op, called_as calls h op ∧ own_outcome op o).

(** The outcome a settled promise stands for. *)
Definition settles_as (p : promise W) (o : outcome) : Prop :=
  match p with
  | Resolved v => o = Fulfilled v
  | Failed e => o = Rejected e
  | Pending _ => False
  end.

End Provenance.

(** ** A key seen in isolation *)

Section Isolation.
Context {W : Type}.
Implicit Types (s : State W) (k : key).

(** The queue as it is before any submission, in the world of [s] and with
    the allocation counters of [s]. *)
Definition fresh_like s : State W :=
  mkState ∅ ∅ ∅ [] (world s) (next_handle s) (next_loc s) [].

(** Turns that submit to [k] only. *)
Definition on_key k (ev : event W) : Prop :=
  match ev with
  | Enqueue k' _ => k' = k
  | _ => True
  end.

(** [s1] and [s2] agree on everything that concerns [k]; [s2] knows no other
    key, and the trace of [s1] is that of [s2] after [base]. *)
Definition same_key_view k (base : list obs) s1 s2 : Prop :=
  world s1 = world s2 ∧
  next_handle s1 = next_handle s2 ∧
  next_loc s1 = next_loc s2 ∧
  queues s1 !! k = queues s2 !! k ∧
  backlog k s1 = backlog k s2 ∧
  (k ∈ processing s1 ↔ k ∈ processing s2) ∧
  workers_of k s1 = suspended s2 ∧
  trace s1 = base ++ trace s2.

(** The queue of [s] with every key but [k] removed. *)
Definition alone k s : State W :=
  mkState (match queues s !! k with
           | Some l => {[k := l]}
           | None => ∅
           end)
          (arrays s) (processing s ∩ {[k]}) (workers_of k s) (world s)
          (next_handle s) (next_loc s) [].

(** The key a turn works on: the key submitted to, or the key of the
    activation that holds the handle. *)
Definition turn_key s (ev : event W) : option key :=
  match ev with
  | Enqueue k _ => Some k
  | Progress h _ | Wake h =>
      match pick h (suspended s) with
      | Some (wk, _) => Some (wk_tenantId wk)
      | None => None
      end
  end.

(** What [s1] and [s2] hold for [k]. *)
Definition key_view k s :=
  (queues s !! k, backlog k s, workers_of k s, bool_decide (k ∈ processing s)).

(** *** A virtual clock

    A clocked schedule gives each turn the time at which the event loop
    runs it; a turn takes no time.  The run stamps every event of the trace
    with the time of the turn that emitted it. *)
Fixpoint run_clocked s (sch : list (nat * event W))
    : option (State W * list (nat * obs)) :=
  match sch with
  | [] => Some (s, [])
  | (t, ev) :: sch' =>
      match step s ev with
      | Some s' =>
          match run_clocked s' sch' with
          | Some (s'', stamped) =>
              Some (s'', ((λ o, (t, o)) <$> drop (length (trace s)) (trace s'))
                         ++ stamped)
          | None => None
          end
      | None => None
      end
  end.

End Isolation.

(** When the operation of [h] was started, and when [h] was settled. *)
Definition start_time (h : handle) (stamped : list (nat * obs)) : option nat :=
  head (omap (λ '(t, o), match o with
                         | Started _ h' => if decide (h' = h) then Some t else None
                         | _ => None
                         end) stamped).

Definition settle_time (h : handle) (stamped : list (nat * obs))
    : option (nat * outcome) :=
  head (omap (λ '(t, o), match o with
                         | Settled _ h' r =>
                             if decide (h' = h) then Some (t, r) else None
                         | _ => None
                         end) stamped).

(** An operation that takes some time and then returns [v]:
    [async () => { await new Promise(r => setTimeout(r, d)); return v }].
    The timer is the environment's: its expiry is the [Progress] turn. *)
Definition takes_time {W} (v : value) : operation W :=
  λ w, (w, Returned (Pending (λ _ w', (w', Resolved v)))).

(** Three operations that take [d] each, submitted at time [t] under three
    keys, with each timer expiring [d] after the operation was started and
    the worker resuming in the same instant. *)
Definition three_keys {W} (k1 k2 k3 : key) (v1 v2 v3 : value) (h : handle)
    (t d : nat) : list (nat * event W) :=
  [(t, Enqueue k1 (takes_time v1));
   (t, Enqueue k2 (takes_time v2));
   (t, Enqueue k3 (takes_time v3));
   (t + d, Progress h (Fulfilled VUndefined)); (t + d, Wake h);
   (t + d, Progress (S h) (Fulfilled VUndefined)); (t + d, Wake (S h));
   (t + d, Progress (S (S h)) (Fulfilled VUndefined)); (t + d, Wake (S (S h)))].

(** ** [formatOrderNumber] ([src/utils/index.js]) *)

Module Format.
Local Open Scope Z_scope.

(** A JavaScript Number: [NaN], an infinity, or a finite value, which is a
    rational.  The Numbers are the doubles among them; up to [2^53] every
    integer is one. *)

Inductive number : Type :=
| NaN
| Infinity (negative : bool)
| Finite (q : QArith_base.Q).

(** What a caller may pass as [number]. *)
Inductive jsvalue : Type :=
| JUndefined
| JNull
| JBoolean (b : bool)
| JString (s : string)
| JNumber (x : number)
| JObject.

(** The two readings of [new Date()] that the function uses. *)
Record Date : Type := { getFullYear : Z; getMonth : Z }.

(** [Number.isInteger(number)] *)
Definition Number_isInteger (v : jsvalue) : bool :=
  match v with
  | JNumber (Finite q) => QArith_base.Qnum q mod Zpos (QArith_base.Qden q) =? 0
  | _ => false
  end.

(** The integer an integer-valued rational stands for. *)
Definition integer_value (q : QArith_base.Q) : Z := QArith_base.Qnum q / Zpos (QArith_base.Qden q).

(** Decimal digits of a non-negative integer, least significant first into
    the accumulator. *)
Definition digit_char (d : Z) : ascii := ascii_of_nat (48 + Z.to_nat d).

Fixpoint digits_fuel (fuel : nat) (n : Z) (acc : string) : string :=
  match fuel with
  | O => acc
  | S f =>
      let acc' := String (digit_char (n mod 10)) acc in
      if n / 10 =? 0 then acc' else digits_fuel f (n / 10) acc'
  end.

Definition digits (n : Z) : string :=
  digits_fuel (S (Z.to_nat (Z.log2 n))) n "".

(** *** [Number.prototype.toString] on integers

    Below [2^53] an integer prints as its decimal digits.  From there on
    [toString] prints the shortest decimal that still rounds to the double
    (ECMAScript, Number::toString, step 5: the least [k], and of the
    candidates the one closest to the value), filled with zeros up to its
    magnitude, and from [10^21] on it prints mantissa and exponent. *)

(** The double nearest to the positive integer [n], ties to even. *)
Definition round_double (n : Z) : Z :=
  let b := Z.log2 n in
  if b <? 53 then n
  else
    let ulp := 2 ^ (b - 52) in
    let q := n / ulp in
    let r := n mod ulp in
    if 2 * r <? ulp then q * ulp
    else if ulp <? 2 * r then (q + 1) * ulp
    else if Z.even q then q * ulp else (q + 1) * ulp.

(** The multiple of [10^e] that rounds to the double [v], if there is one:
    of the two next to [v] the closer, the even one on a tie. *)
Definition shortest_at (v e : Z) : option Z :=
  let p := 10 ^ e in
  let lo := v / p * p in
  let hi := lo + p in
  let ok_lo := (0 <? lo) && (round_double lo =? v) in
  let ok_hi := round_double hi =? v in
  if ok_lo && ok_hi then
    if v - lo <? hi - v then Some lo
    else if hi - v <? v - lo then Some hi
    else if Z.even (v / p) then Some lo else Some hi
  else if ok_lo then Some lo
  else if ok_hi then Some hi
  else None.

(** The shortest decimal for [v]: the greatest power of ten that has such a
    multiple, tried from [10^e] downwards. *)
Fixpoint shortest_from (fuel : nat) (v e : Z) : Z :=
  match fuel with
  | O => v
  | S f =>
      if e <=? 0 then v
      else match shortest_at v e with
           | Some c => c
           | None => shortest_from f v (e - 1)
           end
  end.

Definition shortest (v : Z) : Z :=
  let nd := String.length (digits v) in
  shortest_from nd v (Z.of_nat nd - 1).

(** A string of digits without its trailing zeros. *)
Fixpoint trim_zeros (s : string) : string :=
  match s with
  | EmptyString => EmptyString
  | String c s' =>
      match trim_zeros s' with
      | EmptyString => if Ascii.eqb c "0" then EmptyString else String c EmptyString
      | t => String c t
      end
  end.

(** Mantissa and exponent: [d.ddde+x], or [de+x] for a single digit. *)
Definition exponent_form (c : Z) : string :=
  let D := digits c in
  let x := digits (Z.of_nat (String.length D) - 1) in
  match trim_zeros D with
  | EmptyString => EmptyString
  | String d EmptyString => String d ("e+" +:+ x)
  | String d rest => String d ("." +:+ rest +:+ "e+" +:+ x)
  end%string.

(** [n.toString()] for a non-negative integer [n]. *)
Definition print_magnitude (n : Z) : string :=
  if n <? 2 ^ 53 then digits n
  else
    let c := shortest (round_double n) in
    if c <? 10 ^ 21 then digits c else exponent_form c.

(** [n.toString()] for an integer [n]. *)
Definition Number_toString (n : Z) : string :=
  if n <? 0 then String "-" (print_magnitude (- n)) else print_magnitude n.

(** [Number.MAX_SAFE_INTEGER] *)
Definition MAX_SAFE_INTEGER : Z := 2 ^ 53 - 1.

Fixpoint zeros (n : nat) : string :=
  match n with
  | O => ""
  | S n' => String "0" (zeros n')
  end.

(** [s.padStart(n, '0')] *)
Definition padStart0 (n : nat) (s : string) : string :=
  (zeros (n - String.length s) +:+ s)%string.

(** [s.slice(-2)] *)
Definition slice_last2 (s : string) : string :=
  substring (String.length s - 2) 2 s.

(** [formatOrderNumber(number)], with the clock reading as a parameter. *)
Definition formatOrderNumber (now : Date) (number : jsvalue) : completion string :=
  match number with
  | JNumber (Finite q) =>
      if negb (Number_isInteger number) || (QArith_base.Qnum q <=? 0)
      then Abrupt (VError "Input must be a positive integer")
      else
        let year := slice_last2 (Number_toString (getFullYear now)) in
        let month := padStart0 2 (Number_toString (getMonth now + 1)) in
        let paddedNumber := padStart0 6 (Number_toString (integer_value q)) in
        Normal ("ORD-" +:+ year +:+ month +:+ "-" +:+ paddedNumber)%string
  | _ => Abrupt (VError "Input must be a positive integer")
  end.


(** Reading a result: the words of the specification. *)
Definition is_digit (c : ascii) : Prop := (48 <= nat_of_ascii c <= 57)%nat.

Fixpoint digits_only (s : string) : Prop :=
  match s with
  | EmptyString => True
  | String c s' => is_digit c ∧ digits_only s'
  end.

Fixpoint decimal_value_from (acc : Z) (s : string) : Z :=
  match s with
  | EmptyString => acc
  | String c s' =>
      decimal_value_from (10 * acc + (Z.of_nat (nat_of_ascii c) - 48)) s'
  end.

Definition decimal_value (s : string) : Z := decimal_value_from 0 s.

(** The part of a string after its last hyphen: where an order number
    carries its number. *)
Fixpoint has_hyphen (s : string) : bool :=
  match s with
  | EmptyString => false
  | String c s' => Ascii.eqb c "-" || has_hyphen s'
  end.

Fixpoint after_last_hyphen (s : string) : string :=
  match s with
  | EmptyString => EmptyString
  | String c s' =>
      if has_hyphen s' then after_last_hyphen s'
      else if Ascii.eqb c "-" then s' else String c s'
  end.

Definition leading_zero (s : string) : Prop :=
  match s with
  | String c _ => c = "0"%char
  | EmptyString => False
  end.

Definition two_digits (n : Z) : string :=
  String (digit_char (n / 10 mod 10)) (String (digit_char (n mod 10)) "").

Definition denotes (v : jsvalue) (n : Z) : Prop :=
  match v with
  | JNumber (Finite q) => QArith_base.Qeq q (QArith_base.inject_Z n)
  | _ => False
  end.

Definition positive_integer (v : jsvalue) : Prop :=
  ∃ n, 0 < n ∧ denotes v n.

End Format.


(** ** The reset job ([src/jobs/index.js]) *)

Module Job.
Section Job.
Context {D : Type}.

(** The world of the job: the database and everything else outside ([D]),
    the two variables that one run of [resetCounters] declares and its
    operations capture, and a ghost counter of the calls of
    [counterService.resetAllCounters]. *)
Record jworld : Type := JWorld {
  external : D;
  resetExecuted : bool;
  resetCount : value;
  resetAllCounters_calls : nat
}.

(** Lines 330-332 after the [await]: the result of [resetAllCounters] is
    stored and returned; a failure is rethrown. *)
Definition after_reset (o : outcome) (w : jworld) : jworld * promise jworld :=
  match o with
  | Fulfilled v =>
      (JWorld (external w) (resetExecuted w) v (resetAllCounters_calls w),
       Resolved v)
  | Rejected e => (w, Failed e)
  end.

(** Lines 326-333: the operation enqueued for every tenant. *)
Definition reset_operation : operation jworld :=
  λ w,
    if resetExecuted w
    then (w, Returned (Resolved (resetCount w)))
    else (JWorld (external w) true (resetCount w)
                 (S (resetAllCounters_calls w)),
          Returned (Pending after_reset)).

(** Lines 316-334, from the moment [getAllTenantIds] has settled: the
    variables are declared and [map] calls [enqueue] for each tenant id in
    one turn.  When [getAllTenantIds] failed, the [catch] logs and nothing
    is enqueued. *)
Definition resetCounters (tenantIds : completion (list key))
    (s : State jworld) : State jworld :=
  match tenantIds with
  | Abrupt _ => s
  | Normal ids =>
      let w := world s in
      let s0 := set_world (JWorld (external w) false (VNum 0)
                                  (resetAllCounters_calls w)) s in
      foldl (λ s' tenantId, fst (enqueue tenantId reset_operation s')) s0 ids
  end.

(** *** The other traffic

    Operations and promises created outside this run of the job cannot
    reach its variables, and the route handlers do not call
    [resetAllCounters]. *)
Definition keeps (w w' : jworld) : Prop :=
  resetExecuted w' = resetExecuted w ∧
  resetAllCounters_calls w' = resetAllCounters_calls w.

Fixpoint calm (p : promise jworld) : Prop :=
  match p with
  | Pending resume =>
      ∀ o w, match resume o w with
             | (w', p') => keeps w w' ∧ calm p'
             end
  | _ => True
  end.

Definition other_traffic (op : operation jworld) : Prop :=
  ∀ w, keeps w (fst (op w)) ∧
       match snd (op w) with
       | Returned p => calm p
       | Threw _ => True
       end.

Definition other_turn (ev : event jworld) : Prop :=
  match ev with
  | Enqueue _ op => other_traffic op
  | _ => True
  end.

(** An entry is the job's (its handle is in [J]) or other traffic. *)
Definition entry_ok (J : handle → Prop) (e : entry jworld) : Prop :=
  (J (entry_handle e) ∧ entry_operation e = reset_operation) ∨
  (¬ J (entry_handle e) ∧ other_traffic (entry_operation e)).

(** The invariant of a run of the job that found [c0] earlier calls and
    created the handles [J]. *)
Definition job_inv (c0 : nat) (J : handle → Prop) (s : State jworld) : Prop :=
  resetAllCounters_calls (world s) =
    c0 + (if resetExecuted (world s) then 1 else 0) ∧
  (∀ k e, e ∈ backlog k s → entry_ok J e) ∧
  (∀ wk, wk ∈ suspended s → calm (wk_awaiting wk)) ∧
  (resetExecuted (world s) = false →
     ∀ h, J h → ∃ k, h ∈ entry_handle <$> backlog k s) ∧
  (resetExecuted (world s) = true → ∃ h, J h) ∧
  (∀ h, J h → h < next_handle s).

End Job.
Arguments jworld : clear implicits.

(** The submissions recorded in a piece of trace. *)
Definition submissions (t : list obs) : list (key * handle) :=
  omap (λ o, match o with
             | Submitted k h => Some (k, h)
             | _ => None
             end) t.

End Job.

(** ** Scenarios from the test suite ([src/services/queue.test.js]) *)

Module Demo.

Definition tenant1 : key := KStr "tenant-1".
Definition tenant2 : key := KStr "tenant-2".
Definition tenant3 : key := KStr "tenant-3".

(** [async () => v] *)
Definition returns (v : value) : operation unit :=
  λ w, (w, Returned (Resolved v)).

(** [async () => { await new Promise(r => setTimeout(r, ms)); return v }] *)
Definition sleeps_then (v : value) : operation unit :=
  λ w, (w, Returned (Pending (λ _ w', (w', Resolved v)))).

(** [async () => { throw e }] *)
Definition rejects (e : value) : operation unit :=
  λ w, (w, Returned (Failed e)).

(** [() => { throw e }] *)
Definition throws (e : value) : operation unit :=
  λ w, (w, Threw e).

(** 'should handle errors without affecting other operations', stopped where
    the worker is about to resume on the failed second operation. *)
Definition error_isolation : list (event unit) :=
  [Enqueue tenant1 (sleeps_then (VStr "first"));
   Enqueue tenant1 (rejects (VError "Second operation failed"));
   Enqueue tenant1 (returns (VStr "third"));
   Enqueue tenant2 (throws VNull);
   Progress 0 (Fulfilled VUndefined);
   Wake 0].

(** 'should process multiple sequential batches for same tenant': the first
    batch, and the second. *)
Definition batch1 : list (event unit) :=
  [Enqueue tenant1 (returns (VStr "batch1-op1")); Wake 0;
   Enqueue tenant1 (returns (VStr "batch1-op2")); Wake 1].
Definition batch2 : list (event unit) :=
  [Enqueue tenant1 (returns (VStr "batch2-op1")); Wake 2;
   Enqueue tenant1 (returns (VStr "batch2-op2")); Wake 3].

(** [resetCounters] for three tenants on an idle queue, then the database
    answers and the three workers resume. *)
Definition reset_world : Job.jworld unit := Job.JWorld () false VUndefined 0.
Definition reset_tenants : list key := [tenant1; tenant2; tenant3].
Definition reset_turns : list (event (Job.jworld unit)) :=
  [Progress 0 (Fulfilled (VNum 3)); Wake 0; Wake 1; Wake 2].

(** The states these scenarios lead to. *)
Definition outcome_of (evs : list (event unit)) : State unit :=
  default (init ()) (run (init ()) evs).

End Demo.

(** ** [counterService] ([src/services/counter.js])

    Every method awaits one chain of the database client and works on what
    comes back: the object [{ data, error }], or a rejection.  The reply is
    the environment's; a method is what the service makes of it. *)

Module Service.

Record db_error : Type := DbError {
  error_code : string;       (* error.code *)
  error_message : string     (* error.message *)
}.

(** [Reply data error]: the awaited chain fulfilled with [{ data, error }],
    [None] standing for [null].  [Thrown m]: it rejected with an error whose
    [message] is [m]. *)
Inductive db_reply (A : Type) : Type :=
| Reply (data : option A) (error : option db_error)
| Thrown (message : string).
Arguments Reply {A} data error.
Arguments Thrown {A} message.

(** A row of [select('tenant_id')]. *)
Record tenant_row : Type := TenantRow { tenant_id : key }.

(** [Set.prototype.add]: a value that is in the set already is not added
    again; a new one comes last in iteration order. *)
Definition Set_add (acc : list key) (x : key) : list key :=
  if decide (x ∈ acc) then acc else acc ++ [x].

(** [[...new Set(xs)]] *)
Definition new_Set (xs : list key) : list key := foldl Set_add [] xs.

(** The message of the [TypeError] of [data.map] on [null]. *)
Definition null_map_error : string :=
  "Cannot read properties of null (reading 'map')".

(** Lines 329-346.  Whatever is thrown inside the [try] is caught and
    thrown again as [new Error(`Failed to retrieve tenant IDs: ...`)]. *)
Definition getAllTenantIds (reply : db_reply (list tenant_row))
    : completion (list key) :=
  let failed m := Abrupt (VError ("Failed to retrieve tenant IDs: " +:+ m)) in
  match reply with
  | Thrown m => failed m
  | Reply _ (Some e) => failed (error_message e)
  | Reply None None => failed null_map_error
  | Reply (Some rows) None => Normal (new_Set (tenant_id <$> rows))
  end.

(** *** Objects

    An object is the list of its own enumerable properties in key order;
    the spread and the rest of a destructuring keep that order. *)

Section Objects.
Context {V : Type}.

Definition object : Type := list (string * V).

(** [Object.keys(o)] *)
Definition Object_keys (o : object) : list string := o.*1.

(** [o[f]]; [None] is [undefined]. *)
Fixpoint prop (f : string) (o : object) : option V :=
  match o with
  | [] => None
  | (f', v) :: o' => if decide (f' = f) then Some v else prop f o'
  end.

(** [{ ...o, f: v }]: a property that [o] has keeps its place. *)
Fixpoint set_prop (f : string) (v : V) (o : object) : object :=
  match o with
  | [] => [(f, v)]
  | (f', v') :: o' =>
      if decide (f' = f) then (f, v) :: o' else (f', v') :: set_prop f v o'
  end.

(** [const { f1, ..., fn, ...rest } = o] *)
Definition rest_without (fs : list string) (o : object) : object :=
  filter (λ p, p.1 ∉ fs) o.

End Objects.
Arguments object : clear implicits.

(** *** Methods on one counter

    A method either returns or throws the [Error] its [catch] has made,
    which is all a caller can see of a failure. *)
Inductive service_result (A : Type) : Type :=
| Ok (a : A)
| Err (message : string).
Arguments Ok {A} a.
Arguments Err {A} message.

Section Rows.
Context {R V : Type}.

(** What the second chain of a method comes to (lines 157-161, 188-192):
    an [error] is thrown, else [data] is returned. *)
Definition data_or_throw (failed : string → service_result (option R))
    (reply : db_reply R) : service_result (option R) :=
  match reply with
  | Thrown m => failed m
  | Reply _ (Some e) => failed (error_message e)
  | Reply data None => Ok data
  end.

(** Lines 105-126.  The code of "no rows" is not an error: the method
    returns [null]. *)
Definition getById (reply : db_reply R) : service_result (option R) :=
  let failed m := Err ("Failed to retrieve counter by id: " +:+ m) in
  match reply with
  | Thrown m => failed m
  | Reply data (Some e) =>
      if decide (error_code e = "PGRST116") then Ok None
      else failed (error_message e)
  | Reply data None => Ok data
  end.

(** Lines 135-165, given the replies to its two chains and the reading of
    the clock.  The first component is what is sent to [update], if the
    method gets that far. *)
Definition updateById (now : V) (existing updated : db_reply R)
    (id : string) (updates : object V)
    : option (string * object V) * service_result (option R) :=
  let failed m := Err ("Failed to update counter by id: " +:+ m) in
  match getById existing with
  | Err m => (None, failed m)
  | Ok None => (None, failed ("Counter with id " +:+ id +:+ " not found"))
  | Ok (Some _) =>
      let updateData := set_prop "updated_at" now updates in
      (Some (id, updateData), data_or_throw failed updated)
  end.

(** Lines 173-196. *)
Definition create (now : V) (inserted : db_reply R) (counterData : object V)
    : object V * service_result (option R) :=
  let failed m := Err ("Failed to create counter: " +:+ m) in
  let insertData :=
    set_prop "updated_at" now (set_prop "created_at" now counterData) in
  (insertData, data_or_throw failed inserted).

End Rows.

Section Restore.
Context {R V : Type}.

(** [!!existing.deleted_at] *)
Variable deleted_at : R → bool.

(** Lines 240-276, given the replies to its two chains and the reading of
    the clock.  An [error] of the first chain and a [null] row are both
    "not found".  The first component is what is sent to [update], [None]
    in it being [null], if the method gets that far. *)
Definition restore (now : V) (fetched updated : db_reply R) (id : string)
    : option (string * object (option V)) * service_result (option R) :=
  let failed m := Err ("Failed to restore counter: " +:+ m) in
  match fetched with
  | Thrown m => (None, failed m)
  | Reply (Some existing) None =>
      if deleted_at existing
      then (Some (id, [("deleted_at", None); ("updated_at", Some now)]),
            data_or_throw failed updated)
      else (None, failed ("Counter with id " +:+ id +:+ " is not deleted"))
  | Reply _ _ => (None, failed ("Counter with id " +:+ id +:+ " not found"))
  end.

End Restore.

End Service.

(** ** The routes ([src/routes/counter.js]) *)

Module Routes.
Import Service.

(** [ApiError] ([src/errors/errors.js]) is not among the sources.  An error
    made by one of its static factories is written as the call that made
    it; such an error is an instance of [ApiError], the [Error] of a
    service method is not. *)
Inductive api_error : Type :=
| badRequest (message : string)
| notFound (message : string)
| internal (message : string).

(** What the [catch] of a handler receives. *)
Inductive thrown : Type :=
| OfApi (e : api_error)
| OfError (message : string).

(** What a handler ends with: [res.status(c).json(v)] or [next(e)]. *)
Inductive reply (B : Type) : Type :=
| Json (status : nat) (body : B)
| Next (e : api_error).
Arguments Json {B} status body.
Arguments Next {B} e.

(** [s.includes(sub)] *)
Fixpoint includes (sub s : string) : bool :=
  String.prefix sub s ||
  match s with
  | EmptyString => false
  | String _ s' => includes sub s'
  end.

(** The [catch] of the handlers that look for ['not found'] in the message
    (lines 136-144, 175-183, 213-221, ...). *)
Definition catch_not_found (e : thrown) : api_error :=
  match e with
  | OfApi a => a
  | OfError m => if includes "not found" m then notFound m else internal m
  end.

(** The fields a [PATCH] may not set (line 205). *)
Definition protected_fields : list string :=
  ["id"; "tenant_id"; "created_at"; "deleted_at"].

Section Patch.
Context {V R : Type}.

(** Lines 192-211: the [try] block of [PATCH /:id] up to the call of
    [updateById]: it throws, or calls the service with these arguments.
    A body that is [undefined] is [None]. *)
Definition patch_call (id : string) (body : option (object V))
    : api_error + (string * object V) :=
  if decide (id = "") then inl (badRequest "Counter ID is required")
  else
    match body with
    | None => inl (badRequest "Update data is required")
    | Some updates =>
        if decide (length (Object_keys updates) = 0)
        then inl (badRequest "Update data is required")
        else
          let allowedUpdates := rest_without protected_fields updates in
          if decide (length (Object_keys allowedUpdates) = 0)
          then inl (badRequest "No valid fields to update")
          else inr (id, allowedUpdates)
    end.

(** Lines 191-222, with the service as a parameter. *)
Definition patch_route (updateById : string → object V → service_result R)
    (id : string) (body : option (object V)) : reply R :=
  match patch_call id body with
  | inl e => Next (catch_not_found (OfApi e))
  | inr (id', allowedUpdates) =>
      match updateById id' allowedUpdates with
      | Ok updatedCounter => Json 200 updatedCounter
      | Err m => Next (catch_not_found (OfError m))
      end
  end.

End Patch.

(** The [catch] of [POST /:id/restore] (lines 289-299): ['not found'] is
    looked for before ['not deleted']. *)
Definition catch_restore (e : thrown) : api_error :=
  match e with
  | OfApi a => a
  | OfError m =>
      if includes "not found" m then notFound m
      else if includes "not deleted" m then badRequest m
      else internal m
  end.

(** Lines 279-300, with the service as a parameter. *)
Definition restore_route {R} (restore : string → service_result R)
    (id : string) : reply R :=
  if decide (id = "")
  then Next (catch_restore (OfApi (badRequest "Counter ID is required")))
  else
    match restore id with
    | Ok restoredCounter => Json 200 restoredCounter
    | Err m => Next (catch_restore (OfError m))
    end.

(** Values of a JSON body. *)
Inductive body_value : Type :=
| BNull
| BBool (b : bool)
| BNum (q : QArith_base.Q)
| BStr (s : string)
| BArr (items : list body_value)
| BObj (fields : list (string * body_value)).

(** [!!v] for a property that may be missing. *)
Definition truthy (v : option body_value) : bool :=
  match v with
  | None | Some BNull => false
  | Some (BBool b) => b
  | Some (BNum q) => negb (QArith_base.Qnum q =? 0)%Z
  | Some (BStr s) => negb (String.eqb s "")
  | Some (BArr _) | Some (BObj _) => true
  end.

(** Lines 153-173: the [try] block of [POST /] up to the call of
    [create]. *)
Definition post_call (body : option (object body_value))
    : api_error + object body_value :=
  match body with
  | None => inl (badRequest "Counter data is required")
  | Some counterData =>
      if decide (length (Object_keys counterData) = 0)
      then inl (badRequest "Counter data is required")
      else if negb (truthy (prop "name" counterData))
      then inl (badRequest "Counter name is required")
      else
        match prop "value" counterData with
        | None | Some BNull => inl (badRequest "Counter value is required")
        | Some _ =>
            if negb (truthy (prop "tenant_id" counterData))
            then inl (badRequest "Tenant ID is required")
            else inr counterData
        end
  end.

(** Lines 152-184, with the service as a parameter. *)
Definition post_route {R} (create : object body_value → service_result R)
    (body : option (object body_value)) : reply R :=
  match post_call body with
  | inl e => Next (catch_not_found (OfApi e))
  | inr counterData =>
      match create counterData with
      | Ok counter => Json 201 counter
      | Err m => Next (catch_not_found (OfError m))
      end
  end.

End Routes.

(** ** The increment of [GET /counter] (lines 15-81 of the routes)

    The operation that the handler enqueues under the tenant's key.  It
    awaits two methods of the service; their outcomes are the
    environment's.  The world records, as ghost state, the calls of the
    service that the operation makes and the point where it returns or
    throws.  [Number] of a string and the value of an [ApiError] are not in
    the sources and stay parameters. *)

Module Increment.

Section Increment.
Context {D : Type}.
Variable clock : D → Format.Date.
Variable StringToNumber : string → Format.number.
Variables ApiError_notFound ApiError_internal : string → value.

Inductive call : Type :=
| GetByTenantId (tenantId : key)                  (* line 26 *)
| UpdateByTenantId (tenantId : key) (value : Z)   (* line 63 *)
| Settles (tenantId : key).                       (* a [throw], or line 68 *)

Definition call_tenant (c : call) : key :=
  match c with
  | GetByTenantId k | UpdateByTenantId k _ | Settles k => k
  end.

Record iworld : Type := IWorld {
  outside : D;
  calls : list call
}.

Definition called (c : call) (w : iworld) : iworld :=
  IWorld (outside w) (calls w ++ [c]).

(** [!!v] *)
Definition truthy (v : value) : bool :=
  match v with
  | VUndefined | VNull => false
  | VBool b => b
  | VNum n => negb (n =? 0)%Z
  | VStr s => negb (String.eqb s "")
  | VError _ | VObj _ => true
  end.

(** [counter.value], for a [counter] that is not [null] or [undefined]. *)
Definition get_value (counter : value) : value :=
  match counter with
  | VObj fields => default VUndefined (Service.prop "value" fields)
  | _ => VUndefined
  end.

(** [Number(v)].  An [Error] and a plain object convert through their
    string, which is not a numeral. *)
Definition Number (v : value) : Format.number :=
  match v with
  | VUndefined => Format.NaN
  | VNull => Format.Finite (QArith_base.inject_Z 0)
  | VBool b => Format.Finite (QArith_base.inject_Z (if b then 1 else 0))
  | VNum n => Format.Finite (QArith_base.inject_Z n)
  | VStr s => StringToNumber s
  | VError _ | VObj _ => Format.NaN
  end.

(** Lines 33-50: the checks on [counter.value]; the message of the error
    thrown, or the current value. *)
Definition checked_value (v : value) : string + Z :=
  match v with
  | VNull | VUndefined => inl "Counter value is invalid"
  | _ =>
      match Number v with
      | Format.Finite q =>
          if negb (Format.Number_isInteger (Format.JNumber (Format.Finite q)))
          then inl "Counter value must be an integer"
          else
            let currentValue := Format.integer_value q in
            if (currentValue <? 0)%Z
            then inl "Counter value cannot be negative"
            else if (2147483647 <=? currentValue)%Z
            then inl "Counter has reached maximum value"
            else inr currentValue
      | _ => inl "Counter value must be an integer"
      end
  end.

(** Lines 63-68, from the moment [updateByTenantId] has settled. *)
Definition after_update (tenantId : key) (nextOrderNumber : Z)
    : outcome → iworld → iworld * promise iworld :=
  λ o w,
    let w' := called (Settles tenantId) w in
    match o with
    | Rejected e => (w', Failed e)
    | Fulfilled _ =>
        match Format.formatOrderNumber (clock (outside w))
                (Format.JNumber
                   (Format.Finite (QArith_base.inject_Z nextOrderNumber))) with
        | Normal formatted =>
            (w', Resolved (VObj [("order_number", VStr formatted)]))
        | Abrupt e => (w', Failed e)
        end
    end.

(** Lines 26-63, from the moment [getByTenantId] has settled. *)
Definition after_get (tenantId : key)
    : outcome → iworld → iworld * promise iworld :=
  λ o w,
    let w' := called (Settles tenantId) w in
    match o with
    | Rejected e => (w', Failed e)
    | Fulfilled counter =>
        if negb (truthy counter)
        then (w', Failed (ApiError_notFound "Counter not found for this tenant"))
        else
          match checked_value (get_value counter) with
          | inl m => (w', Failed (ApiError_internal m))
          | inr currentValue =>
              let nextOrderNumber := (currentValue + 1)%Z in
              (called (UpdateByTenantId tenantId nextOrderNumber) w,
               Pending (after_update tenantId nextOrderNumber))
          end
    end.

(** Lines 24-69: the operation. *)
Definition increment_operation (tenantId : key) : operation iworld :=
  λ w, (called (GetByTenantId tenantId) w,
        Returned (Pending (after_get tenantId))).

(** Turns of a queue that carries increments only, each under the key of
    its tenant (line 24). *)
Definition increment_turn (ev : event iworld) : Prop :=
  match ev with
  | Enqueue k op => op = increment_operation k
  | _ => True
  end.

(** The calls made for one tenant. *)
Definition calls_of (k : key) (cs : list call) : list call :=
  filter (λ c, call_tenant c = k) cs.

(** Where an increment stands: not started or settled, waiting for its
    read, waiting for its write. *)
Inductive stage : Type := Idle | Reading | Writing.

(** The calls of one increment after the other: a read, perhaps the
    write, and the end, before the next read. *)
Definition stage_step (st : stage) (c : call) : option stage :=
  match c, st with
  | GetByTenantId _, Idle => Some Reading
  | UpdateByTenantId _ _, Reading => Some Writing
  | Settles _, Reading | Settles _, Writing => Some Idle
  | _, _ => None
  end.

Definition stages (cs : list call) : option stage :=
  foldl (λ acc c, match acc with
                  | Some st => stage_step st c
                  | None => None
                  end) (Some Idle) cs.

(** Where the increment in flight for [k] stands. *)
Definition in_stage (k : key) (st : stage) (p : promise iworld) : Prop :=
  match p with
  | Pending resume =>
      (resume = after_get k ∧ st = Reading) ∨
      (∃ n, resume = after_update k n ∧ st = Writing)
  | _ => st = Idle
  end.

Definition inc_key (k : key) (s : State iworld) : Prop :=
  Forall (λ e, entry_operation e = increment_operation k) (backlog k s) ∧
  ∃ st, stages (calls_of k (calls (world s))) = Some st ∧
        match workers_of k s with
        | [] => st = Idle
        | wk :: _ => in_stage k st (wk_awaiting wk)
        end.

Definition inc_inv (s : State iworld) : Prop := ∀ k, inc_key k s.

End Increment.

End Increment.

(** ** Scenarios for the service, the routes and the increment *)

Module Cases.
Import Demo Service Routes.

(** Three counters of two tenants. *)
Definition rows : list tenant_row :=
  [TenantRow tenant1; TenantRow tenant2; TenantRow tenant1].
Definition rows_reply : db_reply (list tenant_row) := Reply (Some rows) None.

(** Replies of the database about one counter. *)
Definition found : db_reply unit := Reply (Some ()) None.
Definition no_rows : db_reply unit :=
  Reply None (Some (DbError "PGRST116" "no rows returned")).

(** Bodies of a [PATCH] and of a [POST]. *)
Definition patch_body : object string :=
  [("name", "orders"); ("id", "8"); ("updated_at", "1999-01-01");
   ("deleted_at", "1999-01-01")].
Definition protected_body : object string :=
  [("id", "8"); ("tenant_id", "tenant-2")].
Definition post_body : object body_value :=
  [("name", BStr "orders"); ("value", BNum (QArith_base.inject_Z 0));
   ("tenant_id", BStr "tenant-1"); ("created_at", BStr "1999-01-01")].

(** A counter that is not deleted, and the reading of its [deleted_at]. *)
Definition deleted_at (row : object body_value) : bool :=
  truthy (prop "deleted_at" row).
Definition live_counter : db_reply (object body_value) :=
  Reply (Some [("id", BStr "8"); ("value", BNum (QArith_base.inject_Z 3));
               ("deleted_at", BNull)]) None.

(** December 2024; no string is a numeral; an [ApiError] carries its status
    and message. *)
Definition december (_ : unit) : Format.Date :=
  {| Format.getFullYear := 2024; Format.getMonth := 11 |}.
Definition no_numeral (_ : string) : Format.number := Format.NaN.
Definition api_404 (m : string) : value :=
  VObj [("status", VNum 404); ("message", VStr m)].
Definition api_500 (m : string) : value :=
  VObj [("status", VNum 500); ("message", VStr m)].

Definition increment : key → operation (@Increment.iworld unit) :=
  Increment.increment_operation december no_numeral api_404 api_500.
Definition counter_at (n : Z) : value := VObj [("value", VNum n)].
Definition idle_world : @Increment.iworld unit := Increment.IWorld () [].

(** Two requests of one tenant and one of another: the first finds 41,
    the other tenant has no counter, the first is answered, the second
    finds 42. *)
Definition three_requests : list (event (@Increment.iworld unit)) :=
  [Enqueue tenant1 (increment tenant1);
   Enqueue tenant1 (increment tenant1);
   Enqueue tenant2 (increment tenant2);
   Progress 0 (Fulfilled (counter_at 41));
   Progress 2 (Fulfilled VNull);
   Progress 0 (Fulfilled VUndefined);
   Wake 0;
   Progress 1 (Fulfilled (counter_at 42))].

End Cases.

(** ** A processing mark without an activation

    [processQueue] is a method of the exported object.  Called for a key
    that has no array it marks the key (line 42) and then fails on
    [queue.length] (line 45), so the mark stays. *)

Section Marks.
Context {W : Type}.


End Marks.

(** * Properties *)

(** ** Traces *)

Lemma kreplay_snoc k t o :
  kreplay k (t ++ [o]) = kstep_for k (kreplay k t) o.
Proof. unfold kreplay. by rewrite foldl_app. Qed.

Lemma kstep_for_None k t : foldl (kstep_for k) None t = None.
Proof. by induction t. Qed.

Lemma kreplay_app_Some k t1 t2 st :
  kreplay k (t1 ++ t2) = Some st → ∃ st1, kreplay k t1 = Some st1.
Proof.
  unfold kreplay. rewrite foldl_app.
  destruct (foldl (kstep_for k) (Some kinit) t1) as [st1|]; [eauto|].
  by rewrite kstep_for_None.
Qed.

Lemma kreplay_other k t o st :
  obs_key o ≠ k → kreplay k t = Some st → kreplay k (t ++ [o]) = Some st.
Proof.
  intros Hne Ht. rewrite kreplay_snoc, Ht. simpl. by rewrite decide_False.
Qed.

Lemma kreplay_same k t o st :
  obs_key o = k → kreplay k t = Some st →
  kreplay k (t ++ [o]) = kstep st o.
Proof.
  intros He Ht. rewrite kreplay_snoc, Ht. simpl. by rewrite decide_True.
Qed.

Lemma submitted_snoc_other k t o :
  (∀ h, o ≠ Submitted k h) → submitted k (t ++ [o]) = submitted k t.
Proof.
  intros Hne. unfold submitted. rewrite omap_app. simpl.
  destruct o; simpl; rewrite ?app_nil_r; try done.
  case_decide; [subst; by destruct (Hne h)|by rewrite app_nil_r].
Qed.

Lemma submitted_snoc_same k t h :
  submitted k (t ++ [Submitted k h]) = submitted k t ++ [h].
Proof.
  unfold submitted. rewrite omap_app. simpl. by rewrite decide_True.
Qed.

Lemma handles_ok_other n t o :
  (∀ k h, o ≠ Submitted k h) → handles_ok n t → handles_ok n (t ++ [o]).
Proof.
  intros Hne (H1 & H2 & H3). unfold handles_ok.
  setoid_rewrite (λ k, submitted_snoc_other k t o (Hne k)). done.
Qed.

Lemma handles_ok_fresh n t k :
  handles_ok n t → handles_ok (S n) (t ++ [Submitted k n]).
Proof.
  intros (H1 & H2 & H3).
  assert (Hfresh : ∀ k', n ∉ submitted k' t).
  { intros k' Hin. apply H1 in Hin. lia. }
  assert (Hs : ∀ k', submitted k' (t ++ [Submitted k n]) =
                     submitted k' t ++ (if decide (k = k') then [n] else [])).
  { intros k'. case_decide; [subst; apply submitted_snoc_same|].
    rewrite app_nil_r. apply submitted_snoc_other. congruence. }
  split_and!.
  - intros k' h. rewrite Hs, elem_of_app. intros [Hin|Hin].
    + apply H1 in Hin. lia.
    + case_decide; [|set_solver].
      apply list_elem_of_singleton in Hin as ->. lia.
  - intros k'. rewrite Hs. apply NoDup_app. split_and!; [done| |].
    + intros h Hin. case_decide; [|set_solver].
      intros ->%list_elem_of_singleton. by apply (Hfresh k').
    + case_decide; [apply NoDup_singleton|apply NoDup_nil_2].
  - intros k1 k2 h. rewrite !Hs, !elem_of_app.
    intros [Hin1|Hin1] [Hin2|Hin2]; [by eauto| | |].
    + case_decide; [|set_solver].
      apply list_elem_of_singleton in Hin2 as ->. by destruct (Hfresh k1).
    + case_decide; [|set_solver].
      apply list_elem_of_singleton in Hin1 as ->. by destruct (Hfresh k2).
    + repeat case_decide; set_solver.
Qed.

(** ** Frame lemmas for the abstraction *)

Section Frames.
Context {W : Type}.
Implicit Types (s : State W) (k : key) (l : loc).

Lemma abs_eq k s s' :
  (k ∈ processing s' ↔ k ∈ processing s) →
  workers_of k s' = workers_of k s →
  backlog k s' = backlog k s →
  abs k s' = abs k s.
Proof.
  intros Hp Hw Hb. unfold abs, in_flight. rewrite Hw, Hb. f_equal.
  apply bool_decide_ext. done.
Qed.

Lemma workers_of_snoc_same k s (w : worker W) ws :
  wk_tenantId w = k →
  workers_of k (set_suspended (ws ++ [w]) s) =
  workers_of k (set_suspended ws s) ++ [w].
Proof.
  intros Hk. unfold workers_of. simpl. rewrite filter_app. f_equal.
  rewrite filter_cons_True by done. done.
Qed.

Lemma workers_of_snoc_other k s (w : worker W) ws :
  wk_tenantId w ≠ k →
  workers_of k (set_suspended (ws ++ [w]) s) =
  workers_of k (set_suspended ws s).
Proof.
  intros Hk. unfold workers_of. simpl. rewrite filter_app.
  rewrite filter_cons_False by done. by rewrite app_nil_r.
Qed.

Lemma backlog_set_arrays_same k l q s :
  queues s !! k = Some l →
  backlog k (set_arrays <[l := q]> s) = q.
Proof.
  intros Hq. unfold backlog, array_at. simpl. rewrite Hq.
  by rewrite lookup_insert_eq.
Qed.

Lemma backlog_set_arrays_other k k0 l q s :
  registry_ok s → queues s !! k0 = Some l → k ≠ k0 →
  backlog k (set_arrays <[l := q]> s) = backlog k s.
Proof.
  intros [Hinj _] Hq Hne. unfold backlog, array_at. simpl.
  destruct (queues s !! k) as [l'|] eqn:Hl; [|done].
  rewrite lookup_insert_ne; [done|]. intros ->. apply Hne. eauto.
Qed.

(** [pick] returns a suspended activation and the others. *)
Lemma pick_Some h (ws : list (worker W)) w rest :
  pick h ws = Some (w, rest) →
  wk_handle w = h ∧ ∃ ws1 ws2, ws = ws1 ++ w :: ws2 ∧ rest = ws1 ++ ws2.
Proof.
  revert w rest. induction ws as [|w0 ws IH]; intros w rest; simpl; [done|].
  case_decide as Hd.
  - intros [= <- <-]. split; [done|]. by exists [], ws.
  - destruct (pick h ws) as [[w' rest']|] eqn:Hp; [|done].
    intros [= <- <-]. destruct (IH _ _ eq_refl) as (Hh & ws1 & ws2 & -> & ->).
    split; [done|]. by exists (w0 :: ws1), ws2.
Qed.

Lemma pick_elem h (ws : list (worker W)) w :
  w ∈ ws → wk_handle w = h → is_Some (pick h ws).
Proof.
  induction ws as [|w0 ws IH]; simpl; [by intros ?%elem_of_nil|].
  intros Hin Hh. case_decide; [eauto|].
  apply elem_of_cons in Hin as [->|Hin]; [done|].
  destruct (IH Hin Hh) as [[w' rest] ->]. eauto.
Qed.

End Frames.

(** ** The invariant is preserved by every turn *)

Section Preservation.
Context {W : Type}.
Implicit Types (s : State W) (k : key) (l : loc).

Lemma abs_running k l s :
  key_running k l s →
  abs k s = KState true None (entry_handle <$> array_at l s).
Proof.
  intros (Hq & Hp & Hw). unfold abs, in_flight, backlog.
  rewrite Hw, Hq, bool_decide_eq_true_2 by done. done.
Qed.

Lemma finish_inv k l s :
  InvRunning k l s → array_at l s = [] → Inv (finish k l s).
Proof.
  intros (Hreg & Hh & Hrun & Hrep & Hrest) Harr.
  pose proof (abs_running _ _ _ Hrun) as Habs.
  destruct Hrun as (Hq & Hp & Hw).
  unfold finish.
  replace (array_at l (emit (WorkerExit k) (set_processing _ s)))
    with (array_at l s) by done.
  rewrite Harr. simpl.
  split_and!.
  - destruct Hreg as [Hinj Hb]. split; simpl.
    + intros k1 k2 l0 [? H1]%lookup_delete_Some [? H2]%lookup_delete_Some.
      eauto.
    + intros k1 l0 [? H1]%lookup_delete_Some. eauto.
  - simpl. by apply handles_ok_other.
  - intros k'. unfold key_rest. simpl. destruct (decide (k' = k)) as [->|Hne].
    + rewrite lookup_delete_eq. split; [set_solver|done].
    + rewrite lookup_delete_ne by done. specialize (Hrest k' Hne).
      unfold key_rest in Hrest.
      destruct (queues s !! k'); (split; [set_solver|apply Hrest]).
  - intros k'. simpl. destruct (decide (k' = k)) as [->|Hne].
    + rewrite (kreplay_same k _ (WorkerExit k) _ eq_refl (Hrep k)), Habs, Harr.
      simpl. unfold abs, in_flight, backlog. simpl.
      rewrite lookup_delete_eq, bool_decide_eq_false_2 by set_solver.
      unfold workers_of in *. simpl. by rewrite Hw.
    + rewrite (kreplay_other k' _ (WorkerExit k) _ (not_eq_sym Hne) (Hrep k')).
      f_equal.
      symmetry. apply abs_eq; simpl; [set_solver|done|].
      unfold backlog. simpl. by rewrite lookup_delete_ne.
Qed.

Lemma drain_inv k l q s :
  InvRunning k l s → array_at l s = q → Inv (drain k l q s).
Proof.
  revert s. induction q as [|e q IH]; intros s HI Harr; simpl.
  { by apply finish_inv. }
  destruct HI as (Hreg & Hh & Hrun & Hrep & Hrest).
  pose proof (abs_running _ _ _ Hrun) as Habs.
  destruct Hrun as (Hq & Hp & Hw).
  destruct (entry_operation e (world s)) as [w' c] eqn:Hop. simpl.
  set (s2 := emit (Started k (entry_handle e))
               (set_world w' (set_arrays <[l := q]> s))).
  assert (Hreg2 : registry_ok s2) by done.
  assert (Hrun2 : key_running k l s2) by done.
  assert (Harr2 : array_at l s2 = q).
  { unfold array_at. simpl. by rewrite lookup_insert_eq. }
  assert (Hframe : ∀ k', k' ≠ k → abs k' s2 = abs k' s).
  { intros k' Hne. apply abs_eq; [done..|].
    by apply (backlog_set_arrays_other k' k l q s). }
  assert (Hrep2 : ∀ k', kreplay k' (trace s2) =
      Some (if decide (k' = k)
            then KState true (Some (entry_handle e)) (entry_handle <$> q)
            else abs k' s)).
  { intros k'. simpl. case_decide as Hk; [subst k'|].
    - rewrite (kreplay_same k _ (Started k _) _ eq_refl (Hrep k)), Habs, Harr.
      simpl. by rewrite decide_True.
    - by rewrite (kreplay_other k' _ (Started k _) _ (not_eq_sym Hk) (Hrep k')). }
  destruct c as [err|p].
  - (* the operation threw synchronously *)
    apply IH; [|done].
    split_and!; [done| |done| |done].
    + simpl. apply handles_ok_other; [done|]. by apply handles_ok_other.
    + intros k'. simpl. destruct (decide (k' = k)) as [->|Hne].
      * specialize (Hrep2 k). rewrite decide_True in Hrep2 by done.
        rewrite (kreplay_same k _ (Settled k _ _) _ eq_refl Hrep2). simpl.
        rewrite decide_True by done.
        symmetry. f_equal. rewrite (abs_running k l); [|done].
        change (array_at l (emit _ s2)) with (array_at l s2).
        by rewrite Harr2.
      * specialize (Hrep2 k'). rewrite decide_False in Hrep2 by done.
        rewrite (kreplay_other k' _ (Settled k _ _) _ (not_eq_sym Hne) Hrep2).
        f_equal. symmetry. by apply Hframe.
  - (* the operation returned a promise: the activation suspends *)
    split_and!; [done| | |].
    + simpl. by apply handles_ok_other.
    + intros k'. unfold key_rest. simpl. destruct (decide (k' = k)) as [->|Hne].
      * rewrite Hq. split; [done|]. exists (entry_handle e), p.
        change (workers_of k (set_suspended
                  (suspended s2 ++ [Worker k l (entry_handle e) p]) s2) = 
                [Worker k l (entry_handle e) p]).
        rewrite workers_of_snoc_same by done.
        change (workers_of k (set_suspended (suspended s2) s2))
          with (workers_of k s). by rewrite Hw.
      * specialize (Hrest k' Hne). unfold key_rest in Hrest.
        change (workers_of k' (set_suspended
                  (suspended s2 ++ [Worker k l (entry_handle e) p]) s2))
          with (workers_of k' (set_suspended
                  (suspended s ++ [Worker k l (entry_handle e) p]) s)).
        rewrite workers_of_snoc_other by (simpl; congruence).
        exact Hrest.
    + intros k'. specialize (Hrep2 k'). simpl in *. rewrite Hrep2.
      f_equal. case_decide as Hk; [subst k'|].
      * unfold abs, in_flight, backlog. simpl.
        rewrite Hq, bool_decide_eq_true_2 by done.
        unfold array_at. simpl. rewrite lookup_insert_eq. simpl.
        unfold workers_of in *. simpl. rewrite filter_app, Hw.
        rewrite filter_cons_True by done. done.
      * rewrite <- Hframe by done. symmetry. apply abs_eq; [done| |done].
        unfold workers_of. simpl. rewrite filter_app.
        rewrite filter_cons_False by (simpl; congruence).
        by rewrite app_nil_r.
Qed.

End Preservation.

Section Turns.
Context {W : Type}.
Implicit Types (s : State W) (k : key) (l : loc).

Lemma init_inv (w : W) : Inv (init w).
Proof.
  split_and!.
  - split; intros *; simpl; by rewrite lookup_empty.
  - split_and!; simpl.
    + by intros k h ?%elem_of_nil.
    + intros k. apply NoDup_nil_2.
    + by intros k k' h ?%elem_of_nil.
  - intros k. unfold key_rest. simpl. rewrite lookup_empty. set_solver.
  - intros k. done.
Qed.

Lemma filter_singleton_split {A} (P : A → Prop) `{!∀ x, Decision (P x)}
    (l1 l2 : list A) (x y : A) :
  P x → filter P (l1 ++ x :: l2) = [y] →
  x = y ∧ filter P (l1 ++ l2) = [].
Proof.
  intros HP. rewrite !filter_app, filter_cons_True by done.
  destruct (filter P l1) as [|a f1]; simpl.
  - intros [= -> ->]. done.
  - intros [= _ Hf]. by destruct f1.
Qed.

(** The suspended activation of a key at rest. *)
Lemma suspended_worker s (wk : worker W) ws1 ws2 :
  suspended s = ws1 ++ wk :: ws2 →
  key_rest (wk_tenantId wk) s →
  queues s !! wk_tenantId wk = Some (wk_queue wk) ∧
  wk_tenantId wk ∈ processing s ∧
  filter (λ w, wk_tenantId w = wk_tenantId wk) (ws1 ++ ws2) = [].
Proof.
  intros Hs Hr. unfold key_rest, workers_of in *. rewrite Hs in *.
  destruct (queues s !! wk_tenantId wk) as [l|].
  - destruct Hr as (Hp & h & p & Hw).
    apply filter_singleton_split in Hw as [-> Hf]; done.
  - destruct Hr as [_ Hw]. rewrite filter_app, filter_cons_True in Hw by done.
    by destruct (filter _ ws1).
Qed.

Lemma filter_remove_other {A} (P : A → Prop) `{!∀ x, Decision (P x)}
    (l1 l2 : list A) (x : A) :
  ¬ P x → filter P (l1 ++ l2) = filter P (l1 ++ x :: l2).
Proof. intros HP. by rewrite !filter_app, filter_cons_False. Qed.

Lemma enqueue_inv k op s : Inv s → Inv (fst (enqueue k op s)).
Proof.
  intros (Hreg & Hh & Hrest & Hrep). unfold enqueue.
  pose proof (Hrest k) as Hk. unfold key_rest in Hk.
  destruct (queues s !! k) as [l|] eqn:Hq; simpl; rewrite ?Hq.
  - (* the key has a queue and a worker: the entry is appended *)
    destruct Hk as (Hp & h0 & p0 & Hw).
    rewrite decide_True by done. simpl.
    split_and!; [done| | |].
    + simpl. by apply handles_ok_fresh.
    + intros k'. apply (Hrest k').
    + intros k'. simpl. destruct (decide (k' = k)) as [->|Hne].
      * rewrite (kreplay_same k _ (Submitted k _) _ eq_refl (Hrep k)). simpl.
        f_equal. unfold abs, in_flight, backlog, array_at. simpl.
        rewrite Hq, lookup_insert_eq. simpl. by rewrite fmap_app.
      * rewrite (kreplay_other k' _ (Submitted k _) _ (not_eq_sym Hne) (Hrep k')).
        f_equal. symmetry. apply abs_eq; [done..|].
        by apply (backlog_set_arrays_other k' k l _ s).
  - (* first use of the key: array, entry and worker are created *)
    destruct Hk as (Hp & Hw).
    rewrite lookup_insert_eq. simpl.
    rewrite decide_False by done.
    unfold processQueue. simpl. rewrite lookup_insert_eq. simpl.
    apply drain_inv; [|done].
    destruct Hreg as [Hinj Hb].
    assert (Habs : abs k s = kinit).
    { unfold abs, in_flight, backlog. rewrite Hq, Hw.
      by rewrite bool_decide_eq_false_2. }
    split_and!.
    + split; simpl.
      * intros k1 k2 l.
        rewrite !lookup_insert. repeat case_decide; subst; try done.
        -- intros [= <-] H2. apply Hb in H2. lia.
        -- intros H1 [= <-]. apply Hb in H1. lia.
        -- apply Hinj.
      * intros k1 l. rewrite lookup_insert. case_decide.
        -- intros [= <-]. lia.
        -- intros H1%Hb. lia.
    + simpl. apply handles_ok_other; [done|]. by apply handles_ok_fresh.
    + split_and!; simpl; [by rewrite lookup_insert_eq|set_solver|done].
    + intros k'. simpl. destruct (decide (k' = k)) as [->|Hne].
      * rewrite (kreplay_same k _ (WorkerStart k) _ eq_refl
                   (kreplay_same k _ (Submitted k _) _ eq_refl (Hrep k))).
        rewrite Habs. simpl. f_equal.
        unfold abs, in_flight, backlog, array_at. simpl.
        rewrite !lookup_insert_eq. simpl.
        rewrite bool_decide_eq_true_2 by set_solver.
        unfold workers_of in *. simpl. by rewrite Hw.
      * rewrite (kreplay_other k' _ (WorkerStart k) _ (not_eq_sym Hne)
                   (kreplay_other k' _ (Submitted k _) _ (not_eq_sym Hne)
                      (Hrep k'))).
        f_equal. symmetry. apply abs_eq; simpl; [set_solver|done|].
        unfold backlog, array_at. simpl. rewrite lookup_insert_ne by done.
        destruct (queues s !! k') as [l'|] eqn:Hl'; [|done].
        apply Hb in Hl'. rewrite !lookup_insert_ne by lia. done.
    + intros k' Hne. specialize (Hrest k'). unfold key_rest in *. simpl.
      rewrite lookup_insert_ne by done.
      destruct (queues s !! k'); (split; [set_solver|apply Hrest]).
Qed.

Lemma progress_inv h o s s' : Inv s → progress h o s = Some s' → Inv s'.
Proof.
  intros (Hreg & Hh & Hrest & Hrep). unfold progress.
  destruct (pick h (suspended s)) as [[wk rest]|] eqn:Hpick; [|done].
  apply pick_Some in Hpick as (Hwh & ws1 & ws2 & Hs & ->).
  destruct (wk_awaiting wk) as [| |resume] eqn:Hp; try done.
  intros [= <-].
  destruct (suspended_worker s wk ws1 ws2 Hs (Hrest _)) as (Hq & Hpr & Hf).
  set (wk' := Worker (wk_tenantId wk) (wk_queue wk) h _).
  assert (Hw : ∀ k, workers_of k (set_suspended ((ws1 ++ ws2) ++ [wk'])
                                   (set_world (resume o (world s)).1 s)) =
                    if decide (k = wk_tenantId wk) then [wk']
                    else workers_of k s).
  { intros k. unfold workers_of. simpl. rewrite filter_app.
    case_decide as Hk; [subst k|].
    - rewrite Hf. by rewrite filter_cons_True.
    - rewrite filter_cons_False by (simpl; congruence).
      rewrite app_nil_r, Hs. apply filter_remove_other. congruence. }
  split_and!; [done..| |].
  - intros k. specialize (Hrest k). unfold key_rest in *.
    rewrite Hw. simpl. case_decide as Hk; [subst k|done].
    rewrite Hq. split; [done|]. eauto.
  - intros k. simpl. rewrite Hrep. f_equal. symmetry.
    unfold abs, in_flight. rewrite Hw. case_decide as Hk; [subst k|done].
    f_equal. pose proof (Hrest (wk_tenantId wk)) as Hr.
    unfold key_rest in Hr. rewrite Hq in Hr.
    destruct Hr as (_ & h0 & p0 & Hw0). rewrite Hw0.
    unfold workers_of in Hw0. rewrite Hs in Hw0.
    apply filter_singleton_split in Hw0 as [Hwk _]; [|done].
    rewrite <-Hwk in *. simpl in *. by subst.
Qed.

Lemma wake_inv h s s' : Inv s → wake h s = Some s' → Inv s'.
Proof.
  intros (Hreg & Hh & Hrest & Hrep). unfold wake.
  destruct (pick h (suspended s)) as [[wk rest]|] eqn:Hpick; [|done].
  apply pick_Some in Hpick as (Hwh & ws1 & ws2 & Hs & ->).
  destruct (suspended_worker s wk ws1 ws2 Hs (Hrest _)) as (Hq & Hpr & Hf).
  set (k := wk_tenantId wk) in *. set (l := wk_queue wk) in *.
  assert (Hcur : in_flight k s = Some h).
  { pose proof (Hrest k) as Hr. unfold key_rest in Hr. rewrite Hq in Hr.
    destruct Hr as (_ & h0 & p0 & Hw0). unfold in_flight. rewrite Hw0.
    unfold workers_of in Hw0. rewrite Hs in Hw0.
    apply filter_singleton_split in Hw0 as [Hwk _]; [|done].
    simpl. f_equal. rewrite <-Hwh, Hwk. done. }
  assert (Hgo : ∀ o, Inv (drain k l
      (array_at l (emit (Settled k h o) (set_suspended (ws1 ++ ws2) s)))
      (emit (Settled k h o) (set_suspended (ws1 ++ ws2) s)))).
  { intros o. apply drain_inv; [|done].
    assert (Hw : ∀ k', k' ≠ k →
      workers_of k' (emit (Settled k h o) (set_suspended (ws1 ++ ws2) s)) =
      workers_of k' s).
    { intros k' Hne. unfold workers_of. simpl. rewrite Hs.
      apply filter_remove_other. subst k. congruence. }
    split_and!; [done| |done| |].
    - simpl. by apply handles_ok_other.
    - intros k'. simpl. destruct (decide (k' = k)) as [->|Hne].
      + rewrite (kreplay_same k _ (Settled k _ _) _ eq_refl (Hrep k)).
        unfold abs at 1. rewrite Hcur, bool_decide_eq_true_2 by done. simpl.
        rewrite decide_True by done. f_equal.
        unfold abs, in_flight, workers_of. simpl. fold k. rewrite Hf.
        by rewrite bool_decide_eq_true_2.
      + rewrite (kreplay_other k' _ (Settled k _ _) _ (not_eq_sym Hne)
                   (Hrep k')).
        f_equal. symmetry. apply abs_eq; [done| |done]. by apply Hw.
    - intros k' Hne. specialize (Hrest k'). unfold key_rest in *.
      rewrite Hw by done. exact Hrest. }
  destruct (wk_awaiting wk); intros [= <-]; [apply Hgo..].
Qed.

Lemma step_inv s ev s' : Inv s → step s ev = Some s' → Inv s'.
Proof.
  destruct ev as [k op|h o|h]; simpl; intros HI Hstep.
  - injection Hstep as <-. by apply enqueue_inv.
  - by eapply progress_inv.
  - by eapply wake_inv.
Qed.

Lemma run_inv evs s s' : Inv s → run s evs = Some s' → Inv s'.
Proof.
  revert s. induction evs as [|ev evs IH]; intros s HI; simpl.
  - by intros [= <-].
  - destruct (step s ev) as [s1|] eqn:Hstep; [|done].
    apply IH. by eapply step_inv.
Qed.

Lemma reachable_inv (w : W) evs s : run (init w) evs = Some s → Inv s.
Proof. apply run_inv, init_inv. Qed.

End Turns.

(** ** What acceptance by the automaton says about a trace *)

Lemma started_snoc k t o :
  started k (t ++ [o]) =
  started k t ++ match o with
                 | Started k' h => if decide (k' = k) then [h] else []
                 | _ => []
                 end.
Proof.
  unfold started. rewrite omap_app. f_equal.
  destruct o; simpl; try done. by case_decide.
Qed.

Lemma settled_snoc k t o :
  settled k (t ++ [o]) =
  settled k t ++ match o with
                 | Settled k' h _ => if decide (k' = k) then [h] else []
                 | _ => []
                 end.
Proof.
  unfold settled. rewrite omap_app. f_equal.
  destruct o; simpl; try done. by case_decide.
Qed.

Lemma submitted_snoc k t o :
  submitted k (t ++ [o]) =
  submitted k t ++ match o with
                   | Submitted k' h => if decide (k' = k) then [h] else []
                   | _ => []
                   end.
Proof.
  unfold submitted. rewrite omap_app. f_equal.
  destruct o; simpl; try done. by case_decide.
Qed.

Lemma worker_events_snoc k t o :
  worker_events k (t ++ [o]) =
  worker_events k t ++ match o with
                       | WorkerStart k' => if decide (k' = k) then [true] else []
                       | WorkerExit k' => if decide (k' = k) then [false] else []
                       | _ => []
                       end.
Proof.
  unfold worker_events. rewrite omap_app. f_equal.
  destruct o; simpl; try done; by case_decide.
Qed.

Lemma alternates_snoc e l b :
  alternates e (l ++ [b]) =
  alternates e l && bool_decide (b = negb (default (negb e) (last l))).
Proof.
  revert e. induction l as [|a l IH]; intros e; simpl.
  - by rewrite negb_involutive, andb_true_r.
  - rewrite IH, andb_assoc. destruct l as [|a' l'].
    + simpl. by destruct a, e, b.
    + change (last (a :: a' :: l')) with (last (a' :: l')).
      destruct (last (a' :: l')) eqn:E; [done|]. by apply last_None in E.
Qed.

(** The lists read off an accepted trace fit together. *)
Lemma kreplay_lists k t st :
  kreplay k t = Some st →
  submitted k t = started k t ++ ks_pending st ∧
  started k t = settled k t ++ option_list (ks_current st) ∧
  alternates true (worker_events k t) = true ∧
  default false (last (worker_events k t)) = ks_active st.
Proof.
  revert st. induction t as [|o t IH] using rev_ind; intros st.
  { intros [= <-]. done. }
  rewrite kreplay_snoc. destruct (kreplay k t) as [st0|]; [|done].
  destruct (IH _ eq_refl) as (H1 & H2 & H3 & H4). simpl.
  rewrite submitted_snoc, started_snoc, settled_snoc, worker_events_snoc.
  case_decide as Hk.
  2:{ intros [= <-]. destruct o; simpl in Hk;
        rewrite ?decide_False, ?app_nil_r by done; done. }
  destruct st0 as [a c p]. simpl in *.
  destruct o as [k' h|k'|k' h|k' h r|k']; simpl in Hk; subst k';
    rewrite ?decide_True by done; simpl; rewrite ?app_nil_r.
  - intros [= <-]. simpl. rewrite H1, app_assoc. done.
  - destruct a; [done|]. intros [= <-]. simpl.
    split_and!; [done|done| |by rewrite last_snoc].
    rewrite alternates_snoc, H3. simpl. by rewrite H4.
  - destruct a, c, p as [|h' p]; try done. case_decide; [subst h'|done].
    intros [= <-]. simpl in *. rewrite app_nil_r in H2.
    rewrite H1, H2, <-app_assoc. done.
  - destruct a, c as [h'|]; try done. case_decide; [subst h'|done].
    intros [= <-]. simpl. rewrite app_nil_r. done.
  - destruct a, c, p; try done. intros [= <-]. simpl.
    split_and!; [done|done| |by rewrite last_snoc].
    rewrite alternates_snoc, H3. simpl. by rewrite H4.
Qed.

(** What the automaton requires at one event in the middle of a trace. *)
Lemma kreplay_split k t1 o t2 st :
  kreplay k (t1 ++ o :: t2) = Some st → obs_key o = k →
  ∃ st1 st2, kreplay k t1 = Some st1 ∧ kstep st1 o = Some st2.
Proof.
  intros Hr Hk.
  replace (t1 ++ o :: t2) with ((t1 ++ [o]) ++ t2) in Hr
    by by rewrite <-app_assoc.
  apply kreplay_app_Some in Hr as [st2 Hr].
  rewrite kreplay_snoc in Hr. destruct (kreplay k t1) as [st1|]; [|done].
  simpl in Hr. rewrite decide_True in Hr by done. eauto.
Qed.

Lemma kreplay_at_start k t1 h t2 st :
  kreplay k (t1 ++ Started k h :: t2) = Some st →
  started k t1 = settled k t1 ∧
  ∃ rest, submitted k t1 = started k t1 ++ h :: rest.
Proof.
  intros Hr. apply kreplay_split in Hr as (st1 & st2 & Hr1 & Hs); [|done].
  apply kreplay_lists in Hr1 as (H1 & H2 & _).
  destruct st1 as [a c p]. simpl in *.
  destruct a, c, p as [|h' p]; try done. case_decide; [subst h'|done].
  simpl in H2. rewrite app_nil_r in H2. eauto.
Qed.

Lemma kreplay_at_exit k t1 t2 st :
  kreplay k (t1 ++ WorkerExit k :: t2) = Some st →
  submitted k t1 = settled k t1.
Proof.
  intros Hr. apply kreplay_split in Hr as (st1 & st2 & Hr1 & Hs); [|done].
  apply kreplay_lists in Hr1 as (H1 & H2 & _).
  destruct st1 as [a c p]. simpl in *.
  destruct a, c, p as [|h' p]; try done.
  simpl in *. by rewrite H1, H2, !app_nil_r.
Qed.

(** * The claims about the queue *)

Section QueueClaims.
Context {W : Type}.
Implicit Types (s : State W) (k : key) (l : loc) (evs : list (event W)).

Lemma submitted_app k t1 t2 :
  submitted k (t1 ++ t2) = submitted k t1 ++ submitted k t2.
Proof. apply omap_app. Qed.

(** C2.  A key never has two workers.  In every reachable state at most one
    activation of [processQueue] exists for [k]; in the trace the starts and
    exits of the worker of [k] alternate, beginning with a start; in every
    prefix of the trace at most one started entry of [k] is not settled; and
    [enqueue] on a key marked as processing appends the entry and starts
    nothing. *)
Theorem single_worker_per_key (w : W) evs s k :
  run (init w) evs = Some s →
  length (workers_of k s) ≤ 1 ∧
  (k ∈ processing s ↔ workers_of k s ≠ []) ∧
  alternates true (worker_events k (trace s)) = true ∧
  (∀ t1 t2, trace s = t1 ++ t2 →
     length (started k t1) ≤ S (length (settled k t1))) ∧
  (∀ op, k ∈ processing s →
     suspended (fst (enqueue k op s)) = suspended s ∧
     trace (fst (enqueue k op s)) = trace s ++ [Submitted k (next_handle s)]).
Proof.
  intros Hrun. destruct (reachable_inv _ _ _ Hrun) as (_ & Hh & Hrest & Hrep).
  specialize (Hrep k). specialize (Hrest k).
  pose proof (kreplay_lists _ _ _ Hrep) as (_ & _ & Halt & _).
  unfold key_rest in Hrest.
  split_and!.
  - destruct (queues s !! k); [destruct Hrest as (_ & h & p & ->)|
                                destruct Hrest as (_ & ->)]; simpl; lia.
  - destruct (queues s !! k); [destruct Hrest as (? & h & p & ->)|
                                destruct Hrest as (? & ->)]; naive_solver.
  - done.
  - intros t1 t2 Ht. rewrite Ht in Hrep.
    apply kreplay_app_Some in Hrep as [st1 Hrep].
    apply kreplay_lists in Hrep as (_ & -> & _).
    rewrite length_app. destruct (ks_current st1); simpl; lia.
  - intros op Hp. unfold enqueue.
    destruct (queues s !! k) as [l|] eqn:Hq; [|by destruct Hrest].
    simpl. rewrite Hq. by rewrite decide_True.
Qed.

(** C5.  Between turns a key is in the registry exactly when it has a
    backlog or a worker that is executing an entry; the array a worker drains
    is the one the registry holds for its key; a key that is not being
    processed has no registry entry, so the registry holds the keys being
    processed and nothing else.  Read on the trace: the key is in the
    registry exactly while one of its submitted entries is not settled.
    When no activation is suspended the registry and the processing set are
    empty: nothing is kept for idle keys. *)
Theorem registry_tracks_activity (w : W) evs s k :
  run (init w) evs = Some s →
  (is_Some (queues s !! k) ↔ backlog k s ≠ [] ∨ workers_of k s ≠ []) ∧
  (∀ wk, wk ∈ suspended s →
     queues s !! wk_tenantId wk = Some (wk_queue wk)) ∧
  (k ∉ processing s → queues s !! k = None) ∧
  dom (queues s) = processing s ∧
  (is_Some (queues s !! k) ↔ settled k (trace s) ≠ submitted k (trace s)) ∧
  (quiescent s → queues s = ∅ ∧ processing s = ∅).
Proof.
  intros Hrun. destruct (reachable_inv _ _ _ Hrun) as (_ & _ & Hrest & Hrep).
  assert (Hdom : dom (queues s) = processing s).
  { apply set_eq. intros k'. rewrite elem_of_dom.
    specialize (Hrest k'). unfold key_rest in Hrest.
    destruct (queues s !! k'); naive_solver. }
  assert (Hidle : quiescent s → queues s = ∅).
  { intros Hq. apply map_empty. intros k'.
    specialize (Hrest k'). unfold key_rest, workers_of in Hrest.
    rewrite Hq in Hrest. destruct (queues s !! k'); [|done].
    by destruct Hrest as (_ & ? & ? & ?). }
  split_and!; [| | |done| |].
  - specialize (Hrest k). unfold key_rest, backlog in *.
    destruct (queues s !! k) as [l|].
    + destruct Hrest as (_ & h & p & ->). split; [by right|eauto].
    + destruct Hrest as (_ & ->). split; [by intros [? ?]|naive_solver].
  - intros wk (ws1 & ws2 & Hs)%list_elem_of_split.
    by destruct (suspended_worker s wk ws1 ws2 Hs (Hrest _)) as (? & _).
  - specialize (Hrest k). unfold key_rest in Hrest.
    destruct (queues s !! k); naive_solver.
  - destruct (kreplay_lists _ _ _ (Hrep k)) as (Hsub & Hst & _).
    simpl in Hsub, Hst. rewrite Hsub, Hst, <-app_assoc.
    specialize (Hrest k). unfold key_rest, backlog, in_flight in *.
    destruct (queues s !! k) as [l|].
    + destruct Hrest as (_ & h & p & ->). simpl. split; [|eauto].
      intros _ Heq. rewrite <-(app_nil_r (settled k (trace s))) in Heq at 1.
      by apply app_inv_head in Heq.
    + destruct Hrest as (_ & ->). simpl. rewrite app_nil_r.
      split; [by intros [? ?]|done].
  - intros Hq. split; [by apply Hidle|].
    rewrite <-Hdom, (Hidle Hq). apply dom_empty_L.
Qed.

End QueueClaims.

(** ** [drain] in summary form *)

Section DrainSpec.
Context {W : Type}.
Implicit Types (s : State W) (k : key) (l : loc).

Lemma drain_spec k l q s :
  array_at l s = q →
  drain k l q s = install k l (drain_result k l q (world s)) s.
Proof.
  revert s. induction q as [|e q IH]; intros s Harr; simpl.
  - unfold finish, install. simpl.
    replace (array_at l (emit (WorkerExit k) (set_processing _ s)))
      with (array_at l s) by done.
    rewrite Harr. simpl. unfold set_queues. simpl. by rewrite app_nil_r.
  - destruct (entry_operation e (world s)) as [w' [err|p]]; simpl.
    + rewrite IH.
      2:{ unfold array_at. simpl. by rewrite lookup_insert_eq. }
      unfold install. simpl. f_equal.
      * destruct (d_array _); simpl; [|done]. by rewrite insert_insert_eq.
      * by rewrite <-!app_assoc.
    + unfold install. simpl. done.
Qed.

Lemma drain_result_events k l q (w : W) :
  Forall (λ o, obs_key o = k) (d_events (drain_result k l q w)).
Proof.
  revert w. induction q as [|e q IH]; intros w; simpl.
  - by repeat constructor.
  - destruct (entry_operation e w) as [w' [err|p]]; simpl;
      repeat constructor; apply IH.
Qed.

Lemma drain_result_parked k l q (w : W) wk :
  d_parked (drain_result k l q w) = Some wk →
  wk_tenantId wk = k ∧ wk_queue wk = l.
Proof.
  revert w. induction q as [|e q IH]; intros w; simpl; [done|].
  destruct (entry_operation e w) as [w' [err|p]]; simpl; [apply IH|].
  by intros [= <-].
Qed.

Lemma drain_result_empty k l (w : W) :
  drain_result k l [] w = Drained w [WorkerExit k] None None.
Proof. done. Qed.

Lemma drain_result_step k l (e : entry W) q w :
  drain_result k l (e :: q) w =
    match snd (entry_operation e w) with
    | Threw err =>
        let d := drain_result k l q (fst (entry_operation e w)) in
        Drained (d_world d)
                (Started k (entry_handle e) ::
                 Settled k (entry_handle e) (Rejected err) :: d_events d)
                (Some (default q (d_array d))) (d_parked d)
    | Returned p =>
        Drained (fst (entry_operation e w)) [Started k (entry_handle e)]
                (Some q) (Some (Worker k l (entry_handle e) p))
    end.
Proof. done. Qed.

(** One run of the loop, seen from the calls: it submits nothing, rejects
    an entry with what its own operation threw, parks on the promise that
    the entry's own operation returned, and leaves entries it was given. *)
Lemma drain_result_provenance calls k l q (w : W) :
  (∀ e, e ∈ q → called_as calls (entry_handle e) (entry_operation e)) →
  (∀ k', submitted k' (d_events (drain_result k l q w)) = []) ∧
  (∀ k' h o, Settled k' h o ∈ d_events (drain_result k l q w) →
     ∃ op, called_as calls h op ∧ own_outcome op o) ∧
  (∀ wk, d_parked (drain_result k l q w) = Some wk →
     ∃ op, called_as calls (wk_handle wk) op ∧
           remains_of op (wk_awaiting wk)) ∧
  (∀ a e, d_array (drain_result k l q w) = Some a → e ∈ a → e ∈ q).
Proof.
  revert w. induction q as [|e q IH]; intros w Hq; simpl.
  - split_and!; [done| |done|done].
    intros k' h o Hin. apply list_elem_of_singleton in Hin. done.
  - assert (Hq' : ∀ e', e' ∈ q →
              called_as calls (entry_handle e') (entry_operation e')).
    { intros e' Hin. apply Hq. by right. }
    destruct (entry_operation e w) as [w' [err|p]] eqn:Hop; simpl.
    + destruct (IH w' Hq') as (H1 & H2 & H3 & H4). split_and!.
      * intros k'. apply H1.
      * intros k' h o [Heq|Hin]%elem_of_cons; [done|].
        apply elem_of_cons in Hin as [[= -> -> ->]|Hin]; [|by eapply H2].
        exists (entry_operation e). split; [apply Hq; by left|].
        right. exists w. by rewrite Hop.
      * done.
      * intros a e' [= <-] Hin. right.
        destruct (d_array (drain_result k l q w')) as [a'|] eqn:Ha;
          simpl in Hin; [by eapply H4|done].
    + split_and!.
      * done.
      * intros k' h o Hin. apply list_elem_of_singleton in Hin. done.
      * intros wk [= <-]. simpl. exists (entry_operation e).
        split; [apply Hq; by left|].
        apply (remains_returned _ w). by rewrite Hop.
      * intros a e' [= <-] Hin. by right.
Qed.

End DrainSpec.

#[local] Arguments drain_result : simpl never.

Section EnqueueSpec.
Context {W : Type}.
Implicit Types (s : State W) (k : key) (l : loc).

Lemma enqueue_fresh k op s :
  queues s !! k = None → k ∉ processing s →
  fst (enqueue k op s) =
    install k (next_loc s)
      (drain_result k (next_loc s) [Entry op (next_handle s)] (world s))
      (mkState (<[k := next_loc s]> (queues s))
               (<[next_loc s := [Entry op (next_handle s)]]> (arrays s))
               ({[k]} ∪ processing s) (suspended s) (world s)
               (S (next_handle s)) (S (next_loc s))
               (trace s ++ [Submitted k (next_handle s); WorkerStart k])).
Proof.
  intros Hq Hp. unfold enqueue. rewrite Hq. simpl.
  rewrite lookup_insert_eq. simpl. rewrite decide_False by done.
  unfold processQueue. simpl. rewrite lookup_insert_eq. simpl.
  rewrite drain_spec by done.
  unfold array_at. simpl. rewrite !lookup_insert_eq. simpl.
  unfold install. simpl.
  rewrite (insert_insert_eq (arrays s)).
  destruct (drain_result _ _ _ _) as [dw de da dp]; simpl.
  f_equal. by rewrite <-!app_assoc.
Qed.

Lemma enqueue_busy k op s l :
  queues s !! k = Some l → k ∈ processing s →
  fst (enqueue k op s) =
    mkState (queues s)
            (<[l := array_at l s ++ [Entry op (next_handle s)]]> (arrays s))
            (processing s) (suspended s) (world s)
            (S (next_handle s)) (next_loc s)
            (trace s ++ [Submitted k (next_handle s)]).
Proof.
  intros Hq Hp. unfold enqueue. rewrite Hq. simpl. rewrite Hq.
  by rewrite decide_True.
Qed.

End EnqueueSpec.

(** ** Settlements *)

Lemma settlements_app h t1 t2 :
  settlements h (t1 ++ t2) = settlements h t1 ++ settlements h t2.
Proof. apply omap_app. Qed.

Lemma settlements_nil h t :
  (∀ k, h ∉ settled k t) → settlements h t = [].
Proof.
  induction t as [|o t IH]; [done|]. intros Hn.
  assert (Ht : ∀ k, h ∉ settled k t).
  { intros k Hin. apply (Hn k). unfold settled in *. simpl.
    destruct o; simpl; try done. case_decide; [by right|done]. }
  specialize (IH Ht).
  destruct o as [| | |k h' r|]; try done.
  destruct (decide (h' = h)) as [->|Hne].
  - destruct (Hn k). unfold settled. simpl. rewrite decide_True by done.
    by left.
  - unfold settlements in *. simpl. by rewrite decide_False.
Qed.

Lemma settled_settlements k h t :
  h ∈ settled k t → settlements h t ≠ [].
Proof.
  induction t as [|o t IH]; [by intros ?%elem_of_nil|].
  unfold settled, settlements in *. simpl.
  destruct o as [| | |k' h' r|]; simpl; try done.
  case_decide; [subst k'|].
  - intros [->|Hin]%elem_of_cons.
    + by rewrite decide_True.
    + case_decide; [done|by apply IH].
  - intros Hin. case_decide; [done|by apply IH].
Qed.

Lemma handles_ok_prefix n t1 t2 : handles_ok n (t1 ++ t2) → handles_ok n t1.
Proof.
  intros (H1 & H2 & H3). split_and!.
  - intros k h Hin. apply (H1 k). rewrite submitted_app. set_solver.
  - intros k. specialize (H2 k). rewrite submitted_app in H2.
    by apply NoDup_app in H2 as (? & _).
  - intros k k' h Hk Hk'. apply (H3 _ _ h); rewrite submitted_app; set_solver.
Qed.

Lemma accepted_prefix t1 t2 : accepted (t1 ++ t2) → accepted t1.
Proof.
  intros Ha k. destruct (Ha k) as [st Hst].
  apply kreplay_app_Some in Hst as [st1 ->]. eauto.
Qed.

(** A handle that is in flight has not been settled. *)
Lemma current_unsettled n t k h st :
  handles_ok n t → accepted t →
  kreplay k t = Some st → ks_current st = Some h →
  settlements h t = [].
Proof.
  intros (_ & Hnd & Hown) Hacc Hrep Hcur.
  apply kreplay_lists in Hrep as (Hsub & Hst & _).
  rewrite Hcur in Hst. simpl in Hst.
  apply settlements_nil. intros k' Hin.
  destruct (Hacc k') as [st' Hrep'].
  apply kreplay_lists in Hrep' as (Hsub' & Hst' & _).
  assert (k' = k) as ->.
  { apply (Hown _ _ h).
    - rewrite Hsub', Hst'. set_solver.
    - rewrite Hsub, Hst. set_solver. }
  specialize (Hnd k). rewrite Hsub, Hst in Hnd.
  apply NoDup_app in Hnd as (Hnd & _).
  apply NoDup_app in Hnd as (_ & Hdis & _).
  apply (Hdis _ Hin). by left.
Qed.

Lemma settlements_at_most_once n t h :
  handles_ok n t → accepted t → length (settlements h t) ≤ 1.
Proof.
  induction t as [|o t IH] using rev_ind; [simpl; lia|].
  intros Hh Hacc.
  pose proof (handles_ok_prefix _ _ _ Hh) as Hh'.
  pose proof (accepted_prefix _ _ Hacc) as Hacc'.
  specialize (IH Hh' Hacc').
  rewrite settlements_app, length_app.
  destruct o as [| | |k h' r|]; simpl; try lia.
  case_decide; [subst h'|simpl; lia].
  destruct (Hacc k) as [st Hst].
  apply (kreplay_split k t _ []) in Hst as (st1 & st2 & Hr1 & Hs); [|done].
  assert (ks_current st1 = Some h) as Hcur.
  { destruct st1 as [a [c|] p]; simpl in *; destruct a; try done.
    case_decide; by subst. }
  rewrite (current_unsettled _ _ _ _ _ Hh' Hacc' Hr1 Hcur). simpl. lia.
Qed.

Section SettleClaims.
Context {W : Type}.
Implicit Types (s : State W) (k : key) (l : loc) (evs : list (event W)).

Lemma inv_accepted s : Inv s → accepted (trace s).
Proof. intros (_ & _ & _ & Hrep) k. rewrite Hrep. eauto. Qed.

(** The turn in which a suspended worker resumes, written out. *)
Lemma wake_spec h s wk rest o :
  pick h (suspended s) = Some (wk, rest) →
  match wk_awaiting wk with
  | Resolved v => o = Fulfilled v
  | Failed e => o = Rejected e
  | Pending _ => False
  end →
  wake h s =
    Some (let s1 := emit (Settled (wk_tenantId wk) h o) (set_suspended rest s) in
          install (wk_tenantId wk) (wk_queue wk)
                  (drain_result (wk_tenantId wk) (wk_queue wk)
                                (array_at (wk_queue wk) s) (world s)) s1).
Proof.
  intros Hp Ho. unfold wake. rewrite Hp.
  destruct (wk_awaiting wk); try done; subst o;
    by rewrite drain_spec.
Qed.

(** No submitted entry is lost. *)
Lemma submitted_where s k h :
  Inv s → h ∈ submitted k (trace s) →
  h ∈ settled k (trace s) ∨ in_flight k s = Some h ∨
  h ∈ entry_handle <$> backlog k s.
Proof.
  intros (_ & _ & _ & Hrep).
  destruct (kreplay_lists _ _ _ (Hrep k)) as (-> & -> & _).
  simpl. rewrite !elem_of_app. intros [[?|Hc]|?]; [by left| |by right; right].
  right; left. destruct (in_flight k s); simpl in Hc; set_solver.
Qed.

(** While a key has a backlog, it has a worker. *)
Lemma backlog_has_worker s k :
  Inv s → backlog k s ≠ [] → k ∈ processing s ∧ workers_of k s ≠ [].
Proof.
  intros (_ & _ & Hrest & _) Hb. specialize (Hrest k).
  unfold key_rest, backlog in *. destruct (queues s !! k); [|done].
  destruct Hrest as (? & ? & ? & ->). done.
Qed.

(** The handle held by a suspended worker has not been settled. *)
Lemma suspended_unsettled s h wk rest :
  Inv s → pick h (suspended s) = Some (wk, rest) →
  settlements h (trace s) = [].
Proof.
  intros HI Hp. pose proof (inv_accepted _ HI) as Hacc.
  destruct HI as (Hreg & Hh & Hrest & Hrep).
  pose proof Hp as (Hwh & ws1 & ws2 & Hs & _)%pick_Some.
  pose proof (Hrest (wk_tenantId wk)) as Hr.
  destruct (suspended_worker s wk ws1 ws2 Hs Hr) as (Hq & _).
  unfold key_rest in Hr. rewrite Hq in Hr.
  destruct Hr as (_ & h0 & p0 & Hw).
  eapply (current_unsettled _ _ (wk_tenantId wk)); eauto.
  simpl. unfold in_flight. rewrite Hw.
  unfold workers_of in Hw. rewrite Hs in Hw.
  apply filter_singleton_split in Hw as [Hwk _]; [|done].
  simpl. f_equal. by rewrite <-Hwh, Hwk.
Qed.

(** The handle of a suspended worker identifies it. *)
Lemma pick_unique s h wk' rest wk :
  Inv s → pick h (suspended s) = Some (wk', rest) →
  wk ∈ suspended s → wk_handle wk = h → wk' = wk.
Proof.
  intros HI Hp Hin Hh. destruct HI as (Hreg & (_ & _ & Hown) & Hrest & Hrep).
  apply pick_Some in Hp as (Hh' & ws1 & ws2 & Hs & _).
  apply list_elem_of_split in Hin as (us1 & us2 & Hs2).
  assert (Hsub : ∀ (x : worker W) xs1 xs2, suspended s = xs1 ++ x :: xs2 →
            workers_of (wk_tenantId x) s = [x] ∧
            wk_handle x ∈ submitted (wk_tenantId x) (trace s)).
  { intros x xs1 xs2 Hx. pose proof (Hrest (wk_tenantId x)) as Hr.
    destruct (suspended_worker s x xs1 xs2 Hx Hr) as (Hq & _).
    unfold key_rest in Hr. rewrite Hq in Hr.
    destruct Hr as (_ & h0 & p0 & Hw). pose proof Hw as Hw'.
    unfold workers_of in Hw'. rewrite Hx in Hw'.
    apply filter_singleton_split in Hw' as [Hwk _]; [|done].
    rewrite <-Hwk in Hw. split; [done|].
    destruct (kreplay_lists _ _ _ (Hrep (wk_tenantId x))) as (-> & -> & _).
    simpl. unfold in_flight. rewrite Hw. simpl. set_solver. }
  destruct (Hsub _ _ _ Hs) as [Hw1 Hin1].
  destruct (Hsub _ _ _ Hs2) as [Hw2 Hin2].
  rewrite Hh' in Hin1. rewrite Hh in Hin2.
  assert (wk_tenantId wk' = wk_tenantId wk) as Hk by eauto.
  rewrite Hk in Hw1. rewrite Hw1 in Hw2. by injection Hw2.
Qed.

(** After the worker has resumed, the handle has the one settlement that
    mirrors the awaited promise. *)
Lemma wake_settlement s h wk rest o s' :
  Inv s → pick h (suspended s) = Some (wk, rest) →
  wake h s = Some s' →
  match wk_awaiting wk with
  | Resolved v => o = Fulfilled v
  | Failed e => o = Rejected e
  | Pending _ => False
  end →
  settlements h (trace s') = [o].
Proof.
  intros HI Hp Hw Ho.
  pose proof (suspended_unsettled _ _ _ _ HI Hp) as Hcur.
  assert (Inv s') as HI' by (by eapply wake_inv).
  pose proof (settlements_at_most_once _ _ h (proj1 (proj2 HI'))
                (inv_accepted _ HI')) as Hle.
  rewrite (wake_spec h s wk rest o Hp Ho) in Hw. injection Hw as <-.
  simpl in *. rewrite !settlements_app, Hcur in *. simpl in *.
  rewrite decide_True in * by done. simpl in *.
  destruct (settlements h (d_events _)); simpl in *; [done|lia].
Qed.

(** *** Whose operation runs under a handle *)

Lemma enqueued_app evs1 evs2 :
  enqueued (evs1 ++ evs2) = enqueued evs1 ++ enqueued evs2.
Proof. apply omap_app. Qed.

Lemma enqueued_worker_turns evs : Forall worker_turn evs → enqueued evs = [].
Proof.
  induction 1 as [|ev evs Hev _ IH]; [done|].
  destruct ev; [done|exact IH..].
Qed.

Lemma enqueued_under_snoc k n (calls : list (key * operation W)) k' op :
  enqueued_under k n (calls ++ [(k', op)]) =
  enqueued_under k n calls ++
    (if decide (k' = k) then [(n + length calls, op)] else []).
Proof.
  revert n. induction calls as [|[k0 op0] calls IH]; intros n; simpl.
  - by rewrite Nat.add_0_r, app_nil_r.
  - rewrite IH, <-app_assoc. do 2 f_equal.
    case_decide; [|done]. do 2 f_equal. lia.
Qed.

Lemma enqueued_under_elem k n (calls : list (key * operation W)) h op :
  (h, op) ∈ enqueued_under k n calls ↔
  n ≤ h ∧ calls !! (h - n) = Some (k, op).
Proof.
  revert n. induction calls as [|[k0 op0] calls IH]; intros n; simpl.
  - split; [by intros ?%elem_of_nil|by intros [_ ?]].
  - rewrite elem_of_app, IH. split.
    + intros [Hin|[Hle Hl]].
      * case_decide; [|by apply elem_of_nil in Hin].
        apply list_elem_of_singleton in Hin as [= -> ->]. subst k0.
        split; [done|]. by rewrite Nat.sub_diag.
      * split; [lia|]. replace (h - n) with (S (h - S n)) by lia. done.
    + intros [Hle Hl]. destruct (decide (h = n)) as [->|Hne].
      * left. rewrite Nat.sub_diag in Hl. injection Hl as -> ->.
        rewrite decide_True by done. by left.
      * right. split; [lia|].
        replace (h - n) with (S (h - S n)) in Hl by lia. done.
Qed.

Lemma called_as_mono (calls more : list (key * operation W)) h op :
  called_as calls h op → called_as (calls ++ more) h op.
Proof. intros [k Hk]. exists k. by apply lookup_app_l_Some. Qed.

Lemma provenance_mono_rest (calls more : list (key * operation W)) s :
  provenance calls s →
  (∀ l e, e ∈ array_at l s →
     called_as (calls ++ more) (entry_handle e) (entry_operation e)) ∧
  (∀ wk, wk ∈ suspended s →
     ∃ op, called_as (calls ++ more) (wk_handle wk) op ∧
           remains_of op (wk_awaiting wk)) ∧
  (∀ k h o, Settled k h o ∈ trace s →
     ∃ op, called_as (calls ++ more) h op ∧ own_outcome op o).
Proof.
  intros (_ & _ & H2 & H3 & H4). split_and!.
  - intros l e Hin. by apply called_as_mono, (H2 l).
  - intros wk Hin. destruct (H3 wk Hin) as (op & ? & ?).
    exists op. split; [by apply called_as_mono|done].
  - intros k h o Hin. destruct (H4 k h o Hin) as (op & ? & ?).
    exists op. split; [by apply called_as_mono|done].
Qed.

Lemma provenance_init (w : W) : provenance [] (init w).
Proof.
  split_and!; try done.
  - intros l e Hin. unfold array_at in Hin. simpl in Hin.
    rewrite lookup_empty in Hin. by apply elem_of_nil in Hin.
  - intros wk Hin. by apply elem_of_nil in Hin.
  - intros k h o Hin. by apply elem_of_nil in Hin.
Qed.

(** The loop run on the array [l] of a state keeps the provenance. *)
Lemma provenance_install calls k l s :
  provenance calls s →
  provenance calls
    (install k l (drain_result k l (array_at l s) (world s)) s).
Proof.
  intros (H1 & H0 & H2 & H3 & H4).
  destruct (drain_result_provenance calls k l (array_at l s) (world s))
    as (D0 & D4 & D3 & D2); [by apply H2|].
  set (d := drain_result k l (array_at l s) (world s)) in *.
  split_and!.
  - done.
  - intros k'. simpl. by rewrite submitted_app, D0, app_nil_r.
  - intros l' e. unfold array_at, install. simpl.
    destruct (d_array d) as [a|] eqn:Ha; [|apply H2].
    destruct (decide (l' = l)) as [->|Hne].
    + rewrite lookup_insert_eq. simpl. intros Hin.
      apply (H2 l). by eapply D2.
    + rewrite lookup_insert_ne by done. apply H2.
  - intros wk. simpl. rewrite elem_of_app. intros [Hin|Hin]; [by apply H3|].
    destruct (d_parked d) as [wk'|] eqn:Hp; simpl in Hin;
      [|by apply elem_of_nil in Hin].
    apply list_elem_of_singleton in Hin as ->. by apply D3.
  - intros k' h o. simpl. rewrite elem_of_app.
    intros [Hin|Hin]; [by eapply H4|by eapply D4].
Qed.

Lemma provenance_enqueue calls k op s :
  Inv s → provenance calls s →
  provenance (calls ++ [(k, op)]) (fst (enqueue k op s)).
Proof.
  intros HI HP.
  destruct (provenance_mono_rest calls [(k, op)] s HP) as (M2 & M3 & M4).
  destruct HP as (H1 & H0 & H2 & H3 & H4).
  pose proof HI as (_ & _ & Hrest & _). specialize (Hrest k).
  unfold key_rest in Hrest.
  assert (Hnew : called_as (calls ++ [(k, op)]) (next_handle s) op).
  { exists k. rewrite H1. by rewrite lookup_app_r, Nat.sub_diag. }
  assert (Hsub : ∀ k' t, submitted k' t = (enqueued_under k' 0 calls).*1 →
            submitted k' (t ++ [Submitted k (next_handle s)]) =
            (enqueued_under k' 0 (calls ++ [(k, op)])).*1).
  { intros k' t Ht. rewrite submitted_snoc, enqueued_under_snoc, fmap_app, Ht.
    f_equal. case_decide; [|done]. simpl. by rewrite H1. }
  destruct (queues s !! k) as [l|] eqn:Hq.
  - destruct Hrest as [Hp _]. rewrite (enqueue_busy k op s l Hq Hp).
    split_and!; simpl.
    + rewrite length_app. simpl. lia.
    + intros k'. by apply Hsub.
    + intros l' e. unfold array_at. simpl.
      destruct (decide (l' = l)) as [->|Hne].
      * rewrite lookup_insert_eq. simpl.
        intros [Hin| ->%list_elem_of_singleton]%elem_of_app;
          [by apply (M2 l)|done].
      * rewrite lookup_insert_ne by done. apply M2.
    + done.
    + intros k' h o. rewrite elem_of_app, list_elem_of_singleton.
      intros [Hin|?]; [by eapply M4|done].
  - destruct Hrest as [Hp _]. rewrite (enqueue_fresh k op s Hq Hp).
    set (s0 := mkState (<[k:=next_loc s]> (queues s)) _ _ _ _ _ _ _).
    assert (Ha : array_at (next_loc s) s0 = [Entry op (next_handle s)]).
    { unfold array_at. simpl. by rewrite lookup_insert_eq. }
    rewrite <-Ha. change (world s) with (world s0).
    apply provenance_install. split_and!; simpl.
    + rewrite length_app. simpl. lia.
    + intros k'.
      replace (trace s ++ [Submitted k (next_handle s); WorkerStart k])
        with ((trace s ++ [Submitted k (next_handle s)]) ++ [WorkerStart k])
        by (by rewrite <-app_assoc).
      rewrite (submitted_snoc_other k' _ (WorkerStart k)) by done.
      by apply Hsub.
    + intros l' e. unfold array_at. simpl.
      destruct (decide (l' = next_loc s)) as [->|Hne].
      * rewrite lookup_insert_eq. simpl.
        by intros ->%list_elem_of_singleton.
      * rewrite lookup_insert_ne by done. apply M2.
    + done.
    + intros k' h o. rewrite elem_of_app.
      intros [Hin|Hin]; [by eapply M4|].
      apply elem_of_cons in Hin as [?|Hin]; [done|].
      by apply list_elem_of_singleton in Hin.
Qed.

Lemma provenance_progress calls h o s s' :
  provenance calls s → progress h o s = Some s' → provenance calls s'.
Proof.
  intros (H1 & H0 & H2 & H3 & H4). unfold progress.
  destruct (pick h (suspended s)) as [[wk rest]|] eqn:Hp; [|done].
  destruct (wk_awaiting wk) as [| |resume] eqn:Haw; try done.
  intros [= <-].
  apply pick_Some in Hp as (Hh & ws1 & ws2 & Hs & ->).
  split_and!; try done. simpl.
  intros wk'. rewrite elem_of_app, list_elem_of_singleton.
  intros [Hin| ->].
  - apply H3. rewrite Hs. set_solver.
  - destruct (H3 wk) as (op & Hc & Hr); [rewrite Hs; set_solver|].
    exists op. simpl. rewrite <-Hh. split; [done|].
    apply remains_resumed. by rewrite <-Haw.
Qed.

Lemma provenance_wake calls h s s' :
  provenance calls s → wake h s = Some s' → provenance calls s'.
Proof.
  intros HP Hw.
  destruct (pick h (suspended s)) as [[wk rest]|] eqn:Hp;
    [|unfold wake in Hw; by rewrite Hp in Hw].
  assert (∃ o, settles_as (wk_awaiting wk) o) as [o Ho].
  { unfold wake in Hw. rewrite Hp in Hw.
    destruct (wk_awaiting wk); simpl; eauto. done. }
  rewrite (wake_spec h s wk rest o Hp Ho) in Hw. injection Hw as <-.
  pose proof Hp as (Hh & ws1 & ws2 & Hs & ->)%pick_Some.
  destruct HP as (H1 & H0 & H2 & H3 & H4).
  set (s1 := emit (Settled (wk_tenantId wk) h o)
                  (set_suspended (ws1 ++ ws2) s)).
  change (array_at (wk_queue wk) s) with (array_at (wk_queue wk) s1).
  change (world s) with (world s1).
  apply provenance_install. split_and!; simpl.
  - done.
  - intros k'. by rewrite submitted_snoc_other.
  - done.
  - intros wk' Hin. apply H3. rewrite Hs. set_solver.
  - intros k' h' o'. rewrite elem_of_app, list_elem_of_singleton.
    intros [Hin|[= -> -> ->]]; [by eapply H4|].
    destruct (H3 wk) as (op & Hc & Hr); [rewrite Hs; set_solver|].
    exists op. rewrite <-Hh. split; [done|].
    unfold settles_as in Ho. destruct (wk_awaiting wk); try done; subst o.
    + done.
    + by left.
Qed.

Lemma provenance_step calls s ev s' :
  Inv s → provenance calls s → step s ev = Some s' →
  provenance (calls ++ enqueued [ev]) s'.
Proof.
  intros HI HP. destruct ev as [k op|h o|h]; simpl.
  - intros [= <-]. by apply provenance_enqueue.
  - rewrite app_nil_r. by apply provenance_progress.
  - rewrite app_nil_r. by apply provenance_wake.
Qed.

Lemma provenance_run calls evs s s' :
  Inv s → provenance calls s → run s evs = Some s' →
  provenance (calls ++ enqueued evs) s'.
Proof.
  revert calls s. induction evs as [|ev evs IH]; intros calls s HI HP Hrun;
    simpl in Hrun.
  - injection Hrun as <-. unfold enqueued. simpl. by rewrite app_nil_r.
  - destruct (step s ev) as [s1|] eqn:Hst; [|done].
    change (enqueued (ev :: evs)) with (enqueued ([ev] ++ evs)).
    rewrite enqueued_app, app_assoc.
    apply (IH _ s1); [by eapply step_inv| |done].
    by eapply provenance_step.
Qed.

Lemma provenance_reachable (w : W) evs s :
  run (init w) evs = Some s → provenance (enqueued evs) s.
Proof.
  intros Hrun.
  apply (provenance_run [] evs (init w) s);
    [apply init_inv|apply provenance_init|done].
Qed.

(** The handle of a suspended activation was submitted under its key. *)
Lemma worker_submitted s (wk : worker W) :
  Inv s → wk ∈ suspended s →
  wk_handle wk ∈ submitted (wk_tenantId wk) (trace s) ∧
  workers_of (wk_tenantId wk) s = [wk].
Proof.
  intros (Hreg & _ & Hrest & Hrep) Hin.
  apply list_elem_of_split in Hin as (ws1 & ws2 & Hs).
  pose proof (Hrest (wk_tenantId wk)) as Hr.
  destruct (suspended_worker s wk ws1 ws2 Hs Hr) as (Hq & _).
  unfold key_rest in Hr. rewrite Hq in Hr.
  destruct Hr as (_ & h0 & p0 & Hw). pose proof Hw as Hw'.
  unfold workers_of in Hw'. rewrite Hs in Hw'.
  apply filter_singleton_split in Hw' as [Hwk _]; [|done].
  rewrite <-Hwk in Hw. split; [|done].
  destruct (kreplay_lists _ _ _ (Hrep (wk_tenantId wk))) as (-> & -> & _).
  simpl. unfold in_flight. rewrite Hw. simpl. set_solver.
Qed.

Lemma settled_elem k h (o : outcome) t :
  Settled k h o ∈ t → h ∈ settled k t.
Proof.
  induction t as [|x t IH]; [by intros ?%elem_of_nil|].
  intros [<-|Hin]%elem_of_cons; unfold settled; simpl.
  - rewrite decide_True by done. by left.
  - destruct x; simpl; try by apply IH.
    case_decide; [right|]; by apply IH.
Qed.

Lemma settlements_elem h (o : outcome) t :
  o ∈ settlements h t → ∃ k, Settled k h o ∈ t.
Proof.
  induction t as [|x t IH]; [by intros ?%elem_of_nil|].
  unfold settlements. simpl.
  destruct x as [| | |k h' r|]; simpl;
    try (intros Hin; destruct (IH Hin) as [k' ?]; exists k'; by right).
  case_decide; [subst h'|].
  - intros [->|Hin]%elem_of_cons; [exists k; by left|].
    destruct (IH Hin) as [k' ?]. exists k'. by right.
  - intros Hin. destruct (IH Hin) as [k' ?]. exists k'. by right.
Qed.

(** A handle submitted under [k] was created by a call made under [k]. *)
Lemma provenance_key calls s k h k' (op : operation W) :
  provenance calls s → h ∈ submitted k (trace s) →
  calls !! h = Some (k', op) → k' = k.
Proof.
  intros (_ & H0 & _) Hin Hc. rewrite H0 in Hin.
  apply list_elem_of_fmap in Hin as ([h' op'] & -> & Hin).
  apply enqueued_under_elem in Hin as [_ Hl]. simpl in *.
  rewrite Nat.sub_0_r in Hl.
  assert (Some (k', op) = Some (k, op')) as Heq by (by rewrite <-Hc, <-Hl).
  by injection Heq.
Qed.

(** The provenance with the keys: what is held under a key comes from the
    calls made under that key. *)
Lemma provenance_keys calls s :
  Inv s → provenance calls s →
  (∀ k e, e ∈ backlog k s →
     calls !! entry_handle e = Some (k, entry_operation e)) ∧
  (∀ wk, wk ∈ suspended s →
     ∃ op, calls !! wk_handle wk = Some (wk_tenantId wk, op) ∧
           remains_of op (wk_awaiting wk)) ∧
  (∀ k h o, Settled k h o ∈ trace s →
     ∃ op, calls !! h = Some (k, op) ∧ own_outcome op o).
Proof.
  intros HI HP. pose proof HP as (H1 & H0 & H2 & H3 & H4).
  pose proof HI as (_ & _ & _ & Hrep).
  split_and!.
  - intros k e Hin.
    assert (Hb : ∃ l, e ∈ array_at l s).
    { unfold backlog in Hin. destruct (queues s !! k) as [l|]; [eauto|].
      by apply elem_of_nil in Hin. }
    destruct Hb as [l Hl]. destruct (H2 l e Hl) as [k' Hc].
    rewrite Hc. do 2 f_equal.
    eapply (provenance_key calls s k); [done| |done].
    destruct (kreplay_lists _ _ _ (Hrep k)) as (-> & _). simpl.
    apply elem_of_app. right. by apply list_elem_of_fmap_2.
  - intros wk Hin. destruct (H3 wk Hin) as (op & [k' Hc] & Hr).
    exists op. split; [|done]. rewrite Hc. do 2 f_equal.
    eapply (provenance_key calls s); [done| |done].
    by apply worker_submitted.
  - intros k h o Hin. destruct (H4 k h o Hin) as (op & [k' Hc] & Ho).
    exists op. split; [|done]. rewrite Hc. do 2 f_equal.
    eapply (provenance_key calls s k); [done| |done].
    apply settled_elem in Hin.
    destruct (kreplay_lists _ _ _ (Hrep k)) as (-> & -> & _).
    set_solver.
Qed.

(** The backlog of a key is what was enqueued under it and not started. *)
Lemma backlog_enqueued calls s k :
  Inv s → provenance calls s →
  entry_pair <$> backlog k s =
    drop (length (started k (trace s))) (enqueued_under k 0 calls).
Proof.
  intros HI HP. pose proof HP as (_ & H0 & _).
  destruct (provenance_keys calls s HI HP) as (Hb & _).
  pose proof HI as (_ & _ & _ & Hrep).
  destruct (kreplay_lists _ _ _ (Hrep k)) as (Hsub & _). simpl in Hsub.
  assert (Hfst : (entry_pair <$> backlog k s).*1 =
            (drop (length (started k (trace s)))
                  (enqueued_under k 0 calls)).*1).
  { rewrite fmap_drop, <-H0, Hsub, drop_app_length, <-list_fmap_compose.
    done. }
  apply list_eq. intros i.
  pose proof (f_equal (λ x, x !! i) Hfst) as Hi. simpl in Hi.
  rewrite !list_lookup_fmap in Hi.
  destruct (backlog k s !! i) as [e|] eqn:He;
    destruct (drop _ (enqueued_under k 0 calls) !! i) as [[h op]|] eqn:Hd;
    rewrite list_lookup_fmap, He; simpl in *; try done.
  injection Hi as Hh. f_equal. unfold entry_pair. f_equal; [done|].
  apply list_elem_of_lookup_2 in He.
  pose proof (Hb k e He) as Hc.
  rewrite lookup_drop in Hd. apply list_elem_of_lookup_2 in Hd.
  apply enqueued_under_elem in Hd as [_ Hl].
  rewrite Nat.sub_0_r, <-Hh in Hl.
  assert (Some (k, entry_operation e) = Some (k, op)) as Heq
    by (by rewrite <-Hc, <-Hl).
  by injection Heq.
Qed.

Lemma settlements_elem_2 k h (o : outcome) t :
  Settled k h o ∈ t → o ∈ settlements h t.
Proof.
  induction t as [|x t IH]; [by intros ?%elem_of_nil|].
  intros [<-|Hin]%elem_of_cons; unfold settlements; simpl.
  - rewrite decide_True by done. by left.
  - destruct x; simpl; try by apply IH.
    case_decide; [right|]; by apply IH.
Qed.

(** A settlement in the trace is the one settlement of its handle. *)
Lemma settled_once s k h o :
  Inv s → Settled k h o ∈ trace s → settlements h (trace s) = [o].
Proof.
  intros HI Hin. apply settlements_elem_2 in Hin.
  pose proof (settlements_at_most_once _ _ h (proj1 (proj2 HI))
                (inv_accepted _ HI)) as Hle.
  destruct (settlements h (trace s)) as [|x [|y r]]; simpl in Hle.
  - by apply elem_of_nil in Hin.
  - by apply list_elem_of_singleton in Hin as ->.
  - lia.
Qed.

(** A handle is settled with an outcome of the operation it was created
    for. *)
Lemma settlement_own calls s h k (op : operation W) o :
  provenance calls s → calls !! h = Some (k, op) →
  o ∈ settlements h (trace s) → own_outcome op o.
Proof.
  intros (_ & _ & _ & _ & H4) Hc [k' Hin]%settlements_elem.
  destruct (H4 k' h o Hin) as (op' & [k'' Hc'] & Ho).
  assert (Some (k, op) = Some (k'', op')) as Heq by (by rewrite <-Hc, <-Hc').
  by injection Heq as -> ->.
Qed.

(** A call made under [k] has its handle among those submitted under [k]. *)
Lemma enqueued_submitted calls s h k (op : operation W) :
  provenance calls s → calls !! h = Some (k, op) →
  h ∈ submitted k (trace s).
Proof.
  intros (_ & H0 & _) Hc. rewrite H0.
  apply list_elem_of_fmap. exists (h, op). split; [done|].
  apply enqueued_under_elem. split; [lia|]. by rewrite Nat.sub_0_r.
Qed.

(** The turn in which a worker resumes on a backlog: it takes the first
    entry and calls the operation of that entry on the world as it is. *)
Lemma wake_head s h wk rest o e q :
  Inv s → pick h (suspended s) = Some (wk, rest) →
  settles_as (wk_awaiting wk) o →
  backlog (wk_tenantId wk) s = e :: q →
  ∃ s', wake h s = Some s' ∧
    match snd (entry_operation e (world s)) with
    | Returned p =>
        trace s' = trace s ++ [Settled (wk_tenantId wk) h o;
                               Started (wk_tenantId wk) (entry_handle e)] ∧
        world s' = fst (entry_operation e (world s)) ∧
        workers_of (wk_tenantId wk) s' =
          [Worker (wk_tenantId wk) (wk_queue wk) (entry_handle e) p] ∧
        backlog (wk_tenantId wk) s' = q
    | Threw err =>
        trace s' = trace s ++
          Settled (wk_tenantId wk) h o ::
          Started (wk_tenantId wk) (entry_handle e) ::
          Settled (wk_tenantId wk) (entry_handle e) (Rejected err) ::
          d_events (drain_result (wk_tenantId wk) (wk_queue wk) q
                                 (fst (entry_operation e (world s)))) ∧
        world s' =
          d_world (drain_result (wk_tenantId wk) (wk_queue wk) q
                                (fst (entry_operation e (world s)))) ∧
        settlements (entry_handle e) (trace s') = [Rejected err]
    end.
Proof.
  intros HI Hp Ho Hb.
  pose proof HI as (Hreg & Hh & Hrest & Hrep).
  pose proof Hp as (Hwh & ws1 & ws2 & Hs & Hrest')%pick_Some.
  destruct (suspended_worker s wk ws1 ws2 Hs (Hrest _)) as (Hq & Hpr & Hf).
  set (k := wk_tenantId wk) in *. set (l := wk_queue wk) in *.
  assert (Hb' : array_at l s = e :: q).
  { unfold backlog in Hb. by rewrite Hq in Hb. }
  pose proof (wake_spec h s wk rest o Hp Ho) as Hw. fold k l in Hw.
  rewrite Hb' in Hw.
  eexists. split; [exact Hw|].
  pose proof (wake_inv _ _ _ HI Hw) as HI'.
  rewrite drain_result_step in HI' |- *.
  destruct (entry_operation e (world s)) as [w' [err|p]] eqn:Hop;
    simpl in HI' |- *.
  - assert (Htr : ∀ d : list obs,
              (trace s ++ [Settled k h o]) ++
                Started k (entry_handle e) ::
                Settled k (entry_handle e) (Rejected err) :: d =
              trace s ++ Settled k h o :: Started k (entry_handle e) ::
                Settled k (entry_handle e) (Rejected err) :: d).
    { intros d. by rewrite <-app_assoc. }
    split_and!; [apply Htr|done|].
    pose proof (settled_once _ k (entry_handle e) (Rejected err) HI') as Hso.
    simpl in Hso. apply Hso. rewrite Htr.
    apply elem_of_app. right. do 2 right. by left.
  - split_and!.
    + by rewrite <-app_assoc.
    + done.
    + unfold workers_of. simpl. rewrite filter_app, Hrest'. fold k.
      rewrite Hf. simpl. by rewrite filter_cons_True, filter_nil.
    + unfold backlog, array_at. simpl. rewrite Hq. simpl.
      by rewrite lookup_insert_eq.
Qed.

(** A call of [enqueue] for a key that is not registered calls the
    operation within the turn, on the world as it is. *)
Lemma enqueue_idle_calls s k op :
  Inv s → queues s !! k = None →
  match snd (op (world s)) with
  | Returned p =>
      trace (fst (enqueue k op s)) =
        trace s ++ [Submitted k (next_handle s); WorkerStart k;
                    Started k (next_handle s)] ∧
      world (fst (enqueue k op s)) = fst (op (world s)) ∧
      workers_of k (fst (enqueue k op s)) =
        [Worker k (next_loc s) (next_handle s) p] ∧
      backlog k (fst (enqueue k op s)) = []
  | Threw err =>
      trace (fst (enqueue k op s)) =
        trace s ++ [Submitted k (next_handle s); WorkerStart k;
                    Started k (next_handle s);
                    Settled k (next_handle s) (Rejected err); WorkerExit k] ∧
      world (fst (enqueue k op s)) = fst (op (world s)) ∧
      workers_of k (fst (enqueue k op s)) = []
  end.
Proof.
  intros HI Hq. pose proof HI as (_ & _ & Hrest & _).
  specialize (Hrest k). unfold key_rest in Hrest. rewrite Hq in Hrest.
  destruct Hrest as [Hnp Hw].
  rewrite (enqueue_fresh k op s Hq Hnp), drain_result_step. simpl.
  destruct (op (world s)) as [w' [err|p]] eqn:Hop; simpl.
  - split_and!.
    + by rewrite <-app_assoc.
    + done.
    + unfold workers_of in *. simpl. by rewrite app_nil_r.
  - split_and!.
    + by rewrite <-app_assoc.
    + done.
    + unfold workers_of in *. simpl. rewrite filter_app, Hw. simpl.
      by rewrite filter_cons_True, filter_nil.
    + unfold backlog, array_at. simpl. rewrite lookup_insert_eq. simpl.
      by rewrite lookup_insert_eq.
Qed.

(** The turn of an operation in flight: the promise awaited runs its own
    next segment on the world as it is. *)
Lemma progress_exact s h wk rest resume o :
  pick h (suspended s) = Some (wk, rest) →
  wk_awaiting wk = Pending resume →
  ∃ s', progress h o s = Some s' ∧
    world s' = fst (resume o (world s)) ∧
    suspended s' =
      rest ++ [Worker (wk_tenantId wk) (wk_queue wk) h
                      (snd (resume o (world s)))] ∧
    trace s' = trace s ∧ queues s' = queues s ∧ arrays s' = arrays s.
Proof.
  intros Hp Haw. unfold progress. rewrite Hp, Haw. eexists. by split.
Qed.

(** *** The queue does not get stuck

    A promise is what remains of an asynchronous function, so it settles
    after finitely many inner [await]s, whatever they deliver. *)
Lemma promise_induction (P : promise W → Prop) :
  (∀ v, P (Resolved v)) → (∀ e, P (Failed e)) →
  (∀ resume, (∀ o w, P (snd (resume o w))) → P (Pending resume)) →
  ∀ p, P p.
Proof.
  intros HR HF HP. fix IH 1. intros [v|e|resume].
  - apply HR.
  - apply HF.
  - apply HP. intros o w. apply IH.
Qed.

Lemma run_app evs1 evs2 s s1 :
  run s evs1 = Some s1 → run s (evs1 ++ evs2) = run s1 evs2.
Proof.
  revert s. induction evs1 as [|ev evs1 IH]; intros s; simpl.
  - by intros [= ->].
  - destruct (step s ev); [apply IH|done].
Qed.

Lemma sum_list_with_agree {A} (f g : A → nat) (xs : list A) :
  Forall (λ x, f x = g x) xs → sum_list_with f xs = sum_list_with g xs.
Proof. induction 1 as [|x xs Hx _ IH]; simpl; [done|]. by rewrite Hx, IH. Qed.

(** The loop parks only after it has shifted an entry. *)
Lemma drain_result_shrinks k l q (w : W) wk :
  d_parked (drain_result k l q w) = Some wk →
  ∃ a, d_array (drain_result k l q w) = Some a ∧ length a < length q.
Proof.
  revert w. induction q as [|e q IH]; intros w; unfold drain_result;
    fold (@drain_result W); simpl; [done|].
  destruct (entry_operation e w) as [w' [err|p]]; simpl.
  - intros Hp. destruct (IH _ Hp) as (a & -> & Hlen). simpl. eauto with lia.
  - intros _. eauto with lia.
Qed.

(** The operation in flight for [h] can be brought to its end, by turns that
    touch neither the arrays nor the trace. *)
Lemma settle_worker (p : promise W) :
  ∀ s h wk rest,
    Inv s → pick h (suspended s) = Some (wk, rest) → wk_awaiting wk = p →
    ∃ evs s' wk' rest',
      run s evs = Some s' ∧ Forall worker_turn evs ∧ Inv s' ∧
      pick h (suspended s') = Some (wk', rest') ∧
      match wk_awaiting wk' with Pending _ => False | _ => True end ∧
      trace s' = trace s ∧ pending_work s' = pending_work s.
Proof.
  induction p as [v|e|resume IH] using promise_induction;
    intros s h wk rest HI Hp Haw.
  - exists [], s, wk, rest. rewrite Haw. by split_and!.
  - exists [], s, wk, rest. rewrite Haw. by split_and!.
  - set (o := Fulfilled VUndefined).
    set (wk1 := Worker (wk_tenantId wk) (wk_queue wk) h
                       (snd (resume o (world s)))).
    set (s1 := set_suspended (rest ++ [wk1])
                 (set_world (fst (resume o (world s))) s)).
    assert (Hpr : progress h o s = Some s1).
    { unfold progress. by rewrite Hp, Haw. }
    assert (HI1 : Inv s1) by (by eapply progress_inv).
    assert (Hin : wk1 ∈ suspended s1).
    { simpl. apply elem_of_app. right. by apply list_elem_of_singleton. }
    destruct (pick_elem h (suspended s1) wk1 Hin eq_refl) as [[wk0 rest0] Hp1].
    pose proof (pick_unique _ _ _ _ _ HI1 Hp1 Hin eq_refl) as ->.
    destruct (IH o (world s) s1 h wk1 rest0 HI1 Hp1 eq_refl)
      as (evs & s' & wk' & rest' & Hrun & Hev & HI' & Hp' & Hst & Htr & Hw).
    exists (Progress h o :: evs), s', wk', rest'. split_and!; try done.
    + simpl. by rewrite Hpr.
    + by constructor.
    + rewrite Hw. apply pick_Some in Hp as (_ & ws1 & ws2 & Hs & ->).
      unfold pending_work. rewrite Hs. subst s1. simpl.
      rewrite !sum_list_with_app. simpl. unfold array_at. simpl. lia.
Qed.

(** The suspended activations hold different arrays. *)
Lemma other_arrays s (wk : worker W) ws1 ws2 :
  Inv s → suspended s = ws1 ++ wk :: ws2 →
  Forall (λ w0, wk_queue w0 ≠ wk_queue wk) (ws1 ++ ws2).
Proof.
  intros (Hreg & Hh & Hrest & Hrep) Hs.
  destruct (suspended_worker s wk ws1 ws2 Hs (Hrest _)) as (Hq & Hpr & Hf).
  apply Forall_forall. intros w0 Hin0 Heq.
  assert (w0 ∈ suspended s) as Hin.
  { rewrite Hs. set_solver. }
  apply list_elem_of_split in Hin as (us1 & us2 & Hus).
  destruct (suspended_worker s w0 us1 us2 Hus (Hrest _)) as (Hq0 & _).
  rewrite Heq in Hq0.
  assert (wk_tenantId w0 = wk_tenantId wk) as Hk by (by eapply (proj1 Hreg)).
  assert (w0 ∈ filter (λ w, wk_tenantId w = wk_tenantId wk) (ws1 ++ ws2))
    as Hflt.
  { by apply list_elem_of_filter. }
  rewrite Hf in Hflt. by apply elem_of_nil in Hflt.
Qed.

(** Resuming a worker whose operation has settled leaves less to do. *)
Lemma wake_decreases s h wk rest :
  Inv s → pick h (suspended s) = Some (wk, rest) →
  match wk_awaiting wk with Pending _ => False | _ => True end →
  ∃ s' d, wake h s = Some s' ∧ trace s' = trace s ++ d ∧
          pending_work s' < pending_work s.
Proof.
  intros HI Hp Hst. pose proof HI as (Hreg & Hh & Hrest & Hrep).
  pose proof Hp as (Hwh & ws1 & ws2 & Hs & Hrest')%pick_Some.
  destruct (suspended_worker s wk ws1 ws2 Hs (Hrest _)) as (Hq & Hpr & Hf).
  set (k := wk_tenantId wk) in *. set (l := wk_queue wk) in *.
  assert (∃ o, match wk_awaiting wk with
               | Resolved v => o = Fulfilled v
               | Failed e => o = Rejected e
               | Pending _ => False
               end) as [o Ho].
  { destruct (wk_awaiting wk); [by eexists..|done]. }
  pose proof (wake_spec h s wk rest o Hp Ho) as Hw. fold k l in Hw.
  set (dr := drain_result k l (array_at l s) (world s)) in *.
  eexists _, (Settled k h o :: d_events dr). split; [exact Hw|].
  split; [simpl; by rewrite <-app_assoc|].
  assert (Hother : Forall (λ w0, wk_queue w0 ≠ l) rest).
  { rewrite Hrest'. by eapply other_arrays. }
  set (f := λ w0 : worker W, S (length (array_at (wk_queue w0) s))).
  assert (Hold : pending_work s =
                 sum_list_with f rest + S (length (array_at l s))).
  { unfold pending_work. fold f. rewrite Hs, Hrest', !sum_list_with_app.
    simpl. subst f l. simpl. lia. }
  rewrite Hold. unfold pending_work. simpl. rewrite sum_list_with_app.
  match goal with |- sum_list_with ?g rest + _ < _ =>
    assert (sum_list_with g rest = sum_list_with f rest) as ->
  end.
  { apply sum_list_with_agree. eapply Forall_impl; [exact Hother|].
    intros w0 Hne. simpl. subst f. simpl. f_equal. f_equal.
    unfold array_at. simpl. destruct (d_array dr); [|done].
    by rewrite lookup_insert_ne. }
  destruct (d_parked dr) as [wk'|] eqn:Hpk; simpl; [|lia].
  pose proof (drain_result_parked _ _ _ _ _ Hpk) as [_ Hql].
  destruct (drain_result_shrinks _ _ _ _ _ Hpk) as (a & Ha & Hlen).
  fold dr in Ha. rewrite Hql. unfold array_at at 1. simpl.
  rewrite Ha, lookup_insert_eq. simpl. lia.
Qed.

(** From every state the workers can finish all the work submitted so far:
    some schedule without further submissions ends in a quiescent state. *)
Lemma can_quiesce n :
  ∀ s, Inv s → pending_work s ≤ n →
  ∃ evs s' d, run s evs = Some s' ∧ Forall worker_turn evs ∧
              quiescent s' ∧ trace s' = trace s ++ d.
Proof.
  induction n as [|n IH]; intros s HI Hn.
  - exists [], s, []. split_and!; try done.
    + unfold quiescent. unfold pending_work in Hn.
      destruct (suspended s); [done|simpl in Hn; lia].
    + by rewrite app_nil_r.
  - destruct (suspended s) as [|wk ws] eqn:Hs.
    { exists [], s, []. split_and!; try done. by rewrite app_nil_r. }
    assert (wk ∈ suspended s) as Hin by (rewrite Hs; by left).
    destruct (pick_elem (wk_handle wk) (suspended s) wk Hin eq_refl)
      as [[wk0 rest] Hp].
    destruct (settle_worker _ s _ wk0 rest HI Hp eq_refl)
      as (evs1 & s1 & wk1 & rest1 & Hrun1 & Hev1 & HI1 & Hp1 & Hst & Htr1 & Hw1).
    destruct (wake_decreases s1 _ wk1 rest1 HI1 Hp1 Hst)
      as (s2 & d2 & Hwake & Htr2 & Hlt).
    assert (HI2 : Inv s2) by (by eapply wake_inv).
    destruct (IH s2 HI2) as (evs3 & s3 & d3 & Hrun3 & Hev3 & Hq & Htr3);
      [lia|].
    exists (evs1 ++ Wake (wk_handle wk) :: evs3), s3, (d2 ++ d3).
    split_and!; [| |done|].
    + rewrite (run_app _ _ _ _ Hrun1). simpl. by rewrite Hwake.
    + apply Forall_app. split; [done|]. by constructor.
    + by rewrite Htr3, Htr2, Htr1, app_assoc.
Qed.

(** In a quiescent state every submitted handle has its settlement. *)
Lemma quiescent_settled s k h :
  Inv s → quiescent s → h ∈ submitted k (trace s) →
  length (settlements h (trace s)) = 1.
Proof.
  intros HI Hq Hin. pose proof HI as (Hreg & Hh & Hrest & Hrep).
  assert (h ∈ settled k (trace s)) as Hset.
  { pose proof (Hrest k) as Hr. unfold key_rest in Hr.
    assert (workers_of k s = []) as Hw.
    { unfold workers_of. by rewrite Hq. }
    destruct (submitted_where _ _ _ HI Hin) as [?|[Hf|Hb]]; [done| |].
    - unfold in_flight in Hf. by rewrite Hw in Hf.
    - unfold backlog in Hb. destruct (queues s !! k).
      + destruct Hr as (_ & ? & ? & Hr). by rewrite Hw in Hr.
      + by apply elem_of_nil in Hb. }
  apply settled_settlements in Hset.
  pose proof (settlements_at_most_once _ _ h Hh (inv_accepted _ HI)) as Hle.
  destruct (settlements h (trace s)); simpl in *; [done|lia].
Qed.

(** *** Every run of the workers ends *)

Lemma agenda_acc n : ∀ (p : promise W) q, length q < n → Acc agenda_step (p, q).
Proof.
  induction n as [|n IH]; [intros; lia|].
  intros p. induction p as [v|e|resume IHp] using promise_induction;
    intros q Hlen; constructor; intros t' Hst; inversion Hst; subst.
  - apply IH.
    match goal with H : d_parked _ = Some _ |- _ =>
      destruct (drain_result_shrinks _ _ _ _ _ H) as (a' & Ha' & Hlt) end.
    assert (a' = a) as -> by congruence. lia.
  - apply IH.
    match goal with H : d_parked _ = Some _ |- _ =>
      destruct (drain_result_shrinks _ _ _ _ _ H) as (a' & Ha' & Hlt) end.
    assert (a' = a) as -> by congruence. lia.
  - by apply IHp.
  - done.
Qed.

Lemma agendas_acc_perm (c d : list (@agenda W)) :
  c ≡ₚ d → Acc agendas_step c → Acc agendas_step d.
Proof.
  intros Hp [H]. constructor. intros d' Hs. apply H.
  inversion Hs as [? ? t c0 H1 H2|? ? t t' c0 H1 Ht H2]; subst.
  - eapply agendas_done; [by rewrite Hp|done].
  - eapply agendas_move; [by rewrite Hp|done|done].
Qed.

Lemma perm_cons_cases {A} (t u : A) (c d : list A) :
  t :: c ≡ₚ u :: d →
  (t = u ∧ c ≡ₚ d) ∨ (∃ e, c ≡ₚ u :: e ∧ d ≡ₚ t :: e).
Proof.
  intros Hp. assert (u ∈ t :: c) as Hin.
  { rewrite Hp. by left. }
  apply elem_of_cons in Hin as [->|Hin].
  - left. split; [done|]. by eapply Permutation.Permutation_cons_inv.
  - right. apply elem_of_Permutation in Hin as [e He]. exists e.
    split; [done|]. rewrite He in Hp.
    rewrite (Permutation_swap u t e) in Hp.
    symmetry. by eapply Permutation.Permutation_cons_inv.
Qed.

Lemma agendas_acc_cons (t : @agenda W) :
  Acc agenda_step t → ∀ c, Acc agendas_step c → Acc agendas_step (t :: c).
Proof.
  induction 1 as [t _ IHt]. induction 1 as [c Hc IHc].
  constructor. intros c' Hstep.
  inversion Hstep as [? ? u d0 Hp Hc'|? ? u u' d0 Hp Hu Hc']; subst.
  - apply perm_cons_cases in Hp as [[-> Hcd]|(e & Hce & Hde)].
    + apply (agendas_acc_perm c); [by rewrite Hc', Hcd|by constructor].
    + apply (agendas_acc_perm (t :: e)); [by rewrite Hc', Hde|].
      apply IHc. by eapply agendas_done.
  - apply perm_cons_cases in Hp as [[-> Hcd]|(e & Hce & Hde)].
    + apply (agendas_acc_perm (u' :: c)); [by rewrite Hc', Hcd|].
      apply IHt; [done|by constructor].
    + apply (agendas_acc_perm (t :: u' :: e)).
      { rewrite Hc', Hde. apply Permutation_swap. }
      apply IHc. by eapply agendas_move.
Qed.

Lemma agendas_acc (c : list (@agenda W)) : Acc agendas_step c.
Proof.
  induction c as [|[p q] c IH].
  - constructor. intros c' Hs.
    inversion Hs as [? ? t c0 H1 _|? ? t t' c0 H1 _ _]; subst;
      by apply Permutation_nil_cons in H1.
  - apply agendas_acc_cons; [|done]. apply (agenda_acc (S (length q))). lia.
Qed.

(** A turn of a worker is a move of the agendas. *)
Lemma worker_step_agendas s s' :
  Inv s → worker_step s' s → agendas_step (agendas s') (agendas s).
Proof.
  intros HI (ev & Hev & Hstep). destruct ev as [k op|h o|h]; [done| |];
    simpl in Hstep.
  - unfold progress in Hstep.
    destruct (pick h (suspended s)) as [[wk rest]|] eqn:Hp; [|done].
    destruct (wk_awaiting wk) as [| |resume] eqn:Haw; try done.
    injection Hstep as <-.
    apply pick_Some in Hp as (Hwh & ws1 & ws2 & Hs & ->).
    set (f := λ w : worker W, (wk_awaiting w, array_at (wk_queue w) s)).
    eapply (agendas_move _ _ (Pending resume, array_at (wk_queue wk) s) _
                       (f <$> (ws1 ++ ws2))).
    + unfold agendas. fold f. rewrite Hs, !fmap_app, fmap_cons.
      rewrite <-Permutation_middle.
      change (f wk) with (wk_awaiting wk, array_at (wk_queue wk) s).
      by rewrite Haw.
    + apply (agenda_progress resume _ o (world s)).
    + unfold agendas. simpl. rewrite fmap_app. simpl.
      by rewrite <-Permutation_cons_append.
  - destruct (pick h (suspended s)) as [[wk rest]|] eqn:Hp;
      [|by unfold wake in Hstep; rewrite Hp in Hstep].
    assert (Hst : match wk_awaiting wk with
                  | Pending _ => False | _ => True end).
    { unfold wake in Hstep. rewrite Hp in Hstep.
      by destruct (wk_awaiting wk). }
    assert (∃ o, match wk_awaiting wk with
                 | Resolved v => o = Fulfilled v
                 | Failed e => o = Rejected e
                 | Pending _ => False
                 end) as [o Ho].
    { destruct (wk_awaiting wk); [by eexists..|done]. }
    rewrite (wake_spec h s wk rest o Hp Ho) in Hstep. injection Hstep as <-.
    pose proof Hp as (Hwh & ws1 & ws2 & Hs & Hrest')%pick_Some.
    pose proof (other_arrays s wk ws1 ws2 HI Hs) as Hother.
    rewrite <-Hrest' in Hother.
    set (k := wk_tenantId wk) in *. set (l := wk_queue wk) in *.
    set (dr := drain_result k l (array_at l s) (world s)) in *.
    set (f := λ w : worker W, (wk_awaiting w, array_at (wk_queue w) s)).
    assert (Hold : agendas s ≡ₚ (wk_awaiting wk, array_at l s) :: (f <$> rest)).
    { unfold agendas. fold f. rewrite Hs, Hrest', !fmap_app, fmap_cons.
      by rewrite <-Permutation_middle. }
    assert (Hrest_same :
      (λ w : worker W, (wk_awaiting w, array_at (wk_queue w)
         (install k l dr (emit (Settled k h o) (set_suspended rest s)))))
        <$> rest = f <$> rest).
    { apply list_fmap_ext. intros i w0 Hi.
      apply (Forall_lookup_1 _ _ _ _ Hother) in Hi. unfold f. f_equal.
      unfold array_at. simpl. destruct (d_array dr); [|done].
      by rewrite lookup_insert_ne. }
    destruct (d_parked dr) as [wk'|] eqn:Hpk.
    + pose proof (drain_result_parked _ _ _ _ _ Hpk) as [_ Hql].
      destruct (drain_result_shrinks _ _ _ _ _ Hpk) as (a & Ha & Hlen).
      fold dr in Ha.
      eapply (agendas_move _ _ _ (wk_awaiting wk', a) (f <$> rest));
        [exact Hold| |].
      * by eapply (agenda_resume _ _ k l (world s) wk' a).
      * unfold agendas. simpl. rewrite Hpk. simpl. rewrite fmap_app.
        rewrite Hrest_same. simpl. rewrite Hql. unfold array_at at 1. simpl.
        rewrite Ha, lookup_insert_eq. simpl.
        by rewrite <-Permutation_cons_append.
    + eapply (agendas_done _ _ _ (f <$> rest)); [exact Hold|].
      unfold agendas. simpl. rewrite Hpk. simpl. rewrite app_nil_r.
      by rewrite Hrest_same.
Qed.

(** Every sequence of turns of the workers is finite. *)
Lemma workers_terminate s : Inv s → Acc worker_step s.
Proof.
  intros HI. pose proof (agendas_acc (agendas s)) as Hacc.
  remember (agendas s) as c eqn:Hc. revert s HI Hc.
  induction Hacc as [c _ IH]. intros s HI ->.
  constructor. intros s' Hst. eapply IH; [by apply worker_step_agendas| |done].
  destruct Hst as (ev & _ & Hstep). by eapply step_inv.
Qed.

(** While an activation is suspended, a turn is enabled. *)
Lemma worker_enabled s : ¬ quiescent s → ∃ s', worker_step s' s.
Proof.
  unfold quiescent. destruct (suspended s) as [|wk ws] eqn:Hs; [done|].
  intros _. assert (wk ∈ suspended s) as Hin by (rewrite Hs; by left).
  destruct (pick_elem (wk_handle wk) (suspended s) wk Hin eq_refl)
    as [[wk0 rest] Hp].
  destruct (wk_awaiting wk0) as [v|e|resume] eqn:Haw.
  - eexists. exists (Wake (wk_handle wk)). split; [done|]. simpl.
    unfold wake. by rewrite Hp, Haw.
  - eexists. exists (Wake (wk_handle wk)). split; [done|]. simpl.
    unfold wake. by rewrite Hp, Haw.
  - eexists. exists (Progress (wk_handle wk) (Fulfilled VUndefined)).
    split; [done|]. simpl. unfold progress. by rewrite Hp, Haw.
Qed.

(** The trace only grows. *)
Lemma step_trace s ev s' :
  step s ev = Some s' → ∃ d, trace s' = trace s ++ d.
Proof.
  destruct ev as [k op|h o|h]; simpl.
  - intros [= <-]. unfold enqueue.
    destruct (queues s !! k) as [l|] eqn:Hq; simpl.
    + rewrite Hq. case_decide; simpl; [by eexists|].
      unfold processQueue. simpl. rewrite Hq.
      rewrite drain_spec by done. simpl. rewrite <-!app_assoc. eauto.
    + rewrite lookup_insert_eq. case_decide; simpl; [by eexists|].
      unfold processQueue. simpl. rewrite lookup_insert_eq.
      rewrite drain_spec by done. simpl. rewrite <-!app_assoc. eauto.
  - unfold progress. destruct (pick h (suspended s)) as [[wk rest]|]; [|done].
    destruct (wk_awaiting wk); try done. intros [= <-]. exists [].
    simpl. by rewrite app_nil_r.
  - unfold wake. destruct (pick h (suspended s)) as [[wk rest]|]; [|done].
    destruct (wk_awaiting wk); try done; intros [= <-];
      rewrite drain_spec by done; simpl; rewrite <-app_assoc; eauto.
Qed.

Lemma run_trace evs s s' :
  run s evs = Some s' → ∃ d, trace s' = trace s ++ d.
Proof.
  revert s. induction evs as [|ev evs IH]; intros s; simpl.
  - intros [= <-]. exists []. by rewrite app_nil_r.
  - destruct (step s ev) as [s1|] eqn:Hstep; [|done]. intros Hrun.
    destruct (step_trace _ _ _ Hstep) as [d1 Hd1].
    destruct (IH _ Hrun) as [d2 Hd2]. exists (d1 ++ d2).
    by rewrite Hd2, Hd1, app_assoc.
Qed.

(** When no turn of a worker is left, every handle submitted before has its
    one settlement. *)
Lemma maximal_run_settled s evs' s' k h :
  Inv s → run s evs' = Some s' → (∀ s'', ¬ worker_step s'' s') →
  h ∈ submitted k (trace s) →
  length (settlements h (trace s')) = 1.
Proof.
  intros HI Hrun' Hmax Hin.
  apply (quiescent_settled s' k); [by eapply run_inv| |].
  - destruct (suspended s') as [|wk' ws'] eqn:Hs'; [done|].
    destruct (worker_enabled s') as [s'' Hstep]; [|by destruct (Hmax s'')].
    unfold quiescent. by rewrite Hs'.
  - destruct (run_trace _ _ _ Hrun') as [d ->].
    rewrite submitted_app. set_solver.
Qed.

(** Such a state can be reached by turns of the workers alone. *)
Lemma quiescent_reachable s :
  Inv s →
  ∃ evs' s', run s evs' = Some s' ∧ Forall worker_turn evs' ∧ quiescent s' ∧
    ∀ k h, h ∈ submitted k (trace s) →
    length (settlements h (trace s')) = 1.
Proof.
  intros HI.
  destruct (can_quiesce (pending_work s) s HI)
    as (evs' & s' & d & Hrun' & Hev & Hq & Htr); [done|].
  exists evs', s'. split_and!; [done..|]. intros k h Hin.
  apply (quiescent_settled s' k); [by eapply run_inv|done|].
  rewrite Htr, submitted_app. set_solver.
Qed.

(** C1.  Entries of one key are started in the order in which they were
    submitted.  In every reachable state the handles started under [k] are
    the first of those submitted under [k], the rest being the backlog in
    order; whenever an entry is started it is the earliest submitted entry
    not yet started, and every entry started before it has been settled; so
    for positions [i < j] in submission order, entry [i] is settled before
    entry [j] starts.  The order is that of the operations: the handles
    submitted under [k] are those of the calls of [enqueue] made under [k],
    in the order of the calls; the backlog holds, in that order, the
    operations of the calls not yet started; the activation in flight
    awaits what remains of the operation of the call started last.  A
    worker that resumes takes the first entry of the backlog, which is the
    earliest call not yet started, and calls the operation of that entry on
    the world as it is; a call of [enqueue] that finds the key unregistered
    calls its operation within the turn. *)
Theorem fifo_start_order (w : W) evs s k :
  run (init w) evs = Some s →
  submitted k (trace s) = started k (trace s) ++ (entry_handle <$> backlog k s) ∧
  (∀ t1 h t2, trace s = t1 ++ Started k h :: t2 →
     (∃ rest, submitted k t1 = started k t1 ++ h :: rest) ∧
     started k t1 = settled k t1) ∧
  (∀ i j hi hj t1 t2,
     i < j →
     submitted k (trace s) !! i = Some hi →
     submitted k (trace s) !! j = Some hj →
     trace s = t1 ++ Started k hj :: t2 →
     hi ∈ settled k t1) ∧
  submitted k (trace s) = (enqueued_under k 0 (enqueued evs)).*1 ∧
  entry_pair <$> backlog k s =
    drop (length (started k (trace s))) (enqueued_under k 0 (enqueued evs)) ∧
  (∀ wk, wk ∈ workers_of k s →
     ∃ op,
       enqueued_under k 0 (enqueued evs) !! (length (started k (trace s)) - 1)
         = Some (wk_handle wk, op) ∧
       remains_of op (wk_awaiting wk)) ∧
  (∀ h wk rest o e q,
     pick h (suspended s) = Some (wk, rest) → wk_tenantId wk = k →
     settles_as (wk_awaiting wk) o →
     backlog k s = e :: q →
     enqueued_under k 0 (enqueued evs) !! length (started k (trace s))
       = Some (entry_pair e) ∧
     ∃ s' d, wake h s = Some s' ∧
       trace s' = trace s ++ Settled k h o :: Started k (entry_handle e) :: d ∧
       match snd (entry_operation e (world s)) with
       | Returned p =>
           d = [] ∧
           world s' = fst (entry_operation e (world s)) ∧
           workers_of k s' = [Worker k (wk_queue wk) (entry_handle e) p] ∧
           backlog k s' = q
       | Threw err =>
           ∃ d', d = Settled k (entry_handle e) (Rejected err) :: d'
       end) ∧
  (∀ op, queues s !! k = None →
     match snd (op (world s)) with
     | Returned p =>
         trace (fst (enqueue k op s)) =
           trace s ++ [Submitted k (next_handle s); WorkerStart k;
                       Started k (next_handle s)] ∧
         world (fst (enqueue k op s)) = fst (op (world s)) ∧
         workers_of k (fst (enqueue k op s)) =
           [Worker k (next_loc s) (next_handle s) p] ∧
         backlog k (fst (enqueue k op s)) = []
     | Threw err =>
         trace (fst (enqueue k op s)) =
           trace s ++ [Submitted k (next_handle s); WorkerStart k;
                       Started k (next_handle s);
                       Settled k (next_handle s) (Rejected err);
                       WorkerExit k] ∧
         world (fst (enqueue k op s)) = fst (op (world s)) ∧
         workers_of k (fst (enqueue k op s)) = []
     end).
Proof.
  intros Hrun. pose proof (reachable_inv _ _ _ Hrun) as HI.
  pose proof (provenance_reachable _ _ _ Hrun) as HP.
  destruct HI as (Hreg & Hh & Hrest & Hrep).
  assert (HI : Inv s) by done.
  pose proof (Hrep k) as Hrepk.
  pose proof (kreplay_lists _ _ _ Hrepk) as (H1 & H2 & _).
  assert (Hat : ∀ t1 h t2, trace s = t1 ++ Started k h :: t2 →
     (∃ rest, submitted k t1 = started k t1 ++ h :: rest) ∧
     started k t1 = settled k t1).
  { intros t1 h t2 Ht. rewrite Ht in Hrepk.
    apply kreplay_at_start in Hrepk as [? ?]. done. }
  pose proof HP as (_ & H0 & _).
  pose proof (backlog_enqueued _ _ k HI HP) as Hbl.
  destruct (provenance_keys _ _ HI HP) as (Kb & Kw & _).
  split_and!; [done|done| |done|done| | |].
  - intros i j hi hj t1 t2 Hij Hi Hj Ht.
    destruct (Hat _ _ _ Ht) as [[rest Hsub] Hst].
    destruct Hh as (_ & Hnd & _). specialize (Hnd k).
    assert (Hj' : submitted k (trace s) !! length (started k t1) = Some hj).
    { rewrite Ht, submitted_app, Hsub, <-!app_assoc.
      rewrite lookup_app_r by lia. by rewrite Nat.sub_diag. }
    assert (j = length (started k t1)) as ->.
    { eapply NoDup_lookup; eauto. }
    rewrite <-Hst. apply list_elem_of_lookup. exists i.
    rewrite Ht, submitted_app, Hsub, <-!app_assoc in Hi.
    by rewrite lookup_app_l in Hi by lia.
  - intros wk Hin.
    assert (Hs : wk ∈ suspended s ∧ wk_tenantId wk = k).
    { unfold workers_of in Hin. by apply list_elem_of_filter in Hin as [? ?]. }
    destruct Hs as [Hs Hk].
    destruct (worker_submitted s wk HI Hs) as [_ Hws]. rewrite Hk in Hws.
    destruct (Kw wk Hs) as (op & Hc & Hr). rewrite Hk in Hc.
    exists op. split; [|done].
    assert (Hcur : started k (trace s) = settled k (trace s) ++ [wk_handle wk]).
    { rewrite H2. simpl. unfold in_flight. by rewrite Hws. }
    assert (Hl : (enqueued_under k 0 (enqueued evs)).*1
                   !! (length (started k (trace s)) - 1)
                 = Some (wk_handle wk)).
    { rewrite <-H0, H1, lookup_app_l.
      2:{ rewrite Hcur, length_app. simpl. lia. }
      rewrite Hcur, length_app. simpl.
      rewrite lookup_app_r by lia.
      by replace (length (settled k (trace s)) + 1 - 1
                  - length (settled k (trace s))) with 0 by lia. }
    rewrite list_lookup_fmap in Hl.
    destruct (enqueued_under k 0 (enqueued evs)
                !! (length (started k (trace s)) - 1))
      as [[h' op']|] eqn:He; [|done].
    simpl in Hl. injection Hl as ->. do 2 f_equal.
    apply list_elem_of_lookup_2, enqueued_under_elem in He as [_ He].
    rewrite Nat.sub_0_r in He.
    assert (Some (k, op') = Some (k, op)) as Heq by (by rewrite <-He, <-Hc).
    by injection Heq.
  - intros h wk rest o e q Hp Hk Ho Hb. split.
    + pose proof (f_equal (λ x, x !! 0) Hbl) as Hl0. simpl in Hl0.
      rewrite Hb, lookup_drop, Nat.add_0_r in Hl0. done.
    + subst k.
      destruct (wake_head s h wk rest o e q HI Hp Ho Hb) as (s' & Hw & Hm).
      destruct (snd (entry_operation e (world s))) as [err|p].
      * destruct Hm as (Ht & _). eexists s', _. split_and!; [done|done|].
        by eexists.
      * destruct Hm as (Ht & Hwd & Hwk & Hbq).
        exists s', []. split_and!; done.
  - intros op Hq. by apply enqueue_idle_calls.
Qed.

(** C3.  The completion handle of an entry is settled exactly once, with the
    outcome of its operation.  In every reachable state no handle has been
    settled twice; every submitted handle is settled, in flight, or waiting
    in the backlog of its key; in a quiescent state every submitted handle
    has been settled exactly once.  A worker whose operation has fulfilled
    with [v] resumes and settles the handle with [Fulfilled v], one whose
    operation has rejected with [e] settles it with [Rejected e], and these
    are then the only settlements of the handle; while the operation is
    pending the handle is unsettled.  The outcome is that of the operation
    the handle was created for: every settlement in the trace is, for the
    call of [enqueue] that created the handle, the value that the promise
    of its operation was fulfilled with, the error it was rejected with, or
    the error that the call of the operation threw, as it stands.  Turn by
    turn: the entry a worker takes is called on the world as it is, and the
    activation parks on the very promise that the call returned; when the
    call throws, the entry is rejected with what was thrown, in that turn,
    and this is its one settlement; an inner [await] resumes the promise's
    own next segment; a call of [enqueue] for an unregistered key calls its
    operation within the turn.  No handle stays unsettled: every sequence of turns
    of the workers is finite, a turn is enabled while an activation is
    suspended, so whenever no turn is left every call has its one
    settlement, an outcome of its own operation, and such a state can be
    reached from every reachable state without further submissions. *)
Theorem settled_exactly_once (w : W) evs s :
  run (init w) evs = Some s →
  (∀ h, length (settlements h (trace s)) ≤ 1) ∧
  (∀ k h, h ∈ submitted k (trace s) →
     h ∈ settled k (trace s) ∨ in_flight k s = Some h ∨
     h ∈ entry_handle <$> backlog k s) ∧
  (quiescent s → ∀ k h, h ∈ submitted k (trace s) →
     length (settlements h (trace s)) = 1) ∧
  (∀ h wk rest, pick h (suspended s) = Some (wk, rest) →
     match wk_awaiting wk with
     | Resolved v =>
         ∃ s', wake h s = Some s' ∧ settlements h (trace s') = [Fulfilled v]
     | Failed e =>
         ∃ s', wake h s = Some s' ∧ settlements h (trace s') = [Rejected e]
     | Pending _ => wake h s = None ∧ settlements h (trace s) = []
     end) ∧
  (∀ k h o, Settled k h o ∈ trace s →
     ∃ op, enqueued evs !! h = Some (k, op) ∧ own_outcome op o ∧
           settlements h (trace s) = [o]) ∧
  (∀ k e, e ∈ backlog k s →
     enqueued evs !! entry_handle e = Some (k, entry_operation e)) ∧
  (∀ wk, wk ∈ suspended s →
     ∃ op, enqueued evs !! wk_handle wk = Some (wk_tenantId wk, op) ∧
           remains_of op (wk_awaiting wk)) ∧
  (∀ h wk rest o e q,
     pick h (suspended s) = Some (wk, rest) →
     settles_as (wk_awaiting wk) o →
     backlog (wk_tenantId wk) s = e :: q →
     ∃ s', wake h s = Some s' ∧
       match snd (entry_operation e (world s)) with
       | Returned p =>
           trace s' = trace s ++ [Settled (wk_tenantId wk) h o;
                                  Started (wk_tenantId wk) (entry_handle e)] ∧
           world s' = fst (entry_operation e (world s)) ∧
           workers_of (wk_tenantId wk) s' =
             [Worker (wk_tenantId wk) (wk_queue wk) (entry_handle e) p] ∧
           backlog (wk_tenantId wk) s' = q
       | Threw err =>
           trace s' = trace s ++
             Settled (wk_tenantId wk) h o ::
             Started (wk_tenantId wk) (entry_handle e) ::
             Settled (wk_tenantId wk) (entry_handle e) (Rejected err) ::
             d_events (drain_result (wk_tenantId wk) (wk_queue wk) q
                                    (fst (entry_operation e (world s)))) ∧
           world s' =
             d_world (drain_result (wk_tenantId wk) (wk_queue wk) q
                                   (fst (entry_operation e (world s)))) ∧
           settlements (entry_handle e) (trace s') = [Rejected err]
       end) ∧
  (∀ h wk rest resume o,
     pick h (suspended s) = Some (wk, rest) →
     wk_awaiting wk = Pending resume →
     ∃ s', progress h o s = Some s' ∧
       world s' = fst (resume o (world s)) ∧
       suspended s' =
         rest ++ [Worker (wk_tenantId wk) (wk_queue wk) h
                         (snd (resume o (world s)))] ∧
       trace s' = trace s ∧ queues s' = queues s ∧ arrays s' = arrays s) ∧
  (∀ k op, queues s !! k = None →
     match snd (op (world s)) with
     | Returned p =>
         trace (fst (enqueue k op s)) =
           trace s ++ [Submitted k (next_handle s); WorkerStart k;
                       Started k (next_handle s)] ∧
         world (fst (enqueue k op s)) = fst (op (world s)) ∧
         workers_of k (fst (enqueue k op s)) =
           [Worker k (next_loc s) (next_handle s) p] ∧
         backlog k (fst (enqueue k op s)) = []
     | Threw err =>
         trace (fst (enqueue k op s)) =
           trace s ++ [Submitted k (next_handle s); WorkerStart k;
                       Started k (next_handle s);
                       Settled k (next_handle s) (Rejected err);
                       WorkerExit k] ∧
         world (fst (enqueue k op s)) = fst (op (world s)) ∧
         workers_of k (fst (enqueue k op s)) = []
     end) ∧
  Acc worker_step s ∧
  (¬ quiescent s → ∃ s', worker_step s' s) ∧
  (∀ evs' s', run s evs' = Some s' → (∀ s'', ¬ worker_step s'' s') →
     ∀ h k op, enqueued evs !! h = Some (k, op) →
     ∃ o, settlements h (trace s') = [o] ∧ own_outcome op o) ∧
  (∃ evs' s', run s evs' = Some s' ∧ Forall worker_turn evs' ∧
     quiescent s' ∧
     ∀ h k op, enqueued evs !! h = Some (k, op) →
     ∃ o, settlements h (trace s') = [o] ∧ own_outcome op o).
Proof.
  intros Hrun. pose proof (reachable_inv _ _ _ Hrun) as HI.
  pose proof (provenance_reachable _ _ _ Hrun) as HP.
  pose proof (inv_accepted _ HI) as Hacc.
  pose proof HI as (Hreg & Hh & Hrest & Hrep).
  destruct (provenance_keys _ _ HI HP) as (Kb & Kw & Ks).
  assert (Honce : ∀ h, length (settlements h (trace s)) ≤ 1).
  { intros h. by eapply settlements_at_most_once. }
  assert (Hwhere : ∀ k h, h ∈ submitted k (trace s) →
     h ∈ settled k (trace s) ∨ in_flight k s = Some h ∨
     h ∈ entry_handle <$> backlog k s).
  { intros k h. by apply submitted_where. }
  assert (Hown : ∀ evs' s', run s evs' = Some s' →
     ∀ h k op, enqueued evs !! h = Some (k, op) →
     length (settlements h (trace s')) = 1 →
     ∃ o, settlements h (trace s') = [o] ∧ own_outcome op o).
  { intros evs' s' Hrun' h k op Hc Hlen.
    pose proof (provenance_run _ _ _ _ HI HP Hrun') as HP'.
    destruct (settlements h (trace s')) as [|o [|o' r]] eqn:Hse;
      simpl in Hlen; try lia.
    exists o. split; [done|].
    eapply (settlement_own _ s' h k); [done| |rewrite Hse; by left].
    by apply lookup_app_l_Some. }
  split_and!; [done|done| | | |done|done| | | | | | |].
  - intros Hq k h Hin. by apply (quiescent_settled s k).
  - intros h wk rest Hp.
    destruct (wk_awaiting wk) as [v|e|r] eqn:Haw.
    + eexists. split; [eapply wake_spec; [done|by rewrite Haw]|].
      eapply wake_settlement; [done|done| |by rewrite Haw].
      eapply wake_spec; [done|by rewrite Haw].
    + eexists. split; [eapply wake_spec; [done|by rewrite Haw]|].
      eapply wake_settlement; [done|done| |by rewrite Haw].
      eapply wake_spec; [done|by rewrite Haw].
    + split; [unfold wake; by rewrite Hp, Haw|].
      by eapply suspended_unsettled.
  - intros k h o Hin. destruct (Ks k h o Hin) as (op & Hc & Ho).
    exists op. split_and!; [done|done|]. by eapply settled_once.
  - intros h wk rest o e q Hp Ho Hb. by apply (wake_head s h wk rest).
  - intros h wk rest resume o Hp Haw. by apply (progress_exact s h wk rest).
  - intros k op Hq. by apply enqueue_idle_calls.
  - by apply workers_terminate.
  - apply worker_enabled.
  - intros evs' s' Hrun' Hmax h k op Hc.
    apply (Hown evs' s' Hrun' h k op Hc).
    apply (maximal_run_settled s evs' s' k); [done..|].
    by eapply enqueued_submitted.
  - destruct (quiescent_reachable _ HI)
      as (evs' & s' & Hrun' & Hev & Hq & Hall).
    exists evs', s'. split_and!; [done..|]. intros h k op Hc.
    apply (Hown evs' s' Hrun' h k op Hc). apply (Hall k).
    by eapply enqueued_submitted.
Qed.

(** The keys other than the one whose worker runs are left alone. *)
Lemma install_frame k l (d : drained W) s k' :
  registry_ok s → queues s !! k = Some l → k' ≠ k →
  (∀ wk, d_parked d = Some wk → wk_tenantId wk = k) →
  queues (install k l d s) !! k' = queues s !! k' ∧
  backlog k' (install k l d s) = backlog k' s ∧
  workers_of k' (install k l d s) = workers_of k' s ∧
  (k' ∈ processing (install k l d s) ↔ k' ∈ processing s).
Proof.
  intros [Hinj _] Hq Hne Hpk.
  assert (Hq' : queues (install k l d s) !! k' = queues s !! k').
  { unfold install. simpl. destruct (d_parked d); [done|].
    by rewrite lookup_delete_ne. }
  split_and!; [done| | |].
  - unfold backlog. rewrite Hq'. destruct (queues s !! k') as [l'|] eqn:Hl'; [|done].
    unfold array_at, install. simpl. destruct (d_array d); [|done].
    rewrite lookup_insert_ne; [done|]. intros ->. apply Hne. eauto.
  - unfold workers_of, install. simpl. rewrite filter_app.
    destruct (d_parked d) as [wk|]; simpl; [|by rewrite app_nil_r].
    rewrite filter_cons_False, app_nil_r; [done|].
    rewrite (Hpk wk eq_refl). congruence.
  - unfold install. simpl. destruct (d_parked d); set_solver.
Qed.

(** C4.  A failed operation rejects its own handle and nothing else changes
    course.  When the worker of [k] resumes on an operation that failed with
    [e], it settles that entry's handle with [Rejected e], once, and goes on
    with the loop in the same turn: the events that follow are those of the
    loop run on the backlog, the next entry (if any) is started, no entry of
    the backlog is lost, the worker stays while a backlog remains, the turn
    is the one a success would have produced but for the settlement, and
    the other keys keep their registry entry, backlog, worker and processing
    mark.  The error is the operation's own: the promise that failed is
    what remains of the operation enqueued with the handle.  The entries
    of the backlog hold the operations they were enqueued with, and the
    next one is called on the world as it is: when it returns a promise the
    worker parks on that promise, and when it throws, the entry is rejected
    with what was thrown, once, and the loop goes on with the rest in the
    same turn, after a failure as after a success.  Every later entry of
    the key is still executed and resolves with its own result: whenever no
    turn of a worker is left each of them has its one settlement, an
    outcome of its own operation, and such a state can be reached without
    further submissions. *)
Theorem failure_is_isolated (w : W) evs s h wk rest e :
  run (init w) evs = Some s →
  pick h (suspended s) = Some (wk, rest) →
  wk_awaiting wk = Failed e →
  ∃ s' d,
    wake h s = Some s' ∧
    trace s' = trace s ++ Settled (wk_tenantId wk) h (Rejected e) :: d ∧
    d = d_events (drain_result (wk_tenantId wk) (wk_queue wk)
                               (backlog (wk_tenantId wk) s) (world s)) ∧
    Forall (λ o, obs_key o = wk_tenantId wk) d ∧
    settlements h (trace s') = [Rejected e] ∧
    (∀ e2 q, backlog (wk_tenantId wk) s = e2 :: q →
       ∃ d', d = Started (wk_tenantId wk) (entry_handle e2) :: d') ∧
    (∀ e', e' ∈ backlog (wk_tenantId wk) s →
       entry_handle e' ∈ settled (wk_tenantId wk) (trace s') ∨
       in_flight (wk_tenantId wk) s' = Some (entry_handle e') ∨
       entry_handle e' ∈ entry_handle <$> backlog (wk_tenantId wk) s') ∧
    (backlog (wk_tenantId wk) s' ≠ [] →
       wk_tenantId wk ∈ processing s' ∧ workers_of (wk_tenantId wk) s' ≠ []) ∧
    (∀ v, ∃ s_ok,
       wake h (set_suspended
                 (Worker (wk_tenantId wk) (wk_queue wk) h (Resolved v) :: rest) s)
         = Some s_ok ∧
       trace s_ok = trace s ++ Settled (wk_tenantId wk) h (Fulfilled v) :: d ∧
       queues s_ok = queues s' ∧ arrays s_ok = arrays s' ∧
       processing s_ok = processing s' ∧ suspended s_ok = suspended s' ∧
       world s_ok = world s') ∧
    (∀ k', k' ≠ wk_tenantId wk →
       queues s' !! k' = queues s !! k' ∧
       backlog k' s' = backlog k' s ∧
       workers_of k' s' = workers_of k' s ∧
       (k' ∈ processing s' ↔ k' ∈ processing s)) ∧
    (∃ op, enqueued evs !! h = Some (wk_tenantId wk, op) ∧
           remains_of op (Failed e)) ∧
    (∀ e', e' ∈ backlog (wk_tenantId wk) s →
       enqueued evs !! entry_handle e'
         = Some (wk_tenantId wk, entry_operation e')) ∧
    (∀ e2 q p, backlog (wk_tenantId wk) s = e2 :: q →
       snd (entry_operation e2 (world s)) = Returned p →
       d = [Started (wk_tenantId wk) (entry_handle e2)] ∧
       world s' = fst (entry_operation e2 (world s)) ∧
       workers_of (wk_tenantId wk) s' =
         [Worker (wk_tenantId wk) (wk_queue wk) (entry_handle e2) p] ∧
       backlog (wk_tenantId wk) s' = q) ∧
    (∀ e2 q err, backlog (wk_tenantId wk) s = e2 :: q →
       snd (entry_operation e2 (world s)) = Threw err →
       d = Started (wk_tenantId wk) (entry_handle e2) ::
           Settled (wk_tenantId wk) (entry_handle e2) (Rejected err) ::
           d_events (drain_result (wk_tenantId wk) (wk_queue wk) q
                                  (fst (entry_operation e2 (world s)))) ∧
       world s' =
         d_world (drain_result (wk_tenantId wk) (wk_queue wk) q
                               (fst (entry_operation e2 (world s)))) ∧
       settlements (entry_handle e2) (trace s') = [Rejected err]) ∧
    (∀ evs' s'', run s' evs' = Some s'' → (∀ s3, ¬ worker_step s3 s'') →
       ∀ e', e' ∈ backlog (wk_tenantId wk) s →
       ∃ o, settlements (entry_handle e') (trace s'') = [o] ∧
            own_outcome (entry_operation e') o) ∧
    (∃ evs' s'', run s' evs' = Some s'' ∧ Forall worker_turn evs' ∧
       quiescent s'' ∧
       ∀ e', e' ∈ backlog (wk_tenantId wk) s →
       ∃ o, settlements (entry_handle e') (trace s'') = [o] ∧
            own_outcome (entry_operation e') o).
Proof.
  intros Hrun Hp Haw. pose proof (reachable_inv _ _ _ Hrun) as HI.
  pose proof (provenance_reachable _ _ _ Hrun) as HP.
  destruct (provenance_keys _ _ HI HP) as (Kb & Kw & _).
  pose proof HI as (Hreg & Hh & Hrest & Hrep).
  pose proof Hp as (Hwh & ws1 & ws2 & Hs & Hrest')%pick_Some.
  destruct (suspended_worker s wk ws1 ws2 Hs (Hrest _)) as (Hq & Hpr & Hf).
  set (k := wk_tenantId wk) in *. set (l := wk_queue wk) in *.
  assert (Hb : backlog k s = array_at l s).
  { unfold backlog. by rewrite Hq. }
  pose proof (wake_spec h s wk rest (Rejected e) Hp) as Hw.
  rewrite Haw in Hw. specialize (Hw eq_refl). fold k l in Hw.
  rewrite <-Hb in Hw. simpl in Hw.
  set (dr := drain_result k l (backlog k s) (world s)) in *.
  assert (Inv (install k l dr (emit (Settled k h (Rejected e))
                                    (set_suspended rest s)))) as HI'.
  { eapply wake_inv; [exact HI|exact Hw]. }
  eexists _, (d_events dr). split; [exact Hw|].
  assert (Hsub : ∀ h', h' ∈ submitted k (trace s) →
            h' ∈ submitted k (trace (install k l dr
               (emit (Settled k h (Rejected e)) (set_suspended rest s))))).
  { intros h' Hin. simpl. rewrite !submitted_app. set_solver. }
  assert (Hbl : ∀ e', e' ∈ backlog k s →
            entry_handle e' ∈ submitted k (trace (install k l dr
               (emit (Settled k h (Rejected e)) (set_suspended rest s))))).
  { intros e' Hin. apply Hsub.
    destruct (kreplay_lists _ _ _ (Hrep k)) as (-> & _). simpl.
    apply elem_of_app. right. by apply list_elem_of_fmap_2. }
  assert (Hown : ∀ evs' s'',
            run (install k l dr (emit (Settled k h (Rejected e))
                                      (set_suspended rest s))) evs' = Some s'' →
            ∀ e', e' ∈ backlog k s →
            length (settlements (entry_handle e') (trace s'')) = 1 →
            ∃ o, settlements (entry_handle e') (trace s'') = [o] ∧
                 own_outcome (entry_operation e') o).
  { intros evs' s'' Hrun' e' Hin Hlen.
    assert (Hrun2 : run s (Wake h :: evs') = Some s'').
    { simpl. by rewrite Hw. }
    pose proof (provenance_run _ _ _ _ HI HP Hrun2) as HP'.
    destruct (settlements (entry_handle e') (trace s'')) as [|o [|o' r]]
      eqn:Hse; simpl in Hlen; try lia.
    exists o. split; [done|].
    eapply (settlement_own _ s'' (entry_handle e') k);
      [done| |rewrite Hse; by left].
    apply lookup_app_l_Some. by apply Kb. }
  split_and!.
  - simpl. by rewrite <-app_assoc.
  - done.
  - apply drain_result_events.
  - eapply wake_settlement; [exact HI|exact Hp|exact Hw|by rewrite Haw].
  - intros e2 q Hq2. subst dr. rewrite Hq2. unfold drain_result.
    destruct (snd (entry_operation e2 (world s))); simpl; eauto.
  - intros e' Hin. apply submitted_where; [done|]. apply Hsub.
    destruct (kreplay_lists _ _ _ (Hrep k)) as (-> & _). simpl.
    apply elem_of_app. right. by apply list_elem_of_fmap_2.
  - by apply backlog_has_worker.
  - intros v. eexists. split.
    + erewrite (wake_spec h _ (Worker k l h (Resolved v)) rest (Fulfilled v));
        [done| |done].
      simpl. by rewrite decide_True.
    + cbn. change (array_at l (set_suspended _ s)) with (array_at l s).
      rewrite <-Hb. fold dr. by rewrite <-app_assoc.
  - intros k' Hne.
    assert (Hw' : workers_of k' (emit (Settled k h (Rejected e))
                                  (set_suspended rest s)) = workers_of k' s).
    { unfold workers_of. simpl. rewrite Hrest', Hs.
      apply filter_remove_other. fold k. congruence. }
    destruct (install_frame k l dr
                (emit (Settled k h (Rejected e)) (set_suspended rest s)) k')
      as (H1 & H2 & H3 & H4); [done|done|done| |].
    { intros wk' Hpk. by apply drain_result_parked in Hpk as [? _]. }
    rewrite H3, Hw'. done.
  - destruct (Kw wk) as (op & Hc & Hr); [rewrite Hs; set_solver|].
    exists op. rewrite <-Hwh, <-Haw. done.
  - intros e' Hin. by apply Kb.
  - intros e2 q p Hq2 Hop.
    destruct (wake_head s h wk rest (Rejected e) e2 q HI Hp) as (s0 & Hw0 & Hm);
      [by rewrite Haw|done|].
    fold k l in Hw0, Hm. rewrite Hw in Hw0. injection Hw0 as <-.
    rewrite Hop in Hm. destruct Hm as (Ht & Hwd & Hwk & Hbq).
    split_and!; [|done..].
    simpl in Ht. rewrite <-app_assoc in Ht. apply app_inv_head in Ht.
    by injection Ht.
  - intros e2 q err Hq2 Hop.
    destruct (wake_head s h wk rest (Rejected e) e2 q HI Hp) as (s0 & Hw0 & Hm);
      [by rewrite Haw|done|].
    fold k l in Hw0, Hm. rewrite Hw in Hw0. injection Hw0 as <-.
    rewrite Hop in Hm. destruct Hm as (Ht & Hwd & Hse).
    split_and!; [|done..].
    simpl in Ht. rewrite <-app_assoc in Ht. apply app_inv_head in Ht.
    by injection Ht.
  - intros evs' s'' Hrun' Hmax e' Hin. apply (Hown evs' s'' Hrun' e' Hin).
    eapply (maximal_run_settled _ evs' s'' k); [exact HI'|done|done|].
    by apply Hbl.
  - destruct (quiescent_reachable _ HI')
      as (evs' & s'' & Hrun' & Hev & Hqs & Hall).
    exists evs', s''. split_and!; [done..|]. intros e' Hin.
    apply (Hown evs' s'' Hrun' e' Hin). apply (Hall k). by apply Hbl.
Qed.

(** C7 as it holds on the code.  [enqueue] never throws, whatever the key:
    it returns the fresh promise it created, and the entry is recorded under
    the key it was given, [null] and [undefined] included.  The promise
    mirrors the operation and nothing else: whatever turns follow the call,
    the promise is settled at most once and only with an outcome of the
    operation it was enqueued with, and when no turn of a worker is left it
    has been settled, once. *)
Theorem enqueue_never_fails (k : key) (op : operation W) s :
  snd (enqueue k op s) = Normal (next_handle s) ∧
  (∃ d, trace (fst (enqueue k op s)) =
        trace s ++ Submitted k (next_handle s) :: d) ∧
  (∀ w evs, run (init w) evs = Some s →
   ∀ evs' s', run (fst (enqueue k op s)) evs' = Some s' →
     length (settlements (next_handle s) (trace s')) ≤ 1 ∧
     (∀ o, o ∈ settlements (next_handle s) (trace s') → own_outcome op o) ∧
     ((∀ s'', ¬ worker_step s'' s') →
        ∃ o, settlements (next_handle s) (trace s') = [o] ∧
             own_outcome op o)).
Proof.
  assert (Htr : ∃ d, trace (fst (enqueue k op s)) =
                     trace s ++ Submitted k (next_handle s) :: d).
  { unfold enqueue.
    destruct (queues s !! k) as [l|] eqn:Hq; simpl.
    - rewrite Hq. case_decide; simpl; [by eexists|].
      unfold processQueue. simpl. rewrite Hq.
      rewrite drain_spec by done. simpl. rewrite <-!app_assoc. simpl. eauto.
    - rewrite lookup_insert_eq. case_decide; simpl; [by eexists|].
      unfold processQueue. simpl. rewrite lookup_insert_eq.
      rewrite drain_spec by done. simpl. rewrite <-!app_assoc. simpl. eauto. }
  split_and!; [|done|].
  - unfold enqueue.
    destruct (queues s !! k) as [l|] eqn:Hq; simpl.
    + rewrite Hq. by case_decide.
    + rewrite lookup_insert_eq. by case_decide.
  - intros w evs Hrun evs' s' Hrun'.
    pose proof (reachable_inv _ _ _ Hrun) as HI.
    pose proof (provenance_reachable _ _ _ Hrun) as HP.
    assert (Hrun2 : run s (Enqueue k op :: evs') = Some s') by done.
    pose proof (provenance_run _ _ _ _ HI HP Hrun2) as HP'.
    pose proof (enqueue_inv k op s HI) as HI1.
    pose proof (run_inv _ _ _ HI1 Hrun') as HI'.
    assert (Hc : (enqueued evs ++ enqueued (Enqueue k op :: evs'))
                   !! next_handle s = Some (k, op)).
    { destruct HP as (-> & _). by rewrite lookup_app_r, Nat.sub_diag. }
    assert (Hle : length (settlements (next_handle s) (trace s')) ≤ 1).
    { eapply settlements_at_most_once; [apply HI'|by apply inv_accepted]. }
    assert (Hown : ∀ o, o ∈ settlements (next_handle s) (trace s') →
                        own_outcome op o).
    { intros o Hin. by eapply (settlement_own _ s' (next_handle s) k). }
    split_and!; [done|done|].
    intros Hmax.
    assert (Hlen : length (settlements (next_handle s) (trace s')) = 1).
    { apply (maximal_run_settled (fst (enqueue k op s)) evs' s' k); [done..|].
      destruct Htr as [d ->]. rewrite submitted_app. apply elem_of_app.
      right. unfold submitted. simpl. rewrite decide_True by done. by left. }
    destruct (settlements (next_handle s) (trace s')) as [|o [|o' r]] eqn:Hse;
      simpl in Hlen; try lia.
    exists o. split; [done|]. apply Hown. by left.
Qed.

End SettleClaims.

(** ** A drained key behaves like a fresh one *)

Section Reuse.
Context {W : Type}.
Implicit Types (s : State W) (k : key) (l : loc) (evs : list (event W)).

Lemma same_key_view_install k l base (d : drained W) s1 s2 :
  same_key_view k base s1 s2 →
  queues s1 !! k = Some l →
  (∀ wk, d_parked d = Some wk → wk_tenantId wk = k) →
  same_key_view k base (install k l d s1) (install k l d s2).
Proof.
  intros (Hw & Hnh & Hnl & Hq & Hb & Hp & Hws & Ht) Hl Hpk.
  assert (Hl2 : queues s2 !! k = Some l) by by rewrite <-Hq.
  unfold backlog, array_at in Hb. rewrite Hl, Hl2 in Hb.
  unfold same_key_view, install, backlog, array_at. simpl.
  split_and!; try done.
  - destruct (d_parked d); [by rewrite Hl, Hl2|].
    by rewrite !lookup_delete_eq.
  - destruct (d_parked d).
    + rewrite Hl, Hl2. destruct (d_array d); [|done].
      by rewrite !lookup_insert_eq.
    + by rewrite !lookup_delete_eq.
  - destruct (d_parked d); [done|set_solver].
  - unfold workers_of in *. simpl. rewrite filter_app, Hws. f_equal.
    destruct (d_parked d) as [wk|]; simpl; [|done].
    by rewrite filter_cons_True by eauto.
  - by rewrite Ht, app_assoc.
Qed.

Lemma same_key_view_pick k base s1 s2 h wk rest2 :
  Inv s1 → same_key_view k base s1 s2 →
  pick h (suspended s2) = Some (wk, rest2) →
  ∃ rest1,
    pick h (suspended s1) = Some (wk, rest1) ∧ rest2 = [] ∧
    filter (λ w, wk_tenantId w = k) rest1 = [] ∧
    wk_tenantId wk = k ∧ wk_handle wk = h ∧
    queues s1 !! k = Some (wk_queue wk) ∧ k ∈ processing s1.
Proof.
  intros HI HR Hp2.
  pose proof HR as (Hw & Hnh & Hnl & Hq & Hb & Hp & Hws & Ht).
  pose proof HI as (Hreg & Hh & Hrest & Hrep).
  pose proof Hp2 as (Hh2 & vs1 & vs2 & Hs2 & Hr2)%pick_Some.
  assert (wk ∈ workers_of k s1) as Hin by (rewrite Hws, Hs2; set_solver).
  unfold workers_of in Hin. apply list_elem_of_filter in Hin as [Hk Hin].
  destruct (pick_elem h (suspended s1) wk Hin Hh2) as [[wk' rest1] Hp1].
  pose proof (pick_unique _ _ _ _ _ HI Hp1 Hin Hh2) as ->.
  pose proof Hp1 as (_ & ws1 & ws2 & Hs1 & Hr1)%pick_Some.
  destruct (suspended_worker s1 wk ws1 ws2 Hs1 (Hrest _)) as (Hq1 & Hpr & Hf).
  rewrite Hk in *. exists rest1. split_and!; try done; [|by subst].
  assert (suspended s2 = [wk]) as Hs2'.
  { rewrite <-Hws. unfold workers_of. rewrite Hs1.
    rewrite filter_app, filter_cons_True by done.
    rewrite filter_app in Hf. apply app_eq_nil in Hf as [-> ->]. done. }
  rewrite Hs2' in Hs2. subst rest2.
  destruct vs1 as [|? [|? ?]]; simplify_eq/=; done.
Qed.

Lemma same_key_view_step k base s1 s2 ev s2' :
  Inv s1 → same_key_view k base s1 s2 →
  on_key k ev → step s2 ev = Some s2' →
  ∃ s1', step s1 ev = Some s1' ∧ same_key_view k base s1' s2'.
Proof.
  intros HI HR Hev Hstep.
  pose proof HR as (Hw & Hnh & Hnl & Hq & Hb & Hp & Hws & Ht).
  pose proof HI as (Hreg & Hh & Hrest & Hrep).
  destruct ev as [k' op|h o|h]; simpl in *.
  - (* enqueue *)
    subst k'. injection Hstep as <-. eexists. split; [done|].
    pose proof (Hrest k) as Hr. unfold key_rest in Hr.
    destruct (queues s1 !! k) as [l|] eqn:Hl.
    + destruct Hr as [Hp1 _].
      rewrite (enqueue_busy k op s1 l), (enqueue_busy k op s2 l);
        [|by rewrite <-Hq|tauto|done|done].
      unfold backlog, array_at in Hb. rewrite Hl, <-Hq in Hb.
      unfold same_key_view, backlog, array_at. simpl.
      rewrite Hl, <-Hq, !lookup_insert_eq. simpl.
      rewrite Hb, Hnh, Ht, <-app_assoc. done.
    + destruct Hr as [Hp1 _].
      rewrite (enqueue_fresh k op s1), (enqueue_fresh k op s2);
        [|by rewrite <-Hq|tauto|done|done].
      rewrite Hw, Hnh, Hnl.
      apply same_key_view_install.
      * unfold same_key_view, backlog, array_at. simpl.
        rewrite !lookup_insert_eq. simpl.
        rewrite Ht, <-!app_assoc. simpl.
        split_and!; try done. set_solver.
      * simpl. by rewrite lookup_insert_eq.
      * intros wk Hpk. by apply drain_result_parked in Hpk as [? _].
  - (* an operation resumes *)
    unfold progress in *.
    destruct (pick h (suspended s2)) as [[wk rest2]|] eqn:Hp2; [|done].
    destruct (same_key_view_pick _ _ _ _ _ _ _ HI HR Hp2)
      as (rest1 & -> & -> & Hf & Hk & Hwh & Hq1 & Hpr).
    destruct (wk_awaiting wk) as [| |resume]; try done.
    injection Hstep as <-. eexists. split; [done|].
    unfold same_key_view, backlog, array_at, workers_of in *. simpl.
    rewrite filter_app, Hf, filter_cons_True by done.
    rewrite Hw. done.
  - (* a worker resumes *)
    destruct (pick h (suspended s2)) as [[wk rest2]|] eqn:Hp2;
      [|by unfold wake in Hstep; rewrite Hp2 in Hstep].
    destruct (same_key_view_pick _ _ _ _ _ _ _ HI HR Hp2)
      as (rest1 & Hp1 & -> & Hf & Hk & Hwh & Hq1 & Hpr).
    assert (Hmatch : ∃ o, match wk_awaiting wk with
                          | Resolved v => o = Fulfilled v
                          | Failed e => o = Rejected e
                          | Pending _ => False
                          end).
    { unfold wake in Hstep. rewrite Hp2 in Hstep.
      destruct (wk_awaiting wk); try done; eauto. }
    destruct Hmatch as [o Ho].
    rewrite (wake_spec h s2 wk [] o Hp2 Ho) in Hstep. injection Hstep as <-.
    rewrite (wake_spec h s1 wk rest1 o Hp1 Ho).
    eexists. split; [done|]. simpl. rewrite Hk.
    assert (array_at (wk_queue wk) s1 = array_at (wk_queue wk) s2) as ->.
    { unfold backlog in Hb. by rewrite <-Hq, Hq1 in Hb. }
    rewrite Hw. apply same_key_view_install; [|done|].
    + unfold same_key_view, backlog, array_at, workers_of in *. simpl.
      rewrite Hf, Ht, <-app_assoc. done.
    + intros wk' Hpk. by apply drain_result_parked in Hpk as [? _].
Qed.

Lemma same_key_view_run k base evs s1 s2 s2' :
  Inv s1 → same_key_view k base s1 s2 →
  Forall (on_key k) evs → run s2 evs = Some s2' →
  ∃ s1', run s1 evs = Some s1' ∧ same_key_view k base s1' s2'.
Proof.
  revert s1 s2. induction evs as [|ev evs IH]; intros s1 s2 HI HR Hon; simpl.
  - intros [= <-]. eauto.
  - apply Forall_cons in Hon as [Hev Hon].
    destruct (step s2 ev) as [s2a|] eqn:Hs; [|done]. intros Hrun.
    destruct (same_key_view_step _ _ _ _ _ _ HI HR Hev Hs)
      as (s1a & Hs1 & HR').
    rewrite Hs1. eapply IH; [|done..]. by eapply step_inv.
Qed.

(** C6.  A key whose registry entry is gone behaves like a key never used.
    In a reachable state without an entry for [k], nothing of [k] remains
    (no processing mark, no worker, no backlog, every submitted entry
    settled), and any sequence of turns that submits to [k] only runs on
    this state as it runs on a fresh queue: the same turns are possible,
    they emit the same events in the same order after the old trace, leave
    the same world, and leave [k] with the same registry entry, backlog,
    processing mark and worker.  So the entries of a second batch are
    submitted and settled after all those of the first. *)
Theorem reuse_like_first_use (w : W) evs0 s k evs s2 :
  run (init w) evs0 = Some s →
  queues s !! k = None →
  Forall (on_key k) evs →
  run (fresh_like s) evs = Some s2 →
  ((k ∉ processing s) ∧ workers_of k s = [] ∧ backlog k s = [] ∧
   submitted k (trace s) = settled k (trace s)) ∧
  ∃ s1,
    run s evs = Some s1 ∧
    same_key_view k (trace s) s1 s2 ∧
    submitted k (trace s1) = submitted k (trace s) ++ submitted k (trace s2) ∧
    settled k (trace s1) = submitted k (trace s) ++ settled k (trace s2).
Proof.
  intros Hrun Hq Hon Hrun2.
  pose proof (reachable_inv _ _ _ Hrun) as HI.
  pose proof HI as (Hreg & Hh & Hrest & Hrep).
  pose proof (Hrest k) as Hr. unfold key_rest in Hr. rewrite Hq in Hr.
  destruct Hr as [Hp Hw].
  assert (Hb : backlog k s = []) by (unfold backlog; by rewrite Hq).
  assert (Hss : submitted k (trace s) = settled k (trace s)).
  { destruct (kreplay_lists _ _ _ (Hrep k)) as (-> & -> & _). simpl.
    unfold in_flight. rewrite Hw, Hb. simpl. by rewrite !app_nil_r. }
  split; [done|].
  assert (HR : same_key_view k (trace s) s (fresh_like s)).
  { unfold same_key_view, backlog. simpl. rewrite Hq, lookup_empty, app_nil_r.
    split_and!; try done. }
  destruct (same_key_view_run _ _ _ _ _ _ HI HR Hon Hrun2) as (s1 & Hrun1 & HR1).
  exists s1. split_and!; [done|done| |].
  - destruct HR1 as (_ & _ & _ & _ & _ & _ & _ & ->). apply submitted_app.
  - destruct HR1 as (_ & _ & _ & _ & _ & _ & _ & ->).
    unfold settled. rewrite omap_app. fold (settled k (trace s)).
    by rewrite Hss.
Qed.

End Reuse.

(** * [formatOrderNumber] *)

Import Format.

Section FormatProofs.
Local Open Scope Z_scope.
Local Open Scope string_scope.

Lemma append_nil (b : string) : "" +:+ b = b.
Proof. done. Qed.

Lemma append_cons x (a b : string) : String x a +:+ b = String x (a +:+ b).
Proof. done. Qed.

Lemma append_assoc' (a b c : string) : (a +:+ b) +:+ c = a +:+ (b +:+ c).
Proof.
  induction a as [|x a IH]; [done|]. by rewrite !append_cons, IH.
Qed.

Lemma length_append' (a b : string) :
  String.length (a +:+ b) = (String.length a + String.length b)%nat.
Proof.
  induction a as [|x a IH]; [done|]. rewrite append_cons. simpl. by rewrite IH.
Qed.

Lemma digits_only_app a b :
  digits_only (a +:+ b) ↔ digits_only a ∧ digits_only b.
Proof.
  induction a as [|x a IH]; [rewrite append_nil; simpl; tauto|].
  rewrite append_cons. simpl. rewrite IH. tauto.
Qed.

Lemma decimal_value_from_app acc a b :
  decimal_value_from acc (a +:+ b) =
  decimal_value_from (decimal_value_from acc a) b.
Proof.
  revert acc. induction a as [|x a IH]; intros acc; [done|].
  rewrite append_cons. simpl. apply IH.
Qed.

Lemma digit_char_code d : 0 <= d <= 9 → nat_of_ascii (digit_char d) = (48 + Z.to_nat d)%nat.
Proof.
  intros Hd. unfold digit_char. apply nat_ascii_embedding. lia.
Qed.

Lemma digit_char_is_digit d : 0 <= d <= 9 → is_digit (digit_char d).
Proof. intros Hd. unfold is_digit. rewrite digit_char_code by done. lia. Qed.

Lemma digit_char_value d :
  0 <= d <= 9 → Z.of_nat (nat_of_ascii (digit_char d)) - 48 = d.
Proof. intros Hd. rewrite digit_char_code by done. lia. Qed.

Lemma digit_char_zero d : 0 <= d <= 9 → digit_char d = "0"%char → d = 0.
Proof.
  intros Hd He. apply (f_equal nat_of_ascii) in He.
  rewrite digit_char_code in He by done.
  change (nat_of_ascii "0") with 48%nat in He. lia.
Qed.

(** What [digits_fuel] prepends to the accumulator. *)
Lemma digits_fuel_spec fuel n acc :
  0 <= n < 2 ^ Z.of_nat fuel → (0 < fuel)%nat →
  ∃ pre,
    digits_fuel fuel n acc = pre +:+ String (digit_char (n mod 10)) acc ∧
    digits_only pre ∧
    (∀ a, decimal_value_from a (pre +:+ String (digit_char (n mod 10)) "") =
          a * 10 ^ Z.of_nat (S (String.length pre)) + n) ∧
    (0 < n → ¬ leading_zero (pre +:+ String (digit_char (n mod 10)) "")) ∧
    (10 <= n → ∃ pre', pre = pre' +:+ String (digit_char (n / 10 mod 10)) "") ∧
    (n < 10 → pre = "").
Proof.
  revert n acc. induction fuel as [|fuel IH]; intros n acc Hn Hf; [lia|].
  simpl digits_fuel.
  assert (Hmod : 0 <= n mod 10 <= 9) by (pose proof (Z.mod_pos_bound n 10); lia).
  destruct (Z.eqb_spec (n / 10) 0) as [Hz|Hnz].
  - assert (n < 10) as Hlt.
    { pose proof (Z.div_mod n 10). lia. }
    exists "". simpl. split_and!; try done; try lia.
    + intros a. rewrite digit_char_value by done.
      rewrite Z.mod_small by lia. lia.
    + intros Hpos He. apply digit_char_zero in He; [|done].
      rewrite Z.mod_small in He by lia. lia.
  - assert (0 < n / 10) as Hq.
    { pose proof (Z.div_pos n 10). lia. }
    assert (10 <= n) as Hge.
    { destruct (Z_lt_le_dec n 10); [|done]. rewrite Z.div_small in Hq; lia. }
    destruct fuel as [|fuel'].
    { simpl in Hn. lia. }
    destruct (IH (n / 10) (String (digit_char (n mod 10)) acc))
      as (pre & Heq & Hd & Hv & Hl & Hp & _); [|lia|].
    { split; [lia|]. apply Z.div_lt_upper_bound; [lia|].
      rewrite Nat2Z.inj_succ, Z.pow_succ_r in Hn by lia. lia. }
    exists (pre +:+ String (digit_char (n / 10 mod 10)) "").
    split_and!.
    + rewrite Heq. by rewrite append_assoc'.
    + apply digits_only_app. split; [done|]. simpl. split; [|done].
      apply digit_char_is_digit. pose proof (Z.mod_pos_bound (n / 10) 10). lia.
    + intros a. rewrite decimal_value_from_app, Hv. simpl.
      rewrite digit_char_value by done.
      rewrite length_append'. simpl.
      replace (S (String.length pre + 1)) with (S (S (String.length pre))) by lia.
      rewrite (Nat2Z.inj_succ (S _)), Z.pow_succ_r by lia.
      pose proof (Z.div_mod n 10). lia.
    + intros _. specialize (Hl Hq).
      destruct pre as [|c pre]; simpl in *; done.
    + intros _. by exists pre.
    + lia.
Qed.

Lemma digits_spec n :
  0 <= n →
  ∃ pre,
    digits n = pre +:+ String (digit_char (n mod 10)) "" ∧
    digits_only (digits n) ∧
    decimal_value (digits n) = n ∧
    (0 < n → ¬ leading_zero (digits n)) ∧
    (10 <= n → ∃ pre', digits n = pre' +:+ two_digits n).
Proof.
  intros Hn. unfold digits.
  destruct (digits_fuel_spec (S (Z.to_nat (Z.log2 n))) n "")
    as (pre & Heq & Hd & Hv & Hl & Hp & _); [|lia|].
  { split; [done|]. rewrite Nat2Z.inj_succ, Z2Nat.id by apply Z.log2_nonneg.
    destruct (Z.eq_dec n 0) as [->|]; [done|].
    apply Z.log2_spec. lia. }
  exists pre. rewrite Heq. split_and!; [done| | |done|].
  - apply digits_only_app. split; [done|]. simpl. split; [|done].
    apply digit_char_is_digit. pose proof (Z.mod_pos_bound n 10). lia.
  - unfold decimal_value. rewrite Hv. lia.
  - intros Hge. destruct (Hp Hge) as [pre' ->]. exists pre'.
    by rewrite append_assoc'.
Qed.

Lemma decimal_value_from_bounds a s :
  0 <= a → digits_only s →
  a * 10 ^ Z.of_nat (String.length s) <= decimal_value_from a s
    < (a + 1) * 10 ^ Z.of_nat (String.length s).
Proof.
  revert a. induction s as [|c s IH]; intros a Ha Hd.
  { simpl. lia. }
  destruct Hd as [Hc Hd]. unfold is_digit in Hc.
  cbn [decimal_value_from String.length].
  rewrite Nat2Z.inj_succ, Z.pow_succ_r by lia.
  specialize (IH (10 * a + (Z.of_nat (nat_of_ascii c) - 48)) ltac:(lia) Hd).
  nia.
Qed.

Lemma zeros_length k : String.length (zeros k) = k.
Proof. induction k; simpl; by f_equal. Qed.

Lemma zeros_digits k : digits_only (zeros k).
Proof.
  induction k; simpl; [done|]. split; [|done].
  unfold is_digit. change (nat_of_ascii "0") with 48%nat. lia.
Qed.

Lemma zeros_value k s : decimal_value (zeros k +:+ s) = decimal_value s.
Proof.
  unfold decimal_value. induction k; [done|].
  simpl zeros. rewrite append_cons. cbn [decimal_value_from].
  change (nat_of_ascii "0") with 48%nat. done.
Qed.

Lemma padStart0_short n s :
  (n <= String.length s)%nat → padStart0 n s = s.
Proof. intros H. unfold padStart0. by replace (n - _)%nat with 0%nat by lia. Qed.

Lemma padStart0_length n s :
  String.length (padStart0 n s) = Nat.max n (String.length s).
Proof. unfold padStart0. rewrite length_append', zeros_length. lia. Qed.

Lemma slice_last2_app pre a b :
  slice_last2 (pre +:+ String a (String b "")) = String a (String b "").
Proof.
  unfold slice_last2. rewrite length_append'. simpl String.length.
  replace (String.length pre + 2 - 2)%nat with (String.length pre) by lia.
  induction pre as [|c pre IH]; [done|].
  rewrite append_cons. simpl. apply IH.
Qed.

(** A digit string without leading zero is at least [10 ^ (length - 1)]. *)
Lemma decimal_value_lower s :
  digits_only s → ¬ leading_zero s → s ≠ "" →
  10 ^ Z.of_nat (String.length s - 1) <= decimal_value s.
Proof.
  intros Hd Hl Hne. destruct s as [|c s]; [done|].
  destruct Hd as [Hc Hd]. unfold is_digit in Hc. simpl in Hl.
  assert (1 <= Z.of_nat (nat_of_ascii c) - 48) as Hc1.
  { destruct (decide (nat_of_ascii c = 48%nat)) as [He|]; [|lia].
    destruct Hl. rewrite <-(ascii_nat_embedding c), He. done. }
  unfold decimal_value. cbn [decimal_value_from String.length].
  replace (S (String.length s) - 1)%nat with (String.length s) by lia.
  pose proof (decimal_value_from_bounds
                (10 * 0 + (Z.of_nat (nat_of_ascii c) - 48)) s ltac:(lia) Hd).
  nia.
Qed.

Lemma month_two_digits m :
  0 <= m <= 11 → padStart0 2 (Number_toString (m + 1)) = two_digits (m + 1).
Proof.
  intros Hm.
  assert (m = 0 ∨ m = 1 ∨ m = 2 ∨ m = 3 ∨ m = 4 ∨ m = 5 ∨ m = 6 ∨ m = 7 ∨
          m = 8 ∨ m = 9 ∨ m = 10 ∨ m = 11) as H by lia.
  repeat (destruct H as [->|H]; [reflexivity|]). by subst.
Qed.

Lemma isInteger_denotes q :
  Number_isInteger (JNumber (Finite q)) = true ↔
  ∃ n, denotes (JNumber (Finite q)) n.
Proof.
  simpl. unfold QArith_base.Qeq. simpl. rewrite Z.eqb_eq. split.
  - intros Hm. exists (QArith_base.Qnum q / Zpos (QArith_base.Qden q)).
    pose proof (Z.div_mod (QArith_base.Qnum q) (Zpos (QArith_base.Qden q))). lia.
  - intros [n Hn]. rewrite Z.mul_1_r in Hn. rewrite Hn.
    apply Z.mod_mul. lia.
Qed.

Lemma denotes_value q n :
  denotes (JNumber (Finite q)) n →
  integer_value q = n ∧ (QArith_base.Qnum q <= 0 ↔ n <= 0).
Proof.
  simpl. unfold QArith_base.Qeq, integer_value. simpl. rewrite Z.mul_1_r. intros ->.
  split; [apply Z.div_mul; lia|]. nia.
Qed.

(** On the safe integers [toString] prints the decimal digits. *)
Lemma Number_toString_nonneg n :
  0 <= n <= MAX_SAFE_INTEGER → Number_toString n = digits n.
Proof.
  intros Hn. unfold Number_toString, print_magnitude, MAX_SAFE_INTEGER in *.
  destruct (Z.ltb_spec n 0); [lia|].
  destruct (Z.ltb_spec n (2 ^ 53)); [done|lia].
Qed.

Lemma year_two_digits y :
  10 <= y <= 275760 → slice_last2 (Number_toString y) = two_digits y.
Proof.
  intros Hy.
  rewrite Number_toString_nonneg by (unfold MAX_SAFE_INTEGER; lia).
  destruct Hy as [Hy _].
  destruct (digits_spec y ltac:(lia)) as (_ & _ & _ & _ & _ & Hp).
  destruct (Hp Hy) as [pre ->]. apply slice_last2_app.
Qed.

Lemma padded_number n :
  0 < n → n <= MAX_SAFE_INTEGER →
  let N := padStart0 6 (Number_toString n) in
  digits_only N ∧ decimal_value N = n ∧
  (n <= 999999 → String.length N = 6%nat) ∧
  (999999 < n →
     N = Number_toString n ∧ (6 < String.length N)%nat ∧ ¬ leading_zero N).
Proof.
  intros Hn Hsafe N. subst N. rewrite Number_toString_nonneg by lia.
  destruct (digits_spec n ltac:(lia)) as (pre & Heq & Hd & Hv & Hl & _).
  specialize (Hl Hn).
  assert (Hne : digits n ≠ "").
  { rewrite Heq. by destruct pre. }
  pose proof (decimal_value_lower _ Hd Hl Hne) as Hlow.
  pose proof (decimal_value_from_bounds 0 _ ltac:(lia) Hd) as Hup.
  fold (decimal_value (digits n)) in Hup. rewrite Hv in Hlow, Hup.
  split_and!.
  - unfold padStart0. apply digits_only_app. split; [apply zeros_digits|done].
  - unfold padStart0. by rewrite zeros_value.
  - intros Hle. rewrite padStart0_length.
    assert (String.length (digits n) <= 6)%nat; [|lia].
    destruct (le_lt_dec (String.length (digits n)) 6) as [|Hgt]; [done|].
    assert (10 ^ 6 <= 10 ^ Z.of_nat (String.length (digits n) - 1)).
    { apply Z.pow_le_mono_r; lia. }
    lia.
  - intros Hgt.
    assert (6 < String.length (digits n))%nat as Hlen.
    { destruct (le_lt_dec (String.length (digits n)) 6) as [Hle|]; [|done].
      assert (10 ^ Z.of_nat (String.length (digits n)) <= 10 ^ 6).
      { apply Z.pow_le_mono_r; lia. }
      lia. }
    rewrite padStart0_short by lia. done.
Qed.

(** C10 as it holds on the code.  [formatOrderNumber] throws
    [Error('Input must be a positive integer')] exactly when its argument is
    not a positive integer, and throws nothing else.  For a positive integer
    [n] up to [Number.MAX_SAFE_INTEGER] it returns ["ORD-"], the last two
    digits of the year, the month as two digits, a hyphen, and a string of
    decimal digits that denotes [n]: six characters long when
    [n <= 999999], and the plain decimal representation of [n] (more than
    six characters, no leading zero) above.  The year is one a [Date] can
    have, with two digits at least. *)
Theorem formatOrderNumber_spec (now : Date) (v : jsvalue) :
  10 <= getFullYear now <= 275760 → 0 <= getMonth now <= 11 →
  (formatOrderNumber now v = Abrupt (VError "Input must be a positive integer")
     ↔ ¬ positive_integer v) ∧
  (∀ e, formatOrderNumber now v = Abrupt e →
        e = VError "Input must be a positive integer") ∧
  (∀ n, 0 < n → n <= MAX_SAFE_INTEGER → denotes v n →
     ∃ N,
       formatOrderNumber now v =
         Normal ("ORD-" +:+ two_digits (getFullYear now) +:+
                 two_digits (getMonth now + 1) +:+ "-" +:+ N) ∧
       digits_only N ∧ decimal_value N = n ∧
       (n <= 999999 → String.length N = 6%nat) ∧
       (999999 < n →
          N = Number_toString n ∧ (6 < String.length N)%nat ∧
          ¬ leading_zero N)).
Proof.
  intros Hy Hm.
  assert (Hnot : ∀ v', (∀ n, ¬ denotes v' n) → ¬ positive_integer v').
  { intros v' H (n & _ & Hn). by apply (H n). }
  destruct v as [| |b|str|[|b|q]|];
    try (split_and!; [split; [intros _; apply Hnot; intros n H; exact H|done]
                     |by intros e [= <-]
                     |intros n _ _ H; destruct H]).
  unfold formatOrderNumber.
  destruct (negb (Number_isInteger (JNumber (Finite q))) || (QArith_base.Qnum q <=? 0)%Z)
    eqn:Hc.
  - assert (¬ positive_integer (JNumber (Finite q))) as Hnp.
    { intros (n & Hn & Hd). apply orb_true_iff in Hc as [Hc|Hc].
      - apply negb_true_iff in Hc.
        assert (Number_isInteger (JNumber (Finite q)) = true)
          by (apply isInteger_denotes; eauto).
        congruence.
      - apply Z.leb_le in Hc. apply denotes_value in Hd as [_ Hd]. lia. }
    split_and!; [done|by intros e [= <-]|].
    intros n Hn _ Hd. destruct Hnp. by exists n.
  - apply orb_false_iff in Hc as [Hi Hpos].
    apply negb_false_iff in Hi. apply Z.leb_gt in Hpos.
    pose proof Hi as [n0 Hd0]%isInteger_denotes.
    pose proof (denotes_value _ _ Hd0) as [Hv0 Hs0].
    split_and!.
    + split; [done|]. intros Hnp. destruct Hnp. exists n0. split; [lia|done].
    + done.
    + intros n Hn Hsafe Hd. pose proof (denotes_value _ _ Hd) as [Hv _].
      rewrite Hv, year_two_digits, month_two_digits by done.
      eexists. split; [done|]. by apply padded_number.
Qed.

End FormatProofs.


(** * Keys do not block each other *)

Section Concurrency.
Context {W : Type}.
Implicit Types (s : State W) (k : key) (l : loc) (evs : list (event W)).

Lemma key_view_eq k s s' :
  queues s' !! k = queues s !! k →
  backlog k s' = backlog k s →
  workers_of k s' = workers_of k s →
  (k ∈ processing s' ↔ k ∈ processing s) →
  key_view k s' = key_view k s.
Proof.
  intros Hq Hb Hw Hp. unfold key_view. rewrite Hq, Hb, Hw.
  by rewrite (bool_decide_ext _ _ Hp).
Qed.

(** A turn of one key leaves every other key as it was, and emits events
    of its own key only. *)
Lemma step_frame s ev s' kA kB :
  Inv s → step s ev = Some s' → turn_key s ev = Some kA → kA ≠ kB →
  key_view kB s' = key_view kB s ∧
  ∃ d, trace s' = trace s ++ d ∧ Forall (λ o, obs_key o = kA) d.
Proof.
  intros HI Hstep Hk Hne.
  pose proof HI as (Hreg & Hh & Hrest & Hrep).
  destruct ev as [k op|h o|h]; simpl in *.
  - injection Hk as ->. injection Hstep as <-.
    pose proof (Hrest kA) as Hr. unfold key_rest in Hr.
    destruct (queues s !! kA) as [l|] eqn:Hl.
    + destruct Hr as [Hp _]. rewrite (enqueue_busy kA op s l) by done.
      split; [|eexists; split; [done|by repeat constructor]].
      apply key_view_eq; simpl; [done| |done|done].
      by apply (backlog_set_arrays_other kB kA l _ s).
    + destruct Hr as [Hp _]. rewrite (enqueue_fresh kA op s) by done.
      destruct Hreg as [Hinj Hb].
      set (pre := mkState _ _ _ _ _ _ _ _).
      destruct (install_frame kA (next_loc s)
                  (drain_result kA (next_loc s)
                     [Entry op (next_handle s)] (world s)) pre kB)
        as (H1 & H2 & H3 & H4).
      { split; simpl.
        - intros k1 k2 l. rewrite !lookup_insert.
          repeat case_decide; subst; try done.
          + intros [= <-] H2. apply Hb in H2. lia.
          + intros H1 [= <-]. apply Hb in H1. lia.
          + apply Hinj.
        - intros k1 l. rewrite lookup_insert. case_decide.
          + intros [= <-]. lia.
          + intros H1%Hb. lia. }
      { simpl. by rewrite lookup_insert_eq. }
      { done. }
      { intros wk Hpk. by apply drain_result_parked in Hpk as [? _]. }
      split.
      * apply key_view_eq; rewrite ?H1, ?H2, ?H3, ?H4; subst pre; simpl.
        -- by rewrite lookup_insert_ne.
        -- unfold backlog, array_at. simpl. rewrite lookup_insert_ne by done.
           destruct (queues s !! kB) as [l'|] eqn:Hl'; [|done].
           apply Hb in Hl'. by rewrite lookup_insert_ne by lia.
        -- done.
        -- set_solver.
      * eexists. split; [simpl; by rewrite <-app_assoc|].
        repeat constructor. apply drain_result_events.
  - unfold progress in Hstep.
    destruct (pick h (suspended s)) as [[wk rest]|] eqn:Hp; [|done].
    injection Hk as <-.
    pose proof Hp as (Hwh & ws1 & ws2 & Hs & ->)%pick_Some.
    destruct (wk_awaiting wk) as [| |resume]; try done.
    injection Hstep as <-. split; [|exists []; by rewrite app_nil_r].
    apply key_view_eq; simpl; [done|done| |done].
    unfold workers_of. simpl. rewrite filter_app.
    rewrite filter_cons_False, app_nil_r by done.
    rewrite Hs. by apply filter_remove_other.
  - destruct (pick h (suspended s)) as [[wk rest]|] eqn:Hp;
      [|by unfold wake in Hstep; rewrite Hp in Hstep].
    injection Hk as <-.
    pose proof Hp as (Hwh & ws1 & ws2 & Hs & Hrest')%pick_Some.
    destruct (suspended_worker s wk ws1 ws2 Hs (Hrest _)) as (Hq & Hpr & Hf).
    assert (Hmatch : ∃ o, match wk_awaiting wk with
                          | Resolved v => o = Fulfilled v
                          | Failed e => o = Rejected e
                          | Pending _ => False
                          end).
    { unfold wake in Hstep. rewrite Hp in Hstep.
      destruct (wk_awaiting wk); try done; eauto. }
    destruct Hmatch as [o Ho].
    rewrite (wake_spec h s wk rest o Hp Ho) in Hstep. injection Hstep as <-.
    cbn zeta.
    destruct (install_frame (wk_tenantId wk) (wk_queue wk)
                (drain_result (wk_tenantId wk) (wk_queue wk)
                   (array_at (wk_queue wk) s) (world s))
                (emit (Settled (wk_tenantId wk) h o) (set_suspended rest s)) kB)
      as (H1 & H2 & H3 & H4); [done|done|done| |].
    { intros wk' Hpk. by apply drain_result_parked in Hpk as [? _]. }
    split.
    + apply key_view_eq; rewrite ?H1, ?H2, ?H3, ?H4; try done.
      unfold workers_of. simpl. rewrite Hrest', Hs.
      by apply filter_remove_other.
    + eexists. split; [simpl; by rewrite <-app_assoc|].
      repeat constructor. apply drain_result_events.
Qed.

Lemma same_key_view_alone k s :
  Inv s → same_key_view k (trace s) s (alone k s).
Proof.
  intros (_ & _ & Hrest & _). specialize (Hrest k).
  unfold same_key_view, alone, backlog, key_rest in *. simpl.
  rewrite app_nil_r.
  destruct (queues s !! k) as [l|] eqn:Hl.
  - rewrite lookup_singleton_eq. split_and!; try done. set_solver.
  - rewrite lookup_empty. split_and!; try done. set_solver.
Qed.

Lemma enqueue_idle_takes_time k v s :
  queues s !! k = None → k ∉ processing s →
  fst (enqueue k (takes_time v) s) =
    mkState (<[k := next_loc s]> (queues s)) (<[next_loc s := []]> (arrays s))
            ({[k]} ∪ processing s)
            (suspended s ++
               [Worker k (next_loc s) (next_handle s)
                       (Pending (λ _ w', (w', Resolved v)))])
            (world s) (S (next_handle s)) (S (next_loc s))
            (trace s ++ [Submitted k (next_handle s); WorkerStart k;
                         Started k (next_handle s)]).
Proof.
  intros Hq Hp. rewrite enqueue_fresh by done.
  unfold drain_result, install. simpl.
  by rewrite insert_insert_eq, <-app_assoc.
Qed.

Lemma pick_app h (ws1 ws2 : list (worker W)) w :
  (∀ w', w' ∈ ws1 → wk_handle w' ≠ h) → wk_handle w = h →
  pick h (ws1 ++ w :: ws2) = Some (w, ws1 ++ ws2).
Proof.
  intros Hn Hw. induction ws1 as [|w1 ws1 IH]; simpl.
  - by rewrite decide_True.
  - rewrite decide_False by (apply Hn; by left).
    rewrite IH; [done|]. intros w' Hin. apply Hn. by right.
Qed.

Lemma worker_handle_bound s wk :
  Inv s → wk ∈ suspended s → wk_handle wk < next_handle s.
Proof.
  intros (Hreg & (Hb & _) & Hrest & Hrep) Hin.
  apply list_elem_of_split in Hin as (xs1 & xs2 & Hx).
  pose proof (Hrest (wk_tenantId wk)) as Hr.
  destruct (suspended_worker s wk xs1 xs2 Hx Hr) as (Hq & _).
  unfold key_rest in Hr. rewrite Hq in Hr.
  destruct Hr as (_ & h0 & p0 & Hw). pose proof Hw as Hw'.
  unfold workers_of in Hw'. rewrite Hx in Hw'.
  apply filter_singleton_split in Hw' as [Hwk _]; [|done].
  rewrite <-Hwk in Hw. apply (Hb (wk_tenantId wk)).
  destruct (kreplay_lists _ _ _ (Hrep (wk_tenantId wk))) as (-> & -> & _).
  simpl. unfold in_flight. rewrite Hw. simpl. set_solver.
Qed.

(** A turn stamps what it appended to the trace. *)
Lemma stamp_appended {A} (t : nat) (tr d : list A) :
  (λ o, (t, o)) <$> drop (length tr) (tr ++ d) = (λ o, (t, o)) <$> d.
Proof. by rewrite drop_app_length. Qed.

Lemma run_clocked_cons s ev s' d t sch s'' st st' :
  step s ev = Some s' →
  trace s' = trace s ++ d →
  st' = ((λ o, (t, o)) <$> d) ++ st →
  run_clocked s' sch = Some (s'', st) →
  run_clocked s ((t, ev) :: sch) = Some (s'', st').
Proof.
  intros Hs Ht -> Hr. simpl. rewrite Hs, Hr, Ht. by rewrite stamp_appended.
Qed.

Lemma progress_at s h o ws1 ws2 k l resume :
  suspended s = ws1 ++ Worker k l h (Pending resume) :: ws2 →
  (∀ w', w' ∈ ws1 → wk_handle w' ≠ h) →
  progress h o s =
    Some (set_suspended
            ((ws1 ++ ws2) ++ [Worker k l h (snd (resume o (world s)))])
            (set_world (fst (resume o (world s))) s)).
Proof.
  intros Hs Hn. unfold progress. rewrite Hs, (pick_app h ws1 ws2) by done.
  done.
Qed.

Lemma wake_at s h ws1 ws2 k l v :
  suspended s = ws1 ++ Worker k l h (Resolved v) :: ws2 →
  (∀ w', w' ∈ ws1 → wk_handle w' ≠ h) →
  array_at l s = [] →
  wake h s =
    Some (mkState (delete k (queues s)) (arrays s) (processing s ∖ {[k]})
                  (ws1 ++ ws2) (world s) (next_handle s) (next_loc s)
                  (trace s ++ [Settled k h (Fulfilled v); WorkerExit k])).
Proof.
  intros Hs Hn Ha.
  rewrite (wake_spec h s (Worker k l h (Resolved v)) (ws1 ++ ws2) (Fulfilled v)).
  - simpl. rewrite Ha. unfold drain_result, install. simpl.
    by rewrite app_nil_r, <-app_assoc.
  - rewrite Hs. by apply pick_app.
  - done.
Qed.

Lemma three_keys_run s k1 k2 k3 v1 v2 v3 t d :
  Inv s →
  k1 ≠ k2 → k1 ≠ k3 → k2 ≠ k3 →
  queues s !! k1 = None → queues s !! k2 = None → queues s !! k3 = None →
  let h := next_handle s in
  ∃ s',
    run_clocked s (three_keys k1 k2 k3 v1 v2 v3 h t d) =
      Some (s',
        [(t, Submitted k1 h); (t, WorkerStart k1); (t, Started k1 h);
         (t, Submitted k2 (S h)); (t, WorkerStart k2); (t, Started k2 (S h));
         (t, Submitted k3 (S (S h))); (t, WorkerStart k3);
         (t, Started k3 (S (S h)));
         (t + d, Settled k1 h (Fulfilled v1)); (t + d, WorkerExit k1);
         (t + d, Settled k2 (S h) (Fulfilled v2)); (t + d, WorkerExit k2);
         (t + d, Settled k3 (S (S h)) (Fulfilled v3)); (t + d, WorkerExit k3)]).
Proof.
  intros HI H12 H13 H23 Hq1 Hq2 Hq3 h.
  pose proof HI as (Hreg & Hh & Hrest & Hrep).
  assert (Hidle : ∀ k, queues s !! k = None → k ∉ processing s).
  { intros k Hq. specialize (Hrest k). unfold key_rest in Hrest.
    rewrite Hq in Hrest. tauto. }
  assert (Hfresh : ∀ w n, w ∈ suspended s → wk_handle w ≠ n + h).
  { intros w n Hin. pose proof (worker_handle_bound _ _ HI Hin). lia. }
  set (l := next_loc s).
  set (w2 (p : promise W) := Worker k2 (S l) (S h) p).
  set (w3 (p : promise W) := Worker k3 (S (S l)) (S (S h)) p).
  assert (Hne : ∀ (ws : list (worker W)) n,
            (∀ w, w ∈ ws → w ∈ suspended s ∨ ∃ m, m ≠ n ∧ wk_handle w = m + h) →
            ∀ w, w ∈ ws → wk_handle w ≠ n + h).
  { intros ws n Hws w Hin. destruct (Hws w Hin) as [?|(m & ? & ->)]; [auto|lia]. }
  eexists. unfold three_keys.
  (* the three submissions, at time [t] *)
  eapply (run_clocked_cons _ _ _ [Submitted k1 h; WorkerStart k1; Started k1 h]);
    [simpl; apply (f_equal Some); by apply enqueue_idle_takes_time, Hidle
    |done|simpl; reflexivity|].
  eapply (run_clocked_cons _ _ _
            [Submitted k2 (S h); WorkerStart k2; Started k2 (S h)]);
    [simpl; apply (f_equal Some); apply enqueue_idle_takes_time; simpl;
       [by rewrite lookup_insert_ne|pose proof (Hidle k2 Hq2); set_solver]
    |done|simpl; reflexivity|].
  eapply (run_clocked_cons _ _ _
            [Submitted k3 (S (S h)); WorkerStart k3; Started k3 (S (S h))]);
    [simpl; apply (f_equal Some); apply enqueue_idle_takes_time; simpl;
       [by rewrite !lookup_insert_ne|pose proof (Hidle k3 Hq3); set_solver]
    |done|simpl; reflexivity|].
  cbn [queues arrays processing suspended world next_handle next_loc trace].
  fold l h.
  (* the first timer expires and its worker resumes, at time [t + d] *)
  eapply (run_clocked_cons _ _ _ []);
    [simpl; eapply (progress_at _ _ _ (suspended s) [w2 _; w3 _] k1 l);
       [simpl; by rewrite <-!app_assoc|intros w' Hin; apply (Hfresh w' 0 Hin)]
    |simpl; by rewrite app_nil_r|simpl; reflexivity|].
  eapply (run_clocked_cons _ _ _ [Settled k1 h (Fulfilled v1); WorkerExit k1]);
    [simpl; eapply (wake_at _ _ (suspended s ++ [w2 _; w3 _]) [] k1 l);
       [simpl; reflexivity
       |apply (Hne _ 0); intros w [?|Hin]%elem_of_app; [by left|right];
          apply elem_of_cons in Hin as [->|Hin];
          [by exists 1|apply list_elem_of_singleton in Hin as ->; by exists 2]
       |unfold array_at; simpl;
          rewrite !lookup_insert_ne, lookup_insert_eq by lia; done]
    |done|simpl; reflexivity|].
  cbn [queues arrays processing suspended world next_handle next_loc trace
       set_suspended set_world].
  rewrite app_nil_r.
  (* the second *)
  eapply (run_clocked_cons _ _ _ []);
    [simpl; eapply (progress_at _ _ _ (suspended s) [w3 _] k2 (S l));
       [simpl; reflexivity|intros w' Hin; apply (Hfresh w' 1 Hin)]
    |simpl; by rewrite app_nil_r|simpl; reflexivity|].
  eapply (run_clocked_cons _ _ _
            [Settled k2 (S h) (Fulfilled v2); WorkerExit k2]);
    [simpl; eapply (wake_at _ _ (suspended s ++ [w3 _]) [] k2 (S l));
       [simpl; reflexivity
       |apply (Hne _ 1); intros w [?|Hin]%elem_of_app; [by left|right];
          apply list_elem_of_singleton in Hin as ->; by exists 2
       |unfold array_at; simpl;
          rewrite !lookup_insert_ne, lookup_insert_eq by lia; done]
    |done|simpl; reflexivity|].
  cbn [queues arrays processing suspended world next_handle next_loc trace
       set_suspended set_world].
  rewrite app_nil_r.
  (* the third *)
  eapply (run_clocked_cons _ _ _ []);
    [simpl; eapply (progress_at _ _ _ (suspended s) [] k3 (S (S l)));
       [simpl; reflexivity|intros w' Hin; apply (Hfresh w' 2 Hin)]
    |simpl; by rewrite app_nil_r|simpl; reflexivity|].
  eapply (run_clocked_cons _ _ _
            [Settled k3 (S (S h)) (Fulfilled v3); WorkerExit k3]);
    [simpl; eapply (wake_at _ _ (suspended s ++ []) [] k3 (S (S l)));
       [simpl; reflexivity
       |apply (Hne _ 2); intros w [?|Hin]%elem_of_app; [by left|];
          by apply elem_of_nil in Hin
       |unfold array_at; simpl; rewrite lookup_insert_eq; done]
    |done|simpl; reflexivity|].
  done.
Qed.

(** C9.  Operations under distinct keys do not wait for each other.  In a
    reachable state, a turn of one key leaves the registry entry, backlog,
    worker and processing mark of every other key as they were and emits
    events of its own key only; the turns of a key run as they would if the
    key were alone in the queue, with the same events, world and state of
    that key; an operation submitted under an idle key is started in the
    turn of its submission, whatever the other keys hold.  On the virtual
    clock: three operations that take [d] each, submitted at time [t] under
    three distinct idle keys, are all started at [t], so each timer expires
    at [t + d], and all three handles are settled at [t + d] with the values
    of their operations. *)
Theorem distinct_keys_do_not_block (w : W) evs s :
  run (init w) evs = Some s →
  (∀ ev s' kA kB,
     step s ev = Some s' → turn_key s ev = Some kA → kA ≠ kB →
     key_view kB s' = key_view kB s ∧
     ∃ d, trace s' = trace s ++ d ∧ Forall (λ o, obs_key o = kA) d) ∧
  (∀ kB evsB sB,
     Forall (on_key kB) evsB → run (alone kB s) evsB = Some sB →
     ∃ s1, run s evsB = Some s1 ∧ same_key_view kB (trace s) s1 sB) ∧
  (∀ kB op,
     queues s !! kB = None →
     ∃ d, trace (fst (enqueue kB op s)) =
          trace s ++ Submitted kB (next_handle s) :: WorkerStart kB ::
                     Started kB (next_handle s) :: d) ∧
  (∀ k1 k2 k3 v1 v2 v3 t d,
     k1 ≠ k2 → k1 ≠ k3 → k2 ≠ k3 →
     queues s !! k1 = None → queues s !! k2 = None → queues s !! k3 = None →
     let h := next_handle s in
     ∃ s' stamped,
       run_clocked s (three_keys k1 k2 k3 v1 v2 v3 h t d) = Some (s', stamped) ∧
       start_time h stamped = Some t ∧
       start_time (S h) stamped = Some t ∧
       start_time (S (S h)) stamped = Some t ∧
       settle_time h stamped = Some (t + d, Fulfilled v1) ∧
       settle_time (S h) stamped = Some (t + d, Fulfilled v2) ∧
       settle_time (S (S h)) stamped = Some (t + d, Fulfilled v3)).
Proof.
  intros Hrun. pose proof (reachable_inv _ _ _ Hrun) as HI.
  split_and!.
  - intros ev s' kA kB. by apply step_frame.
  - intros kB evsB sB Hon HrB.
    eapply same_key_view_run; [done| |done|done].
    by apply same_key_view_alone.
  - intros kB op Hq.
    destruct HI as (_ & _ & Hrest & _). specialize (Hrest kB).
    unfold key_rest in Hrest. rewrite Hq in Hrest. destruct Hrest as [Hp _].
    rewrite enqueue_fresh by done. simpl. unfold drain_result. simpl.
    rewrite <-app_assoc. simpl.
    destruct (snd (op (world s))); simpl; eauto.
  - intros k1 k2 k3 v1 v2 v3 t d H12 H13 H23 Hq1 Hq2 Hq3 h.
    destruct (three_keys_run s k1 k2 k3 v1 v2 v3 t d HI H12 H13 H23 Hq1 Hq2 Hq3)
      as [s' Hr].
    eexists _, _. split; [exact Hr|].
    unfold start_time, settle_time. simpl. subst h.
    repeat (case_decide; try lia). done.
Qed.

End Concurrency.

(** * The reset job *)

Import Job.

Section JobProofs.
Context {D : Type}.
Implicit Types (s : State (jworld D)) (k : key) (l : loc)
               (J : handle → Prop) (w : jworld D).

Lemma drain_result_nil k l w :
  drain_result k l [] w = Drained w [WorkerExit k] None None.
Proof. done. Qed.

Lemma drain_result_cons k l (e : entry (jworld D)) q w :
  drain_result k l (e :: q) w =
    match snd (entry_operation e w) with
    | Threw err =>
        let d := drain_result k l q (fst (entry_operation e w)) in
        Drained (d_world d)
                (Started k (entry_handle e) ::
                 Settled k (entry_handle e) (Rejected err) :: d_events d)
                (Some (default q (d_array d))) (d_parked d)
    | Returned p =>
        Drained (fst (entry_operation e w)) [Started k (entry_handle e)]
                (Some q) (Some (Worker k l (entry_handle e) p))
    end.
Proof. done. Qed.

Lemma calm_after_reset : calm (Pending (@after_reset D)).
Proof. intros [v|e] w; simpl; done. Qed.

(** One run of the loop, seen from the job. *)
Lemma drain_result_job c0 J k l q w :
  Forall (entry_ok J) q →
  resetAllCounters_calls w = c0 + (if resetExecuted w then 1 else 0) →
  (resetExecuted w = true → ∃ h, J h) →
  let d := drain_result k l q w in
  resetAllCounters_calls (d_world d) =
    c0 + (if resetExecuted (d_world d) then 1 else 0) ∧
  (∀ wk, d_parked d = Some wk → calm (wk_awaiting wk)) ∧
  (∀ a e, d_array d = Some a → e ∈ a → e ∈ q) ∧
  (resetExecuted (d_world d) = false →
     resetExecuted w = false ∧
     ∀ e, e ∈ q → J (entry_handle e) →
          is_Some (d_parked d) ∧ ∃ a, d_array d = Some a ∧ e ∈ a) ∧
  (resetExecuted (d_world d) = true → ∃ h, J h).
Proof.
  revert w. induction q as [|e q IH]; intros w Hq Hc Hf.
  { rewrite drain_result_nil. simpl. split_and!; try done.
    intros Hfl. split; [done|]. by intros e ?%elem_of_nil. }
  apply Forall_cons in Hq as [He Hq].
  rewrite drain_result_cons.
  destruct He as [[HJ Hop]|[HnJ Hop]].
  - (* an entry of the job *)
    rewrite Hop. unfold reset_operation.
    destruct (resetExecuted w) eqn:Hfl; simpl.
    + rewrite Hfl. split_and!.
      * done.
      * by intros wk [= <-].
      * intros a e' [= <-] Hin. by right.
      * done.
      * intros _. by exists (entry_handle e).
    + split_and!.
      * lia.
      * intros wk [= <-]. apply calm_after_reset.
      * intros a e' [= <-] Hin. by right.
      * done.
      * intros _. by exists (entry_handle e).
  - (* other traffic *)
    destruct (Hop w) as [[Hk1 Hk2] Hcalm].
    destruct (snd (entry_operation e w)) as [err|p] eqn:Hr.
    + destruct (IH (fst (entry_operation e w)) Hq) as (P1 & P2 & P3 & P4 & P5).
      { by rewrite Hk1, Hk2. }
      { by rewrite Hk1. }
      cbn zeta. simpl. split_and!.
      * done.
      * done.
      * intros a e' [= <-] Hin. right.
        destruct (d_array _) as [a|] eqn:Ha; simpl in Hin; [eauto|done].
      * intros Hfl. destruct (P4 Hfl) as [Hw Hall]. rewrite Hk1 in Hw.
        split; [done|]. intros e' [->|Hin]%elem_of_cons HJ; [done|].
        destruct (Hall e' Hin HJ) as (Hpk & a & Ha & Hina).
        split; [done|]. exists a. by rewrite Ha.
      * done.
    + simpl. split_and!.
      * by rewrite Hk1, Hk2.
      * by intros wk [= <-].
      * intros a e' [= <-] Hin. by right.
      * rewrite Hk1. intros Hfl. split; [done|].
        intros e' [->|Hin]%elem_of_cons HJ; [done|]. split; [done|]. eauto.
      * by rewrite Hk1.
Qed.

Lemma inv_set_world s w : Inv s → Inv (set_world w s).
Proof. done. Qed.

Lemma backlog_handle_bound s k (e : entry (jworld D)) :
  Inv s → e ∈ backlog k s → entry_handle e < next_handle s.
Proof.
  intros (_ & (Hb & _) & _ & Hrep) Hin. apply (Hb k).
  destruct (kreplay_lists _ _ _ (Hrep k)) as (-> & _). simpl.
  apply elem_of_app. right. by apply list_elem_of_fmap_2.
Qed.

Lemma install_backlog_self k l (d : drained (jworld D)) s :
  queues s !! k = Some l →
  backlog k (install k l d s) =
    match d_parked d with
    | Some _ => match d_array d with
                | Some a => a
                | None => array_at l s
                end
    | None => []
    end.
Proof.
  intros Hq. unfold backlog, install, array_at. simpl.
  destruct (d_parked d); [rewrite Hq|by rewrite lookup_delete_eq].
  destruct (d_array d); [by rewrite lookup_insert_eq|done].
Qed.

Lemma entry_ok_mono J J' nh (e : entry (jworld D)) :
  (∀ h, J h → J' h) → (∀ h, J' h → J h ∨ h = nh) →
  entry_handle e < nh → entry_ok J e → entry_ok J' e.
Proof.
  intros H1 H2 Hlt [[HJ Hop]|[HnJ Hop]]; [left; auto|right].
  split; [|done]. intros [?|?]%H2; [done|lia].
Qed.

(** The run of the loop on a running state keeps the invariant of the job. *)
Lemma job_inv_install c0 J k l s :
  job_inv c0 J s → registry_ok s → queues s !! k = Some l →
  job_inv c0 J (install k l (drain_result k l (array_at l s) (world s)) s).
Proof.
  intros (Ha & Hb & Hc & Hd & Hf & He) Hreg Hq.
  assert (Hbk : backlog k s = array_at l s) by (unfold backlog; by rewrite Hq).
  assert (Hall : Forall (entry_ok J) (array_at l s)).
  { apply Forall_forall. intros e Hin. apply (Hb k). by rewrite Hbk. }
  destruct (drain_result_job c0 J k l _ (world s) Hall Ha Hf)
    as (P1 & P2 & P3 & P4 & P5).
  set (d := drain_result k l (array_at l s) (world s)) in *.
  assert (Hpk : ∀ wk, d_parked d = Some wk → wk_tenantId wk = k).
  { intros wk Hwk. by apply drain_result_parked in Hwk as [? _]. }
  assert (Hself := install_backlog_self k l d s Hq).
  split_and!.
  - done.
  - intros k0 e. destruct (decide (k0 = k)) as [->|Hne].
    + rewrite Hself. destruct (d_parked d); [|by intros ?%elem_of_nil].
      destruct (d_array d) as [a|] eqn:Ha'; intros Hin; apply (Hb k);
        rewrite Hbk; eauto.
    + destruct (install_frame k l d s k0 Hreg Hq Hne Hpk) as (_ & -> & _).
      apply Hb.
  - intros wk [Hin|Hin]%elem_of_app; [by apply Hc|].
    simpl in Hin. destruct (d_parked d) as [wk'|] eqn:Hw; simpl in Hin;
      [|by apply elem_of_nil in Hin].
    apply list_elem_of_singleton in Hin as ->. by apply P2.
  - intros Hfl h Hh. destruct (P4 Hfl) as [Hw Hkeep].
    destruct (Hd Hw h Hh) as [k0 Hin].
    destruct (decide (k0 = k)) as [->|Hne].
    + exists k. rewrite Hbk in Hin.
      apply list_elem_of_fmap in Hin as (e & -> & Hin).
      destruct (Hkeep e Hin Hh) as ([wk Hwk] & a & Ha' & Hina).
      rewrite Hself, Hwk, Ha'. by apply list_elem_of_fmap_2.
    + exists k0.
      by destruct (install_frame k l d s k0 Hreg Hq Hne Hpk) as (_ & -> & _).
  - done.
  - done.
Qed.

Lemma job_inv_enqueue c0 J J' k op s :
  Inv s → job_inv c0 J s →
  (∀ h, J h → J' h) → (∀ h, J' h → J h ∨ h = next_handle s) →
  entry_ok J' (Entry op (next_handle s)) →
  job_inv c0 J' (fst (enqueue k op s)).
Proof.
  intros HI (Ha & Hb & Hc & Hd & Hf & He) H1 H2 Hnew.
  pose proof HI as (Hreg & Hhs & Hrest & Hrep).
  assert (Hold : ∀ k0 e, e ∈ backlog k0 s → entry_ok J' e).
  { intros k0 e Hin. eapply entry_ok_mono; [done|done| |by eapply Hb].
    by eapply backlog_handle_bound. }
  pose proof (Hrest k) as Hr. unfold key_rest in Hr.
  destruct (queues s !! k) as [l|] eqn:Hq.
  - (* appended to the backlog of a busy key *)
    destruct Hr as [Hp _]. rewrite (enqueue_busy k op s l) by done.
    assert (Hbk : ∀ k0,
      backlog k0 (mkState (queues s)
                    (<[l := array_at l s ++ [Entry op (next_handle s)]]>
                       (arrays s))
                    (processing s) (suspended s) (world s)
                    (S (next_handle s)) (next_loc s)
                    (trace s ++ [Submitted k (next_handle s)])) =
      if decide (k0 = k)
      then backlog k s ++ [Entry op (next_handle s)] else backlog k0 s).
    { intros k0. case_decide as Hk; [subst k0|].
      - unfold backlog, array_at. simpl. rewrite Hq.
        by rewrite lookup_insert_eq.
      - by apply (backlog_set_arrays_other k0 k l _ s). }
    split_and!; simpl.
    + done.
    + intros k0 e. rewrite Hbk. case_decide; [|by apply Hold].
      intros [Hin|Hin]%elem_of_app; [by eapply Hold|].
      by apply list_elem_of_singleton in Hin as ->.
    + done.
    + intros Hfl h [Hh| ->]%H2.
      * destruct (Hd Hfl h Hh) as [k0 Hin]. exists k0. rewrite Hbk.
        case_decide; [subst k0|done]. rewrite fmap_app. set_solver.
      * exists k. rewrite Hbk, decide_True by done. rewrite fmap_app.
        set_solver.
    + intros Hfl. destruct (Hf Hfl) as [h Hh]. eauto.
    + intros h [Hh| ->]%H2; [|lia]. apply He in Hh. lia.
  - (* first use of the key: the loop runs on the new array *)
    destruct Hr as [Hp Hw]. rewrite (enqueue_fresh k op s) by done.
    set (pre := mkState _ _ _ _ _ _ _ _).
    assert (Hbk : ∀ k0, backlog k0 pre =
              if decide (k0 = k) then [Entry op (next_handle s)]
              else backlog k0 s).
    { intros k0. subst pre. unfold backlog, array_at. simpl.
      case_decide as Hk; [subst k0|].
      - by rewrite !lookup_insert_eq.
      - rewrite lookup_insert_ne by done.
        destruct (queues s !! k0) as [l'|] eqn:Hl'; [|done].
        destruct Hreg as [_ Hlt]. apply Hlt in Hl'.
        by rewrite lookup_insert_ne by lia. }
    assert (Hpre : job_inv c0 J' pre).
    { split_and!.
      - done.
      - intros k0 e. rewrite Hbk. case_decide; [|by apply Hold].
        by intros ->%list_elem_of_singleton.
      - done.
      - intros Hfl h [Hh| ->]%H2.
        + destruct (Hd Hfl h Hh) as [k0 Hin]. exists k0. rewrite Hbk.
          case_decide; [subst k0|done].
          unfold backlog in Hin. rewrite Hq in Hin.
          by apply elem_of_nil in Hin.
        + exists k. rewrite Hbk, decide_True by done. set_solver.
      - intros Hfl. destruct (Hf Hfl) as [h Hh]. eauto.
      - intros h [Hh| ->]%H2; subst pre; simpl; [|lia]. apply He in Hh. lia. }
    replace [Entry op (next_handle s)] with (array_at (next_loc s) pre).
    2:{ subst pre. unfold array_at. simpl. by rewrite lookup_insert_eq. }
    apply (job_inv_install c0 J' k (next_loc s) pre Hpre).
    + destruct Hreg as [Hinj Hlt]. subst pre. split; simpl.
      * intros k1 k2 l. rewrite !lookup_insert.
        repeat case_decide; subst; try done.
        -- intros [= <-] H2'. apply Hlt in H2'. lia.
        -- intros H1' [= <-]. apply Hlt in H1'. lia.
        -- apply Hinj.
      * intros k1 l. rewrite lookup_insert. case_decide.
        -- intros [= <-]. lia.
        -- intros H1'%Hlt. lia.
    + subst pre. simpl. by rewrite lookup_insert_eq.
Qed.

Lemma job_inv_step c0 J s ev s' :
  Inv s → job_inv c0 J s → other_turn ev → step s ev = Some s' →
  job_inv c0 J s'.
Proof.
  intros HI HJ Hev Hstep.
  pose proof HI as (Hreg & Hh & Hrest & Hrep).
  destruct ev as [k op|h o|h]; simpl in *.
  - injection Hstep as <-. apply (job_inv_enqueue c0 J J); auto.
    right. split; [|done]. intros Hin. simpl in Hin.
    destruct HJ as (_ & _ & _ & _ & _ & He). apply He in Hin. lia.
  - destruct HJ as (Ha & Hb & Hc & Hd & Hf & He).
    unfold progress in Hstep.
    destruct (pick h (suspended s)) as [[wk rest]|] eqn:Hp; [|done].
    pose proof Hp as (Hwh & ws1 & ws2 & Hs & ->)%pick_Some.
    destruct (wk_awaiting wk) as [| |resume] eqn:Haw; try done.
    injection Hstep as <-.
    assert (calm (Pending resume)) as Hcalm.
    { rewrite <-Haw. apply Hc. rewrite Hs. set_solver. }
    specialize (Hcalm o (world s)).
    destruct (resume o (world s)) as [w' p'] eqn:Hr.
    destruct Hcalm as [[Hk1 Hk2] Hp']. simpl.
    split_and!; simpl; rewrite ?Hk1, ?Hk2; try done.
    intros wk' [Hin|Hin]%elem_of_app.
    + apply Hc. rewrite Hs. set_solver.
    + by apply list_elem_of_singleton in Hin as ->.
  - destruct (pick h (suspended s)) as [[wk rest]|] eqn:Hp;
      [|by unfold wake in Hstep; rewrite Hp in Hstep].
    pose proof Hp as (Hwh & ws1 & ws2 & Hs & Hrest')%pick_Some.
    destruct (suspended_worker s wk ws1 ws2 Hs (Hrest _)) as (Hq & Hpr & Hfl).
    assert (Hmatch : ∃ o, match wk_awaiting wk with
                          | Resolved v => o = Fulfilled v
                          | Failed e => o = Rejected e
                          | Pending _ => False
                          end).
    { unfold wake in Hstep. rewrite Hp in Hstep.
      destruct (wk_awaiting wk); try done; eauto. }
    destruct Hmatch as [o Ho].
    rewrite (wake_spec h s wk rest o Hp Ho) in Hstep. injection Hstep as <-.
    cbn zeta.
    apply (job_inv_install c0 J (wk_tenantId wk) (wk_queue wk)
             (emit (Settled (wk_tenantId wk) h o) (set_suspended rest s)));
      [|done|done].
    destruct HJ as (Ha & Hb & Hc & Hd & Hf & He).
    split_and!; try done.
    intros wk' Hin. apply Hc. simpl in Hin. rewrite Hs. subst rest. set_solver.
Qed.

Lemma job_inv_run c0 J evs s s' :
  Inv s → job_inv c0 J s → Forall other_turn evs → run s evs = Some s' →
  Inv s' ∧ job_inv c0 J s'.
Proof.
  revert s. induction evs as [|ev evs IH]; intros s HI HJ Hev; simpl.
  - by intros [= <-].
  - apply Forall_cons in Hev as [Hev Hevs].
    destruct (step s ev) as [s1|] eqn:Hs; [|done].
    apply IH; [by eapply step_inv|by eapply job_inv_step|done].
Qed.

Lemma entry_ok_ext J J' (e : entry (jworld D)) :
  (∀ h, J h ↔ J' h) → entry_ok J e → entry_ok J' e.
Proof. intros H [[? ?]|[? ?]]; [left|right]; split; try done; by rewrite <-H. Qed.

Lemma job_inv_ext c0 J J' s :
  (∀ h, J h ↔ J' h) → job_inv c0 J s → job_inv c0 J' s.
Proof.
  intros H (Ha & Hb & Hc & Hd & Hf & He). split_and!; try done.
  - intros k e Hin. eapply entry_ok_ext; eauto.
  - intros Hfl h Hh. apply (Hd Hfl), H, Hh.
  - intros Hfl. destruct (Hf Hfl) as [h Hh]. exists h. by apply H.
  - intros h Hh. by apply He, H.
Qed.

Lemma drain_result_submissions k l q w :
  submissions (d_events (drain_result k l q w)) = [].
Proof.
  revert w. induction q as [|e q IH]; intros w; [done|].
  rewrite drain_result_cons.
  destruct (snd (entry_operation e w)); simpl; [apply IH|done].
Qed.

Lemma submissions_app t1 t2 :
  submissions (t1 ++ t2) = submissions t1 ++ submissions t2.
Proof. apply omap_app. Qed.

(** What one call of [enqueue] adds to the trace. *)
Lemma enqueue_submission k op s :
  Inv s →
  next_handle (fst (enqueue k op s)) = S (next_handle s) ∧
  ∃ d, trace (fst (enqueue k op s)) = trace s ++ d ∧
       submissions d = [(k, next_handle s)].
Proof.
  intros (_ & _ & Hrest & _). specialize (Hrest k). unfold key_rest in Hrest.
  destruct (queues s !! k) as [l|] eqn:Hq.
  - destruct Hrest as [Hp _]. rewrite (enqueue_busy k op s l) by done.
    simpl. split; [done|]. by eexists.
  - destruct Hrest as [Hp _]. rewrite (enqueue_fresh k op s) by done.
    simpl. split; [done|]. eexists. split; [by rewrite <-app_assoc|].
    rewrite submissions_app, drain_result_submissions. done.
Qed.

(** The turn in which [map] calls [enqueue] for every tenant id. *)
Lemma enqueue_all c0 ids s h0 j :
  next_handle s = h0 + j → Inv s →
  job_inv c0 (λ h, h0 ≤ h < h0 + j) s →
  let s1 := foldl (λ s' tenantId, fst (enqueue tenantId reset_operation s'))
                  s ids in
  Inv s1 ∧ job_inv c0 (λ h, h0 ≤ h < h0 + j + length ids) s1 ∧
  ∃ d, trace s1 = trace s ++ d ∧
       submissions d = zip ids (seq (h0 + j) (length ids)).
Proof.
  revert s j. induction ids as [|k ids IH]; intros s j Hnh HI HJ; simpl.
  { split; [done|]. split.
    - eapply job_inv_ext; [|done]. intros h. simpl. lia.
    - exists []. by rewrite app_nil_r. }
  destruct (enqueue_submission k reset_operation s HI) as (Hnh' & d1 & Ht1 & Hs1).
  destruct (IH (fst (enqueue k reset_operation s)) (S j))
    as (HI2 & HJ2 & d2 & Ht2 & Hs2).
  { rewrite Hnh'. lia. }
  { by apply enqueue_inv. }
  { apply (job_inv_enqueue c0 (λ h, h0 ≤ h < h0 + j)); [done|done| | |].
    - intros h. lia.
    - intros h. lia.
    - left. simpl. split; [lia|done]. }
  split; [done|]. split.
  - eapply job_inv_ext; [|done]. intros h. simpl. lia.
  - exists (d1 ++ d2). rewrite Ht2, Ht1, <-app_assoc. split; [done|].
    rewrite submissions_app, Hs1, Hs2, Hnh. simpl.
    by replace (h0 + S j) with (S (h0 + j)) by lia.
Qed.

Lemma started_not_waiting s k k' h :
  Inv s → h ∈ started k (trace s) → h ∉ entry_handle <$> backlog k' s.
Proof.
  intros (_ & (_ & Hnd & Hown) & _ & Hrep) Hst Hbl.
  destruct (kreplay_lists _ _ _ (Hrep k)) as (Hsub & _).
  destruct (kreplay_lists _ _ _ (Hrep k')) as (Hsub' & _). simpl in *.
  assert (k = k') as <-.
  { apply (Hown _ _ h); [rewrite Hsub|rewrite Hsub']; set_solver. }
  specialize (Hnd k). rewrite Hsub in Hnd.
  apply NoDup_app in Hnd as (_ & Hdis & _). by apply (Hdis h).
Qed.

(** C8.  One run of [resetCounters] calls [enqueue] once for each tenant id,
    in order, and [resetAllCounters] runs at most once, whatever the number
    of tenants and whatever other traffic the queue carries: it has run
    exactly when the flag is set; it has run once any entry of the job has
    been started, hence in every quiescent state when there is at least one
    tenant, and such a state is where the turns of the workers end; it never
    runs when there is none.  An entry of the job that
    finds the flag set returns the stored count without calling
    [resetAllCounters].  When [getAllTenantIds] fails nothing is enqueued. *)
Theorem reset_runs_once (w0 : jworld D) evs0 s0 ids evs s2 :
  run (init w0) evs0 = Some s0 →
  (∀ k e, e ∈ backlog k s0 → other_traffic (entry_operation e)) →
  (∀ wk, wk ∈ suspended s0 → calm (wk_awaiting wk)) →
  Forall other_turn evs →
  run (resetCounters (Normal ids) s0) evs = Some s2 →
  let h0 := next_handle s0 in
  let c0 := resetAllCounters_calls (world s0) in
  (∃ d, trace (resetCounters (Normal ids) s0) = trace s0 ++ d ∧
        submissions d = zip ids (seq h0 (length ids))) ∧
  resetAllCounters_calls (world s2) ≤ c0 + 1 ∧
  (resetAllCounters_calls (world s2) = c0 + 1 ↔
     resetExecuted (world s2) = true) ∧
  ((∃ k h, h0 ≤ h < h0 + length ids ∧ h ∈ started k (trace s2)) →
     resetAllCounters_calls (world s2) = c0 + 1) ∧
  (ids ≠ [] → quiescent s2 → resetAllCounters_calls (world s2) = c0 + 1) ∧
  (ids ≠ [] → ∀ evs' s3,
     Forall other_turn evs' → run s2 evs' = Some s3 →
     (∀ s4, ¬ worker_step s4 s3) →
     resetAllCounters_calls (world s3) = c0 + 1) ∧
  (ids ≠ [] → ∃ evs' s3,
     run s2 evs' = Some s3 ∧ Forall worker_turn evs' ∧ quiescent s3 ∧
     resetAllCounters_calls (world s3) = c0 + 1) ∧
  (ids = [] → resetAllCounters_calls (world s2) = c0) ∧
  (∀ w, resetExecuted w = true →
        reset_operation w = (w, Returned (Resolved (resetCount w)))) ∧
  (∀ e, resetCounters (Abrupt e) s0 = s0).
Proof.
  intros Hrun0 Hother Hcalm Hevs Hrun h0 c0.
  pose proof (reachable_inv _ _ _ Hrun0) as HI0.
  set (s0' := set_world (JWorld (external (world s0)) false (VNum 0)
                                (resetAllCounters_calls (world s0))) s0).
  assert (HJ0 : job_inv c0 (λ h, h0 ≤ h < h0 + 0) s0').
  { split_and!; simpl.
    - subst c0. lia.
    - intros k e Hin. right. split; [lia|]. by apply (Hother k).
    - done.
    - intros _ h. lia.
    - done.
    - intros h. lia. }
  destruct (enqueue_all c0 ids s0' h0 0) as (HI1 & HJ1 & d & Ht & Hsub);
    [simpl; lia|by apply inv_set_world|done|].
  rewrite Nat.add_0_r in Hsub.
  change (foldl _ s0' ids) with (resetCounters (Normal ids) s0) in *.
  destruct (job_inv_run c0 _ evs _ s2 HI1 HJ1 Hevs Hrun) as [HI2 HJ2].
  assert (Hquiet : ∀ s3, Inv s3 →
            job_inv c0 (λ h, h0 ≤ h < h0 + 0 + length ids) s3 →
            ids ≠ [] → quiescent s3 →
            resetAllCounters_calls (world s3) = c0 + 1).
  { intros s3 HI3 (Ha & _ & _ & Hd & _) Hne Hq. rewrite Ha.
    destruct (resetExecuted (world s3)) eqn:Hfl; [done|].
    destruct (Hd eq_refl h0) as [k Hin].
    { destruct ids; [done|]. simpl. lia. }
    assert (backlog k s3 ≠ []) as Hbl.
    { intros Hnil. rewrite Hnil in Hin. by apply elem_of_nil in Hin. }
    destruct (backlog_has_worker s3 k HI3 Hbl) as [_ Hw].
    unfold workers_of in Hw. by rewrite Hq in Hw. }
  pose proof HJ2 as (Ha & Hb & Hc & Hd & Hf & He).
  assert (Hflag : resetExecuted (world s2) = true →
                  resetAllCounters_calls (world s2) = c0 + 1).
  { intros Hfl. by rewrite Ha, Hfl. }
  split_and!.
  - by exists d.
  - rewrite Ha. destruct (resetExecuted (world s2)); lia.
  - rewrite Ha. destruct (resetExecuted (world s2)); split; try done; lia.
  - intros (k & h & Hh & Hst). apply Hflag.
    destruct (resetExecuted (world s2)) eqn:Hfl; [done|].
    destruct (Hd eq_refl h) as [k' Hin]; [lia|].
    by destruct (started_not_waiting s2 k k' h HI2 Hst).
  - intros Hne Hq. by apply Hquiet.
  - intros Hne evs' s3 Hev' Hrun' Hmax.
    destruct (job_inv_run c0 _ evs' _ s3 HI2 HJ2 Hev' Hrun') as [HI3 HJ3].
    apply Hquiet; [done..|].
    destruct (suspended s3) as [|wk' ws'] eqn:Hs3; [done|].
    destruct (worker_enabled s3) as [s4 Hstep]; [|by destruct (Hmax s4)].
    unfold quiescent. by rewrite Hs3.
  - intros Hne.
    destruct (can_quiesce (pending_work s2) s2 HI2)
      as (evs' & s3 & d3 & Hrun' & Hev' & Hq & _); [done|].
    assert (Forall other_turn evs') as Hoth.
    { eapply Forall_impl; [exact Hev'|]. by intros []. }
    destruct (job_inv_run c0 _ evs' _ s3 HI2 HJ2 Hoth Hrun') as [HI3 HJ3].
    exists evs', s3. split_and!; [done..|]. by apply Hquiet.
  - intros ->. rewrite Ha.
    destruct (resetExecuted (world s2)) eqn:Hfl; [|lia].
    destruct (Hf eq_refl) as [h Hh]. simpl in Hh. lia.
  - intros w Hfl. unfold reset_operation. by rewrite Hfl.
  - done.
Qed.

End JobProofs.

(** * Edges of the queue *)

Section Edges.
Context {W : Type}.
Implicit Types (s : State W) (k : key) (l : loc) (evs : list (event W)).










(** What the loop does with one entry whose operation throws at once. *)
Lemma drain_result_throws k l op h (w : W) e :
  snd (op w) = Threw e →
  drain_result k l [Entry op h] w =
    Drained (fst (op w))
            [Started k h; Settled k h (Rejected e); WorkerExit k]
            (Some []) None.
Proof. intros He. unfold drain_result. simpl. by rewrite He. Qed.

(** X2.  An operation that throws before it returns a promise is dealt with
    inside the call of [enqueue] that finds its key idle: the entry is
    submitted, started and rejected with the thrown value, the worker exits,
    and when [enqueue] returns the registry, the processing set and the
    suspended activations are as before the call. *)
Theorem throw_settles_within_enqueue (w : W) evs0 s k op e :
  run (init w) evs0 = Some s → queues s !! k = None →
  snd (op (world s)) = Threw e →
  snd (enqueue k op s) = Normal (next_handle s) ∧
  trace (fst (enqueue k op s)) =
    trace s ++ [Submitted k (next_handle s); WorkerStart k;
                Started k (next_handle s);
                Settled k (next_handle s) (Rejected e); WorkerExit k] ∧
  world (fst (enqueue k op s)) = fst (op (world s)) ∧
  queues (fst (enqueue k op s)) = queues s ∧
  processing (fst (enqueue k op s)) = processing s ∧
  suspended (fst (enqueue k op s)) = suspended s ∧
  next_handle (fst (enqueue k op s)) = S (next_handle s).
Proof.
  intros Hrun Hq He.
  destruct (reachable_inv _ _ _ Hrun) as (_ & _ & Hrest & _).
  specialize (Hrest k). unfold key_rest in Hrest. rewrite Hq in Hrest.
  destruct Hrest as [Hnp Hw].
  split.
  { unfold enqueue. rewrite Hq. simpl. rewrite lookup_insert_eq.
    by case_decide. }
  rewrite (enqueue_fresh k op s Hq Hnp).
  rewrite (drain_result_throws _ _ _ _ _ e He). simpl.
  split_and!; [by rewrite <-app_assoc|done| | |by rewrite app_nil_r|done].
  - by apply delete_insert_id.
  - set_solver.
Qed.

Lemma NoDup_fmap_others {A B} (f : A → B) (xs : list A) :
  (∀ x xs1 xs2, xs = xs1 ++ x :: xs2 →
     Forall (λ y, f y ≠ f x) (xs1 ++ xs2)) →
  NoDup (f <$> xs).
Proof.
  induction xs as [|x xs IH]; intros H; simpl; [constructor|].
  apply NoDup_cons. split.
  - intros (y & Hy & Hin)%list_elem_of_fmap.
    pose proof (H x [] xs eq_refl) as Hall. simpl in Hall.
    rewrite Forall_forall in Hall. by apply (Hall y).
  - apply IH. intros y xs1 xs2 ->.
    pose proof (H y (x :: xs1) xs2 eq_refl) as Hall. simpl in Hall.
    by apply Forall_cons in Hall as [_ ?].
Qed.

(** X3.  The registry holds one entry for each operation in flight and no
    other: its size is the number of suspended activations, no two of them
    work for the same key, and no two of them hold the same array. *)
Theorem registry_size_in_flight (w : W) evs s :
  run (init w) evs = Some s →
  size (queues s) = length (suspended s) ∧
  NoDup (wk_tenantId <$> suspended s) ∧
  NoDup (wk_queue <$> suspended s) ∧
  (∀ k, is_Some (queues s !! k) ↔ k ∈ wk_tenantId <$> suspended s).
Proof.
  intros Hrun. pose proof (reachable_inv _ _ _ Hrun) as HI.
  pose proof HI as (_ & _ & Hrest & _).
  assert (Hnd : NoDup (wk_tenantId <$> suspended s)).
  { apply NoDup_fmap_others. intros wk ws1 ws2 Hs.
    destruct (suspended_worker s wk ws1 ws2 Hs (Hrest _)) as (_ & _ & Hf).
    apply Forall_forall. intros y Hy Heq.
    assert (y ∈ filter (λ w0, wk_tenantId w0 = wk_tenantId wk) (ws1 ++ ws2))
      as Hin by (by apply list_elem_of_filter).
    rewrite Hf in Hin. by apply elem_of_nil in Hin. }
  assert (Hdom : ∀ k, is_Some (queues s !! k) ↔
                      k ∈ wk_tenantId <$> suspended s).
  { intros k. specialize (Hrest k). unfold key_rest, workers_of in Hrest.
    split.
    - intros [l Hl]. rewrite Hl in Hrest. destruct Hrest as (_ & h & p & Hf).
      apply list_elem_of_fmap. exists (Worker k l h p). split; [done|].
      assert (Worker k l h p ∈ filter (λ w0, wk_tenantId w0 = k) (suspended s))
        as Hin by (rewrite Hf; by left).
      by apply list_elem_of_filter in Hin as [_ ?].
    - intros (wk & -> & Hin)%list_elem_of_fmap.
      destruct (queues s !! wk_tenantId wk); [done|].
      destruct Hrest as [_ Hf].
      assert (wk ∈ filter (λ w0, wk_tenantId w0 = wk_tenantId wk) (suspended s))
        as Hin' by (by apply list_elem_of_filter).
      rewrite Hf in Hin'. by apply elem_of_nil in Hin'. }
  split_and!; [|done| |done].
  - rewrite <-size_dom.
    assert (dom (queues s) = list_to_set (wk_tenantId <$> suspended s))
      as ->.
    { apply set_eq. intros k. rewrite elem_of_dom, elem_of_list_to_set.
      apply Hdom. }
    rewrite size_list_to_set by done. by rewrite length_fmap.
  - apply NoDup_fmap_others. intros wk ws1 ws2 Hs.
    by apply (other_arrays s).
Qed.

End Edges.

(** * The service and the job *)

Import Service.

Section ServiceProofs.

Lemma NoDup_reverse_2 {A} (l : list A) : NoDup l → NoDup (reverse l).
Proof. by rewrite reverse_Permutation. Qed.

Lemma new_Set_snoc xs x : new_Set (xs ++ [x]) = Set_add (new_Set xs) x.
Proof. unfold new_Set. by rewrite foldl_app. Qed.

Lemma new_Set_remove_dups xs :
  new_Set xs = reverse (remove_dups (reverse xs)).
Proof.
  induction xs as [|x xs IH] using rev_ind; [done|].
  rewrite new_Set_snoc, reverse_app. simpl. unfold Set_add.
  assert (x ∈ new_Set xs ↔ x ∈ reverse xs) as Hin.
  { by rewrite IH, elem_of_reverse, elem_of_remove_dups. }
  destruct (decide_rel elem_of x (reverse xs)) as [Hx|Hx].
  - rewrite decide_True by (by apply Hin). done.
  - rewrite decide_False by (by rewrite Hin). by rewrite reverse_cons, IH.
Qed.

Lemma new_Set_sublist xs : new_Set xs `sublist_of` xs.
Proof.
  induction xs as [|x xs IH] using rev_ind; [done|].
  rewrite new_Set_snoc. unfold Set_add. case_decide.
  - by apply sublist_inserts_r.
  - by apply sublist_app.
Qed.

Lemma new_Set_NoDup_id xs : NoDup xs → new_Set xs = xs.
Proof.
  induction xs as [|x xs IH] using rev_ind; [done|].
  intros (Hnd & Hx & _)%NoDup_app. rewrite new_Set_snoc, IH by done.
  unfold Set_add. rewrite decide_False; [done|].
  intros Hin. apply (Hx x Hin). by left.
Qed.

(** X4.  [getAllTenantIds] returns every tenant that has a row, once: the
    ids are pairwise different, they are those of the rows, and they come
    in the order in which the rows first show them (a column without
    repetition is returned as it is).  A reply with an error, a [null]
    [data] and a rejection all end in an [Error] whose message starts with
    ["Failed to retrieve tenant IDs: "]. *)
Theorem getAllTenantIds_distinct (reply : db_reply (list tenant_row)) :
  (∀ rows, reply = Reply (Some rows) None →
     ∃ ids, getAllTenantIds reply = Normal ids ∧
       NoDup ids ∧
       (∀ k, k ∈ ids ↔ ∃ r, r ∈ rows ∧ tenant_id r = k) ∧
       ids `sublist_of` (tenant_id <$> rows) ∧
       ids = reverse (remove_dups (reverse (tenant_id <$> rows))) ∧
       (NoDup (tenant_id <$> rows) → ids = tenant_id <$> rows)) ∧
  ((∀ rows, reply ≠ Reply (Some rows) None) →
     ∃ m, getAllTenantIds reply =
            Abrupt (VError ("Failed to retrieve tenant IDs: " +:+ m)) ∧
          match reply with
          | Thrown m' => m = m'
          | Reply _ (Some e) => m = error_message e
          | Reply _ None => m = null_map_error
          end).
Proof.
  split.
  - intros rows ->. eexists. split; [done|].
    split_and!.
    + rewrite new_Set_remove_dups. apply NoDup_reverse_2, NoDup_remove_dups.
    + intros k. rewrite new_Set_remove_dups, elem_of_reverse,
        elem_of_remove_dups, elem_of_reverse, list_elem_of_fmap.
      naive_solver.
    + apply new_Set_sublist.
    + apply new_Set_remove_dups.
    + apply new_Set_NoDup_id.
  - intros Hne. destruct reply as [[rows|] [e|]|m]; simpl; eauto.
    by destruct (Hne rows).
Qed.

End ServiceProofs.

Section JobEdges.
Context {D : Type}.
Implicit Types (s : State (jworld D)) (k : key).

Lemma foldl_enqueue_submissions ids s :
  Inv s →
  let s' := foldl (λ s' tenantId, fst (enqueue tenantId reset_operation s'))
                  s ids in
  Inv s' ∧ ∃ d, trace s' = trace s ++ d ∧ (submissions d).*1 = ids.
Proof.
  revert s. induction ids as [|k ids IH]; intros s HI; simpl.
  { split; [done|]. exists []. by rewrite app_nil_r. }
  destruct (enqueue_submission k (@reset_operation D) s HI)
    as (_ & d1 & Ht1 & Hs1).
  destruct (IH (fst (enqueue k reset_operation s))) as (HI2 & d2 & Ht2 & Hs2).
  { by apply enqueue_inv. }
  split; [done|]. exists (d1 ++ d2). rewrite Ht2, Ht1, <-app_assoc.
  split; [done|]. rewrite submissions_app, fmap_app, Hs1, Hs2. done.
Qed.

(** X5.  One run of the job enqueues one entry for each tenant that has a
    counter, however many rows the tenant has; when [getAllTenantIds] fails
    the queue is left as it was. *)
Theorem reset_one_entry_per_tenant (w0 : jworld D) evs0 s0
    (reply : db_reply (list tenant_row)) :
  run (init w0) evs0 = Some s0 →
  (∀ rows, reply = Reply (Some rows) None →
     ∃ d, trace (resetCounters (getAllTenantIds reply) s0) = trace s0 ++ d ∧
          NoDup (submissions d).*1 ∧
          (∀ k, k ∈ (submissions d).*1 ↔ ∃ r, r ∈ rows ∧ tenant_id r = k) ∧
          length (submissions d) ≤ length rows) ∧
  ((∀ rows, reply ≠ Reply (Some rows) None) →
     resetCounters (getAllTenantIds reply) s0 = s0).
Proof.
  intros Hrun. pose proof (reachable_inv _ _ _ Hrun) as HI. split.
  - intros rows ->. simpl.
    set (s0' := set_world _ s0).
    destruct (foldl_enqueue_submissions (new_Set (tenant_id <$> rows)) s0')
      as (_ & d & Ht & Hs); [done|].
    exists d. split; [exact Ht|]. rewrite Hs. split_and!.
    + rewrite new_Set_remove_dups. apply NoDup_reverse_2, NoDup_remove_dups.
    + intros k. rewrite new_Set_remove_dups, elem_of_reverse,
        elem_of_remove_dups, elem_of_reverse, list_elem_of_fmap.
      naive_solver.
    + rewrite <-(length_fmap fst), Hs, <-(length_fmap tenant_id rows).
      apply sublist_length, new_Set_sublist.
  - intros Hne. destruct reply as [[rows|] [e|]|m]; simpl; try done.
    by destruct (Hne rows).
Qed.

Lemma key_view_workers k s s' :
  key_view k s' = key_view k s → workers_of k s' = workers_of k s.
Proof. unfold key_view. by intros [= _ _ ? _]. Qed.

Lemma key_view_workers_eq k s a q ws b :
  key_view k s = (a, q, ws, b) → workers_of k s = ws.
Proof. unfold key_view. by intros [= _ _ ? _]. Qed.

Lemma key_view_queues k s s' :
  key_view k s' = key_view k s → queues s' !! k = queues s !! k.
Proof. unfold key_view. by intros [= ? _ _ _]. Qed.

(** The entry of the job on an idle key: its operation is started inside
    the call of [enqueue]. *)
Lemma enqueue_reset_idle k s :
  Inv s → queues s !! k = None →
  Inv (fst (enqueue k reset_operation s)) ∧
  world (fst (enqueue k reset_operation s)) = fst (reset_operation (world s)) ∧
  next_handle (fst (enqueue k reset_operation s)) = S (next_handle s) ∧
  (∃ p, snd (reset_operation (world s)) = Returned p ∧
        key_view k (fst (enqueue k reset_operation s)) =
          (Some (next_loc s), [],
           [Worker k (next_loc s) (next_handle s) p], true)) ∧
  (∀ k', k' ≠ k →
     key_view k' (fst (enqueue k reset_operation s)) = key_view k' s).
Proof.
  intros HI Hq. pose proof HI as (_ & _ & Hrest & _).
  pose proof (Hrest k) as Hr. unfold key_rest in Hr. rewrite Hq in Hr.
  destruct Hr as [Hnp Hw].
  split; [by apply enqueue_inv|].
  assert (Hfr : ∀ k', k' ≠ k →
     key_view k' (fst (enqueue k reset_operation s)) = key_view k' s).
  { intros k' Hne.
    by destruct (step_frame s (Enqueue k reset_operation) _ k k' HI eq_refl
                   eq_refl (not_eq_sym Hne)) as [? _]. }
  rewrite (enqueue_fresh k reset_operation s Hq Hnp).
  assert (∃ p, snd (reset_operation (world s)) = Returned p) as [p Hp].
  { unfold reset_operation. destruct (resetExecuted (world s)); eauto. }
  assert (Hd : drain_result k (next_loc s)
                 [Entry reset_operation (next_handle s)] (world s) =
               Drained (fst (reset_operation (world s)))
                       [Started k (next_handle s)] (Some [])
                       (Some (Worker k (next_loc s) (next_handle s) p))).
  { unfold drain_result. simpl. by rewrite Hp. }
  rewrite Hd. simpl. split_and!; [done|done| |].
  - exists p. split; [done|]. unfold workers_of in Hw.
    unfold key_view, backlog, workers_of, array_at, install.
    simpl. rewrite !lookup_insert_eq. simpl. f_equal; [f_equal|].
    + rewrite filter_app, Hw. simpl. by rewrite filter_cons_True.
    + apply bool_decide_eq_true_2. set_solver.
  - intros k' Hne. specialize (Hfr k' Hne).
    by rewrite (enqueue_fresh k reset_operation s Hq Hnp), Hd in Hfr.
Qed.

(** The entries of the job enqueued once the flag is set. *)
Lemma enqueue_reset_rest ids :
  ∀ s, Inv s → resetExecuted (world s) = true → NoDup ids →
    (∀ k, k ∈ ids → queues s !! k = None) →
    let s' := foldl (λ s' tenantId, fst (enqueue tenantId reset_operation s'))
                    s ids in
    Inv s' ∧ world s' = world s ∧
    (∀ i k, ids !! i = Some k →
       ∃ l, key_view k s' =
              (Some l, [], [Worker k l (next_handle s + i)
                                   (Resolved (resetCount (world s)))], true)) ∧
    (∀ k, k ∉ ids → key_view k s' = key_view k s).
Proof.
  induction ids as [|k ids IH]; intros s HI Hfl Hnd Hidle; simpl.
  { split_and!; try done. }
  apply NoDup_cons in Hnd as [Hk Hnd].
  destruct (enqueue_reset_idle k s HI) as (HI1 & Hw1 & Hh1 & (p & Hp & Hv1) & Hfr1).
  { apply Hidle. by left. }
  assert (Hop : reset_operation (world s) =
                (world s, Returned (Resolved (resetCount (world s))))).
  { unfold reset_operation. by rewrite Hfl. }
  rewrite Hop in Hw1, Hp. simpl in Hw1, Hp. injection Hp as <-.
  destruct (IH (fst (enqueue k reset_operation s))) as (HI2 & Hw2 & Hv2 & Hfr2).
  { done. }
  { by rewrite Hw1. }
  { done. }
  { intros k' Hin. rewrite (key_view_queues k' s _ (Hfr1 k' ltac:(set_solver))).
    apply Hidle. by right. }
  split_and!; [done|by rewrite Hw2| |].
  - intros [|i] k' Hi; simpl in Hi.
    + injection Hi as <-. exists (next_loc s).
      rewrite (Hfr2 k Hk), Hv1. by rewrite Nat.add_0_r.
    + destruct (Hv2 i k' Hi) as [l Hl]. exists l.
      rewrite Hl, Hh1, Hw1. do 4 f_equal. lia.
  - intros k' Hnin. rewrite Hfr2 by set_solver. apply Hfr1. set_solver.
Qed.

(** The state in which [map] leaves the queue when every tenant was idle. *)
Lemma reset_map_turn k1 ids s0 :
  Inv s0 → NoDup (k1 :: ids) →
  (∀ k, k ∈ k1 :: ids → queues s0 !! k = None) →
  let s1 := resetCounters (Normal (k1 :: ids)) s0 in
  Inv s1 ∧
  resetExecuted (world s1) = true ∧
  resetCount (world s1) = VNum 0 ∧
  resetAllCounters_calls (world s1) = S (resetAllCounters_calls (world s0)) ∧
  (∃ l, key_view k1 s1 =
          (Some l, [], [Worker k1 l (next_handle s0) (Pending after_reset)],
           true)) ∧
  (∀ i k, ids !! i = Some k →
     ∃ l, key_view k s1 =
            (Some l, [], [Worker k l (S (next_handle s0) + i)
                                 (Resolved (VNum 0))], true)).
Proof.
  intros HI Hnd Hidle. apply NoDup_cons in Hnd as [Hk1 Hnd]. simpl.
  set (s0' := set_world (JWorld (external (world s0)) false (VNum 0)
                                (resetAllCounters_calls (world s0))) s0).
  destruct (enqueue_reset_idle k1 s0') as (HI1 & Hw1 & Hh1 & (p & Hp & Hv1) & Hfr1).
  { by apply inv_set_world. }
  { apply Hidle. by left. }
  simpl in Hw1, Hp, Hv1, Hh1. injection Hp as <-.
  destruct (enqueue_reset_rest ids (fst (enqueue k1 reset_operation s0')))
    as (HI2 & Hw2 & Hv2 & Hfr2).
  { done. }
  { by rewrite Hw1. }
  { done. }
  { intros k Hin.
    rewrite (key_view_queues k s0' _ (Hfr1 k ltac:(set_solver))).
    apply Hidle. by right. }
  rewrite Hw1 in Hw2. simpl in Hw2.
  split_and!; [done|by rewrite Hw2..| |].
  - exists (next_loc s0). by rewrite (Hfr2 k1 Hk1), Hv1.
  - intros i k Hi. destruct (Hv2 i k Hi) as [l Hl]. exists l.
    by rewrite Hl, Hh1, Hw1.
Qed.

Lemma key_view_worker_pick k s l h p q b :
  Inv s → key_view k s = (Some l, q, [Worker k l h p], b) →
  ∃ rest, pick h (suspended s) = Some (Worker k l h p, rest).
Proof.
  intros HI Hv. unfold key_view in Hv. injection Hv as _ _ Hw _.
  assert (Worker k l h p ∈ suspended s) as Hin.
  { assert (Worker k l h p ∈ workers_of k s) as Hin by (rewrite Hw; by left).
    by apply list_elem_of_filter in Hin as [_ ?]. }
  destruct (pick_elem h (suspended s) _ Hin eq_refl) as [[wk rest] Hp].
  pose proof (pick_unique _ _ _ _ _ HI Hp Hin eq_refl) as ->. eauto.
Qed.

(** X6.  The job does not keep the other tenants waiting for the reset.
    When every tenant is idle, the call of [map] starts the entry of the
    first tenant, which calls [resetAllCounters] and waits for it, and the
    entries of all the others, which find the flag set and return the stored
    count [0] in the same turn.  As soon as the worker of such a tenant has
    resumed, its key is idle again: an operation enqueued for it then is
    started at once, while [resetAllCounters] has not returned and the
    first entry is unsettled. *)
Theorem reset_does_not_block_other_tenants (w0 : jworld D) evs0 s0 k1 ids i k2 :
  run (init w0) evs0 = Some s0 →
  NoDup (k1 :: ids) →
  (∀ k, k ∈ k1 :: ids → queues s0 !! k = None) →
  ids !! i = Some k2 →
  let s1 := resetCounters (Normal (k1 :: ids)) s0 in
  let h1 := next_handle s0 in
  let h2 := S (next_handle s0) + i in
  resetExecuted (world s1) = true ∧
  resetAllCounters_calls (world s1) = S (resetAllCounters_calls (world s0)) ∧
  (∃ l, workers_of k1 s1 = [Worker k1 l h1 (Pending after_reset)]) ∧
  (∃ l, workers_of k2 s1 = [Worker k2 l h2 (Resolved (VNum 0))]) ∧
  ∃ s2, wake h2 s1 = Some s2 ∧
    settlements h2 (trace s2) = [Fulfilled (VNum 0)] ∧
    queues s2 !! k2 = None ∧
    (∃ l, workers_of k1 s2 = [Worker k1 l h1 (Pending after_reset)]) ∧
    settlements h1 (trace s2) = [] ∧
    ∀ op, ∃ d, trace (fst (enqueue k2 op s2)) =
                 trace s2 ++ Submitted k2 (next_handle s2) :: WorkerStart k2 ::
                             Started k2 (next_handle s2) :: d.
Proof.
  intros Hrun Hnd Hidle Hi s1 h1 h2. subst h1 h2.
  pose proof (reachable_inv _ _ _ Hrun) as HI0.
  destruct (reset_map_turn k1 ids s0 HI0 Hnd Hidle)
    as (HI1 & Hfl & Hcnt & Hcalls & [l1 Hv1] & Hv).
  destruct (Hv i k2 Hi) as [l2 Hv2]. fold s1 in HI1, Hfl, Hcalls, Hv1, Hv2.
  set (h1 := next_handle s0) in *. set (h2 := S h1 + i) in *.
  assert (k2 ≠ k1) as Hne.
  { apply NoDup_cons in Hnd as [Hk1 _]. intros ->.
    apply Hk1. by eapply list_elem_of_lookup_2. }
  pose proof (key_view_workers_eq k1 s1 _ _ _ _ Hv1) as Hw1.
  pose proof (key_view_workers_eq k2 s1 _ _ _ _ Hv2) as Hw2.
  split_and!; [done|done|by eexists|by eexists|].
  destruct (key_view_worker_pick k2 s1 _ _ _ _ _ HI1 Hv2) as [rest Hp2].
  pose proof (wake_spec h2 s1 _ rest (Fulfilled (VNum 0)) Hp2 eq_refl) as Hwk.
  simpl in Hwk.
  assert (array_at l2 s1 = []) as Harr.
  { unfold key_view, backlog in Hv2. injection Hv2 as Hq2 Hb2 _ _.
    by rewrite Hq2 in Hb2. }
  rewrite Harr in Hwk.
  change (drain_result k2 l2 [] (world s1))
    with (Drained (world s1) [WorkerExit k2] None None) in Hwk.
  eexists. split; [exact Hwk|].
  set (s2 := install _ _ _ _) in *.
  assert (HI2 : Inv s2) by (by eapply wake_inv).
  assert (Htk : turn_key s1 (Wake h2) = Some k2).
  { unfold turn_key. by rewrite Hp2. }
  assert (Hfr : key_view k1 s2 = key_view k1 s1).
  { by destruct (step_frame s1 (Wake h2) s2 k2 k1 HI1 Hwk Htk Hne) as [? _]. }
  assert (Hw1' : workers_of k1 s2 = [Worker k1 l1 h1 (Pending after_reset)]).
  { by rewrite (key_view_workers _ _ _ Hfr). }
  split_and!.
  - by eapply (wake_settlement s1 h2 _ rest (Fulfilled (VNum 0)) s2).
  - subst s2. simpl. by rewrite lookup_delete_eq.
  - by eexists.
  - rewrite Hv1 in Hfr.
    destruct (key_view_worker_pick k1 s2 _ _ _ _ _ HI2 Hfr) as [rest1 Hp1].
    by eapply suspended_unsettled.
  - intros op.
    assert (queues s2 !! k2 = None) as Hq.
    { subst s2. simpl. by rewrite lookup_delete_eq. }
    pose proof HI2 as (_ & _ & Hrest & _).
    pose proof (Hrest k2) as Hr. unfold key_rest in Hr. rewrite Hq in Hr.
    destruct Hr as [Hnp _].
    rewrite (enqueue_fresh k2 op s2 Hq Hnp).
    set (dr := drain_result k2 _ _ _).
    assert (∃ d', d_events dr = Started k2 (next_handle s2) :: d') as [d' Hd'].
    { subst dr. unfold drain_result. simpl.
      destruct (snd (op _)); simpl; eauto. }
    exists d'. unfold install. cbn [trace]. rewrite Hd'.
    by rewrite <-app_assoc.
Qed.

End JobEdges.

(** * Order numbers *)

Section FormatEdges.
Local Open Scope Z_scope.
Local Open Scope string_scope.

Lemma append_inv_head (a b c : string) : a +:+ b = a +:+ c → b = c.
Proof.
  induction a as [|x a IH]; rewrite ?append_nil, ?append_cons; [done|].
  intros [= H]. by apply IH.
Qed.

(** What a successful call has checked and built. *)
Lemma formatOrderNumber_Normal now v s :
  formatOrderNumber now v = Normal s →
  ∃ n, 0 < n ∧ denotes v n ∧
       s = "ORD-" +:+ slice_last2 (Number_toString (getFullYear now)) +:+
           padStart0 2 (Number_toString (getMonth now + 1)) +:+ "-" +:+
           padStart0 6 (Number_toString n).
Proof.
  destruct v as [| |b|str|[|b|q]|]; try done. unfold formatOrderNumber.
  destruct (negb (Number_isInteger (JNumber (Finite q))) ||
            (QArith_base.Qnum q <=? 0)%Z) eqn:Hc; [done|].
  apply orb_false_iff in Hc as [Hi Hpos].
  apply negb_false_iff in Hi. apply Z.leb_gt in Hpos.
  pose proof Hi as [n Hd]%isInteger_denotes.
  pose proof (denotes_value _ _ Hd) as [Hv Hs].
  intros [= <-]. exists n. split; [lia|]. split; [done|]. by rewrite Hv.
Qed.

Lemma digits_only_no_hyphen N : digits_only N → has_hyphen N = false.
Proof.
  induction N as [|c N IH]; [done|]. intros [Hc HN]. simpl.
  rewrite (IH HN), orb_false_r.
  destruct (Ascii.eqb_spec c "-") as [->|]; [|done].
  destruct Hc as [Hc _]. apply Nat.leb_le in Hc. by vm_compute in Hc.
Qed.

Lemma has_hyphen_app pre N : has_hyphen (pre +:+ "-" +:+ N) = true.
Proof.
  induction pre as [|c pre IH]; [done|].
  rewrite append_cons. simpl. rewrite IH. apply orb_true_r.
Qed.

Lemma after_last_hyphen_app pre N :
  has_hyphen N = false → after_last_hyphen (pre +:+ "-" +:+ N) = N.
Proof.
  intros HN. induction pre as [|c pre IH].
  - rewrite append_nil, append_cons, append_nil. simpl. by rewrite HN.
  - rewrite append_cons. simpl. by rewrite has_hyphen_app.
Qed.

Lemma denotes_functional v n1 n2 : denotes v n1 → denotes v n2 → n1 = n2.
Proof.
  destruct v as [| |b|str|[|b|q]|]; try done.
  intros [<- _]%denotes_value [<- _]%denotes_value. done.
Qed.

(** X7.  Within one reading of the clock [formatOrderNumber] is injective
    on the safe integers: two of them that give the same order number are
    the same positive integer.  The number can be read back: what follows
    the last hyphen of the order number is a string of digits that denotes
    it. *)
Theorem formatOrderNumber_injective (now : Date) (v1 v2 : jsvalue) n1 n2
    (s : string) :
  denotes v1 n1 → n1 <= MAX_SAFE_INTEGER →
  denotes v2 n2 → n2 <= MAX_SAFE_INTEGER →
  formatOrderNumber now v1 = Normal s →
  formatOrderNumber now v2 = Normal s →
  n1 = n2 ∧ 0 < n1 ∧
  digits_only (after_last_hyphen s) ∧
  decimal_value (after_last_hyphen s) = n1.
Proof.
  intros Hd1 Hs1 Hd2 Hs2
         (m1 & Hm1 & Hd1' & He1)%formatOrderNumber_Normal
         (m2 & Hm2 & Hd2' & He2)%formatOrderNumber_Normal.
  assert (m1 = n1) as -> by (by eapply denotes_functional).
  assert (m2 = n2) as -> by (by eapply denotes_functional).
  destruct (padded_number n1 Hm1 Hs1) as (Hdig1 & Hv1 & _).
  destruct (padded_number n2 Hm2 Hs2) as (Hdig2 & Hv2 & _).
  assert (Hread : ∀ n, digits_only (padStart0 6 (Number_toString n)) →
            s = "ORD-" +:+ slice_last2 (Number_toString (getFullYear now)) +:+
                padStart0 2 (Number_toString (getMonth now + 1)) +:+ "-" +:+
                padStart0 6 (Number_toString n) →
            after_last_hyphen s = padStart0 6 (Number_toString n)).
  { intros n Hdig ->.
    rewrite <-(append_assoc' "ORD-"), <-(append_assoc' _ _ ("-" +:+ _)).
    apply after_last_hyphen_app. by apply digits_only_no_hyphen. }
  pose proof (Hread _ Hdig1 He1) as Ha1.
  pose proof (Hread _ Hdig2 He2) as Ha2.
  assert (n1 = n2) as <-.
  { rewrite <-Hv1, <-Hv2. by rewrite <-Ha1, <-Ha2. }
  rewrite Ha1. done.
Qed.

End FormatEdges.

(** * The routes and the service *)

Import Routes.

Section ObjectProofs.
Context {V : Type}.
Implicit Types (o : object V) (f g : string).

Lemma prop_set_prop_eq f v o : prop f (set_prop f v o) = Some v.
Proof.
  induction o as [|[f' v'] o IH]; simpl; [by rewrite decide_True|].
  case_decide; simpl; [by rewrite decide_True|]. by rewrite decide_False.
Qed.

Lemma prop_set_prop_ne f g v o : f ≠ g → prop g (set_prop f v o) = prop g o.
Proof.
  intros Hne. induction o as [|[f' v'] o IH]; simpl; [by rewrite decide_False|].
  case_decide; simpl; [subst f'; by rewrite !decide_False|].
  by rewrite IH.
Qed.

Lemma prop_rest_without_in fs f o :
  f ∈ fs → prop f (rest_without fs o) = None.
Proof.
  intros Hin. unfold rest_without, object in *.
  induction o as [|[f' v'] o IH]; [done|].
  destruct (decide (f' ∈ fs)).
  - by rewrite filter_cons_False by (simpl; tauto).
  - rewrite filter_cons_True by done. simpl.
    rewrite decide_False; [done|]. by intros ->.
Qed.

Lemma prop_rest_without_notin fs f o :
  f ∉ fs → prop f (rest_without fs o) = prop f o.
Proof.
  intros Hnin. unfold rest_without, object in *.
  induction o as [|[f' v'] o IH]; [done|].
  destruct (decide (f' ∈ fs)).
  - rewrite filter_cons_False by (simpl; tauto). simpl.
    rewrite decide_False; [done|]. by intros ->.
  - rewrite filter_cons_True by done. simpl. by rewrite IH.
Qed.

Lemma prop_None_keys f o : prop f o = None ↔ f ∉ Object_keys o.
Proof.
  unfold Object_keys. induction o as [|[f' v'] o IH]; simpl.
  - split; [intros _ ?%elem_of_nil; done|done].
  - rewrite not_elem_of_cons. case_decide; [naive_solver|].
    rewrite IH. naive_solver.
Qed.

End ObjectProofs.

Section RouteProofs.
Local Open Scope string_scope.

Lemma includes_append_r sub a s :
  includes sub s = true → includes sub (a +:+ s) = true.
Proof.
  intros Hs. induction a as [|c a IH]; rewrite ?append_nil, ?append_cons;
    [done|].
  simpl. rewrite IH. apply orb_true_r.
Qed.

(** What [PATCH /:id] has checked when it calls the service. *)
Lemma patch_call_inr {V} id (body : option (object V)) id' allowed :
  patch_call id body = inr (id', allowed) →
  id' = id ∧ id ≠ "" ∧
  ∃ updates, body = Some updates ∧
    allowed = rest_without protected_fields updates ∧ allowed ≠ [].
Proof.
  unfold patch_call. case_decide; [done|].
  destruct body as [updates|]; [|done].
  case_decide; [done|]. case_decide as Hk; [done|].
  intros [= <- <-]. split_and!; [done..|].
  exists updates. split_and!; [done..|].
  intros Hnil. apply Hk. by rewrite Hnil.
Qed.

(** X8.  Whatever the body of a [PATCH] holds, the data that [updateById]
    sends to the database has none of the fields [id], [tenant_id],
    [created_at] and [deleted_at], its [updated_at] is the reading of the
    server's clock, and every other field is the one of the body; the
    counter addressed is the one of the path, and the body had a field
    that may be set. *)
Theorem patch_protects_fields {V R} (now : V) (existing updated : db_reply R)
    id (body : option (object V)) id' allowed sent_id data :
  patch_call id body = inr (id', allowed) →
  fst (updateById now existing updated id' allowed) = Some (sent_id, data) →
  sent_id = id ∧ id ≠ "" ∧
  (∀ f, f ∈ protected_fields → prop f data = None) ∧
  prop "updated_at" data = Some now ∧
  ∃ updates, body = Some updates ∧
    (∀ f, f ∉ protected_fields → f ≠ "updated_at" →
          prop f data = prop f updates) ∧
    (∃ f, f ∈ Object_keys updates ∧ f ∉ protected_fields).
Proof.
  intros (-> & Hid & updates & -> & -> & Hne)%patch_call_inr.
  unfold updateById. destruct (getById existing) as [[row|]|m]; try done.
  simpl. intros [= <- <-].
  split_and!; [done|done| |apply prop_set_prop_eq|].
  - intros f Hf. rewrite prop_set_prop_ne.
    + by apply prop_rest_without_in.
    + intros <-. unfold protected_fields in Hf. set_solver.
  - exists updates. split_and!; [done| |].
    + intros f Hf Hu. rewrite prop_set_prop_ne by done.
      by apply prop_rest_without_notin.
    + destruct (rest_without protected_fields updates) as [|[f v] rest] eqn:Hr;
        [done|].
      assert ((f, v) ∈ rest_without protected_fields updates) as Hin.
      { rewrite Hr. by left. }
      apply list_elem_of_filter in Hin as [Hf Hin]. exists f.
      split; [|done]. apply list_elem_of_fmap. by exists (f, v).
Qed.

(** X9.  A [PATCH] whose body holds protected fields only is refused with
    a 400 before the service is called: the answer is the same whatever
    the service would do. *)
Theorem patch_refuses_protected_only {V R}
    (svc svc' : string → object V → service_result R) id (updates : object V) :
  (∀ f, f ∈ Object_keys updates → f ∈ protected_fields) →
  patch_route svc id (Some updates) = patch_route svc' id (Some updates) ∧
  ∃ m, patch_route svc id (Some updates) = Next (badRequest m) ∧
       (id ≠ "" → updates ≠ [] → m = "No valid fields to update").
Proof.
  intros Hall.
  assert (rest_without protected_fields updates = []) as Hnil.
  { unfold rest_without, Object_keys, object in *.
    induction updates as [|[f v] o IH]; [done|].
    rewrite filter_cons_False.
    - apply IH. intros f' Hf'. apply Hall. by right.
    - simpl. intros Hf. apply Hf, Hall. by left. }
  unfold patch_route, patch_call.
  case_decide as Hid; [split; [done|]; eexists; split; [done|]; by intros ?|].
  case_decide as Hk.
  { split; [done|]. eexists. split; [done|]. intros _ Hne.
    by destruct updates. }
  rewrite Hnil. simpl. split; [done|]. by eexists.
Qed.

(** X10.  A [PATCH] for a counter that does not exist (or is deleted) ends
    in a 404: [getById] turns the "no rows" code into [null], [updateById]
    throws its "not found" error without sending an update, and the handler
    finds ['not found'] in the message. *)
Theorem patch_of_missing_counter {V R} (now : V) (existing updated : db_reply R)
    id (body : option (object V)) id' allowed :
  patch_call id body = inr (id', allowed) →
  (∃ data e, existing = Reply data (Some e) ∧ error_code e = "PGRST116") ∨
    existing = Reply None None →
  let m := "Failed to update counter by id: Counter with id " +:+ id +:+
           " not found" in
  updateById now existing updated id' allowed = (None, Err m) ∧
  patch_route (λ i u, snd (updateById now existing updated i u)) id body
    = Next (notFound m).
Proof.
  intros Hcall Hex.
  pose proof Hcall as (-> & Hid & updates & -> & -> & Hne)%patch_call_inr.
  assert (@getById R existing = Ok None) as Hget.
  { destruct Hex as [(data & e & -> & Hc)| ->]; simpl; [|done].
    by rewrite decide_True. }
  assert (Hu : updateById now existing updated id
                 (rest_without protected_fields updates) =
               (None, Err ("Failed to update counter by id: " +:+
                           ("Counter with id " +:+ id +:+ " not found")))).
  { unfold updateById. by rewrite Hget. }
  simpl. split.
  - rewrite Hu. reflexivity.
  - unfold patch_route. rewrite Hcall, Hu. simpl.
    rewrite includes_append_r; [reflexivity|].
    repeat apply includes_append_r. reflexivity.
Qed.

(** X11.  What [POST /] hands to [create] has a truthy [name] and
    [tenant_id] and a [value] that is neither [null] nor missing, and what
    [create] inserts carries the server's clock in [created_at] and
    [updated_at] whatever the body said; every other field, [id] and
    [deleted_at] included, is inserted as the body gave it. *)
Theorem post_inserts_server_timestamps {R} (now : body_value)
    (inserted : db_reply R) (body : option (object body_value)) counterData :
  post_call body = inr counterData →
  body = Some counterData ∧
  truthy (prop "name" counterData) = true ∧
  truthy (prop "tenant_id" counterData) = true ∧
  (∃ v, prop "value" counterData = Some v ∧ v ≠ BNull) ∧
  prop "created_at" (fst (create now inserted counterData)) = Some now ∧
  prop "updated_at" (fst (create now inserted counterData)) = Some now ∧
  (∀ f, f ≠ "created_at" → f ≠ "updated_at" →
        prop f (fst (create now inserted counterData)) = prop f counterData).
Proof.
  unfold post_call. destruct body as [data|]; [|done].
  case_decide; [done|].
  destruct (truthy (prop "name" data)) eqn:Hname; [|done]. simpl.
  destruct (prop "value" data) as [v|] eqn:Hvalue; [|done].
  destruct (truthy (prop "tenant_id" data)) eqn:Htenant;
    [|by destruct v].
  intros Heq.
  assert (v ≠ BNull ∧ data = counterData) as [Hv <-].
  { destruct v; try done; simpl in Heq; by injection Heq as <-. }
  split_and!; [done..|by eexists| | |].
  - simpl. rewrite prop_set_prop_ne by done. apply prop_set_prop_eq.
  - apply prop_set_prop_eq.
  - intros f Hc Hu. simpl. by rewrite !prop_set_prop_ne.
Qed.

Lemma prefix_cons a s1 b s2 :
  String.prefix (String a s1) (String b s2)
  = if Ascii.ascii_dec a b then String.prefix s1 s2 else false.
Proof. reflexivity. Qed.

Lemma prefix_not_found_suffix s :
  String.prefix "not found" (s +:+ " is not deleted")
  = String.prefix "not found" s.
Proof.
  do 9 (destruct s as [|? s]; [reflexivity|];
        rewrite append_cons, !prefix_cons;
        destruct (Ascii.ascii_dec _ _); [|reflexivity]).
  by destruct s.
Qed.

Lemma includes_not_found_suffix x :
  includes "not found" (x +:+ " is not deleted") = includes "not found" x.
Proof.
  induction x as [|c x IH]; [reflexivity|].
  change (includes "not found" (String c x +:+ " is not deleted"))
    with (String.prefix "not found" (String c x +:+ " is not deleted")
          || includes "not found" (x +:+ " is not deleted")).
  rewrite IH, prefix_not_found_suffix. reflexivity.
Qed.

Lemma includes_not_deleted x :
  includes "not deleted" (x +:+ " is not deleted") = true.
Proof.
  induction x as [|c x IH]; [reflexivity|].
  change (includes "not deleted" (String c x +:+ " is not deleted"))
    with (String.prefix "not deleted" (String c x +:+ " is not deleted")
          || includes "not deleted" (x +:+ " is not deleted")).
  rewrite IH. apply orb_true_r.
Qed.

(** X15.  How [POST /:id/restore] answers.  A counter that the first query
    does not give, be it missing or the query answered with an error, is a
    404, and nothing is updated.  A counter that is not deleted is refused
    with a 400 and nothing is updated, unless the id of the path itself
    holds ["not found"]: the handler looks for that text first, in a
    message that quotes the id, and answers 404.  For a deleted counter the
    update sets [deleted_at] to [null] and [updated_at] to the clock's
    reading, and the row that comes back is the answer. *)
Theorem restore_route_answers {R V} (deleted_at : R → bool) (now : V)
    (fetched updated : db_reply R) id :
  id ≠ "" →
  let svc := restore deleted_at now fetched updated in
  let route := restore_route (λ i, snd (svc i)) id in
  let missing := "Failed to restore counter: Counter with id " +:+ id +:+
                 " not found" in
  let live := "Failed to restore counter: Counter with id " +:+ id +:+
              " is not deleted" in
  ((∀ existing, fetched ≠ Reply (Some existing) None) →
   (∀ m, fetched ≠ Thrown m) →
     svc id = (None, Err missing) ∧ route = Next (notFound missing)) ∧
  (∀ existing, fetched = Reply (Some existing) None →
     deleted_at existing = false →
     svc id = (None, Err live) ∧
     route = Next (if includes "not found" id then notFound live
                   else badRequest live)) ∧
  (∀ existing, fetched = Reply (Some existing) None →
     deleted_at existing = true →
     fst (svc id) = Some (id, [("deleted_at", None); ("updated_at", Some now)]) ∧
     ∀ row, updated = Reply (Some row) None → route = Json 200 (Some row)).
Proof.
  intros Hid svc route missing live. subst svc route.
  unfold restore_route. rewrite decide_False by done.
  split_and!.
  - intros Hne Hnt.
    assert (Hs : restore deleted_at now fetched updated id
                 = (None, Err missing)).
    { unfold restore. destruct fetched as [[existing|] [e|]|m]; try done.
      - by destruct (Hne existing).
      - by destruct (Hnt m). }
    split; [done|]. rewrite Hs. simpl. subst missing.
    rewrite includes_append_r; [reflexivity|].
    repeat apply includes_append_r. reflexivity.
  - intros existing -> Hlive.
    assert (Hs : restore deleted_at now (Reply (Some existing) None) updated id
                 = (None, Err live)).
    { unfold restore. by rewrite Hlive. }
    split; [done|]. rewrite Hs. simpl. subst live.
    change ("Failed to restore counter: Counter with id " +:+ id +:+
            " is not deleted")
      with ("Failed to restore counter: " +:+ "Counter with id " +:+
            (id +:+ " is not deleted")).
    change ("" +:+ id +:+ " is not deleted")
      with (id +:+ " is not deleted").
    rewrite includes_not_found_suffix, includes_not_deleted.
    by destruct (includes "not found" id).
  - intros existing -> Hdel. unfold restore. rewrite Hdel. simpl.
    split; [done|]. by intros row ->.
Qed.

End RouteProofs.

(** * The increment *)

Import Increment.

Section IncrementProofs.
Context {D : Type}.
Variable clock : D → Date.
Variable StringToNumber : string → number.
Variables ApiError_notFound ApiError_internal : string → value.

Local Abbreviation increment :=
  (increment_operation clock StringToNumber ApiError_notFound
                       ApiError_internal).
Local Abbreviation got :=
  (after_get clock StringToNumber ApiError_notFound ApiError_internal).
Local Abbreviation updated := (after_update clock).
Local Abbreviation checked := (checked_value StringToNumber).
Local Abbreviation at_stage :=
  (in_stage clock StringToNumber ApiError_notFound ApiError_internal).
Local Abbreviation key_ok :=
  (inc_key clock StringToNumber ApiError_notFound ApiError_internal).
Local Abbreviation all_ok :=
  (inc_inv clock StringToNumber ApiError_notFound ApiError_internal).
Local Abbreviation increments :=
  (increment_turn clock StringToNumber ApiError_notFound ApiError_internal).

Implicit Types (s : State (@iworld D)) (k : key) (w : @iworld D).

(** The checks leave an integer below the maximum of a PostgreSQL
    [integer]. *)
Lemma checked_value_range v n :
  checked v = inr n →
  (0 ≤ n < 2147483647)%Z ∧
  ∃ q, Number StringToNumber v = Finite q ∧ denotes (JNumber (Finite q)) n.
Proof.
  unfold checked_value.
  assert (Hgo : ∀ x : number,
    match x with
    | Finite q =>
        if negb (Number_isInteger (JNumber (Finite q)))
        then inl "Counter value must be an integer"
        else if (integer_value q <? 0)%Z
        then inl "Counter value cannot be negative"
        else if (2147483647 <=? integer_value q)%Z
        then inl "Counter has reached maximum value"
        else inr (integer_value q)
    | _ => inl "Counter value must be an integer"
    end = inr n →
    (0 ≤ n < 2147483647)%Z ∧
    ∃ q, x = Finite q ∧ denotes (JNumber (Finite q)) n).
  { intros [|b|q]; try done.
    destruct (Number_isInteger (JNumber (Finite q))) eqn:Hi; [|done]. simpl.
    destruct (integer_value q <? 0)%Z eqn:Hneg; [done|].
    destruct (2147483647 <=? integer_value q)%Z eqn:Hmax; [done|].
    intros [= <-]. apply Z.ltb_ge in Hneg. apply Z.leb_gt in Hmax.
    split; [lia|]. exists q. split; [done|].
    apply isInteger_denotes in Hi as [n' Hn'].
    by rewrite (proj1 (denotes_value _ _ Hn')). }
  destruct v; try done; apply Hgo.
Qed.

Lemma formatOrderNumber_of_positive now m :
  (0 < m)%Z →
  formatOrderNumber now (JNumber (Finite (QArith_base.inject_Z m))) =
    Normal ("ORD-" +:+ slice_last2 (Number_toString (getFullYear now)) +:+
            padStart0 2 (Number_toString (getMonth now + 1)) +:+ "-" +:+
            padStart0 6 (Number_toString m))%string.
Proof.
  intros Hm. unfold formatOrderNumber, Number_isInteger, integer_value.
  simpl. rewrite Z.mod_1_r. simpl.
  destruct (m <=? 0)%Z eqn:Hle; [apply Z.leb_le in Hle; lia|].
  by rewrite Z.div_1_r.
Qed.

(** X12.  An increment that has passed the checks asks for one update,
    with the value it read plus one, which lies between 1 and 2147483647;
    once the update has succeeded it cannot fail any more:
    [formatOrderNumber] accepts the new value, and the operation returns
    [{ order_number }] whose digits after the second hyphen denote it.
    When the update fails the operation fails with the same error. *)
Theorem increment_issues_next_number tenantId counter w w1 resume :
  got tenantId (Fulfilled counter) w = (w1, Pending resume) →
  ∃ n, checked (get_value counter) = inr n ∧
    (0 ≤ n < 2147483647)%Z ∧
    (∃ q, Number StringToNumber (get_value counter) = Finite q ∧
          denotes (JNumber (Finite q)) n) ∧
    w1 = called (UpdateByTenantId tenantId (n + 1)) w ∧
    (∀ e w2, resume (Rejected e) w2 =
               (called (Settles tenantId) w2, Failed e)) ∧
    ∀ x w2, ∃ N,
      resume (Fulfilled x) w2 =
        (called (Settles tenantId) w2,
         Resolved (VObj [("order_number",
           VStr ("ORD-" +:+
                 slice_last2 (Number_toString (getFullYear (clock (outside w2)))) +:+
                 padStart0 2 (Number_toString (getMonth (clock (outside w2)) + 1)) +:+
                 "-" +:+ N)%string)])) ∧
      digits_only N ∧ decimal_value N = (n + 1)%Z ∧
      (6 ≤ String.length N)%nat.
Proof.
  unfold after_get. destruct (truthy counter); simpl; [|done].
  destruct (checked (get_value counter)) as [m|n] eqn:Hc; [done|].
  intros [= <- <-]. exists n.
  destruct (checked_value_range _ _ Hc) as [Hr Hq].
  split_and!; [done|lia|lia|done|done|done|].
  intros x w2. exists (padStart0 6 (Number_toString (n + 1))).
  unfold after_update.
  rewrite formatOrderNumber_of_positive by lia.
  destruct (padded_number (n + 1) ltac:(lia)
              ltac:(unfold MAX_SAFE_INTEGER; lia)) as (Hd & Hv & Hs & Hl).
  split_and!; [done..|].
  destruct (decide (n + 1 ≤ 999999)%Z) as [Hle|Hgt].
  - by rewrite (Hs Hle).
  - destruct (Hl ltac:(lia)) as (_ & ? & _). lia.
Qed.

(** X13.  An increment that fails after its read has not called
    [updateByTenantId]: the error is the one [getByTenantId] failed with,
    the 404 of a missing counter, or the 500 of one of the checks on the
    value.  A value at or above 2147483647, and a negative one, fail the
    checks. *)
Theorem increment_fails_without_update tenantId o w w1 e :
  got tenantId o w = (w1, Failed e) →
  w1 = called (Settles tenantId) w ∧
  (o = Rejected e ∨
   ∃ counter, o = Fulfilled counter ∧
     ((truthy counter = false ∧
       e = ApiError_notFound "Counter not found for this tenant") ∨
      (truthy counter = true ∧
       ∃ m, checked (get_value counter) = inl m ∧
            e = ApiError_internal m))) ∧
  (∀ n, (2147483647 ≤ n)%Z →
        checked (VNum n) = inl "Counter has reached maximum value") ∧
  (∀ n, (n < 0)%Z → checked (VNum n) = inl "Counter value cannot be negative").
Proof.
  intros Hg.
  assert (Hnum : ∀ n, checked (VNum n) =
            if (n <? 0)%Z then inl "Counter value cannot be negative"
            else if (2147483647 <=? n)%Z
            then inl "Counter has reached maximum value"
            else inr n).
  { intros n. unfold checked_value, Number, Number_isInteger, integer_value.
    simpl. by rewrite Z.mod_1_r, Z.div_1_r. }
  split_and!.
  - unfold after_get in Hg. destruct o as [counter|e']; [|by injection Hg].
    destruct (truthy counter); simpl in Hg; [|by injection Hg].
    destruct (checked (get_value counter)); [by injection Hg|done].
  - unfold after_get in Hg. destruct o as [counter|e'];
      [|left; by injection Hg as _ ->].
    right. exists counter. split; [done|].
    destruct (truthy counter); simpl in Hg; [|left; by injection Hg as _ <-].
    right. split; [done|].
    destruct (checked (get_value counter)) as [m|]; [|done].
    exists m. split; [done|]. by injection Hg as _ <-.
  - intros n Hn. rewrite Hnum.
    destruct (n <? 0)%Z eqn:Hneg; [apply Z.ltb_lt in Hneg; lia|].
    destruct (2147483647 <=? n)%Z eqn:Hmax; [done|].
    apply Z.leb_gt in Hmax. lia.
  - intros n Hn. rewrite Hnum.
    destruct (n <? 0)%Z eqn:Hneg; [done|]. apply Z.ltb_ge in Hneg. lia.
Qed.

(** *** Increments of one tenant do not interleave *)

Lemma calls_of_snoc k c cs :
  calls_of k (cs ++ [c]) =
  calls_of k cs ++ (if decide (call_tenant c = k) then [c] else []).
Proof. unfold calls_of. by rewrite filter_app. Qed.

Lemma calls_of_own k c cs :
  call_tenant c = k → calls_of k (cs ++ [c]) = calls_of k cs ++ [c].
Proof. intros Hc. by rewrite calls_of_snoc, decide_True. Qed.

Lemma calls_of_foreign k k' cs cs' :
  k' ≠ k → Forall (λ c, call_tenant c = k') cs' →
  calls_of k (cs ++ cs') = calls_of k cs.
Proof.
  intros Hne Hall. unfold calls_of. rewrite filter_app.
  rewrite <-(app_nil_r (filter _ cs)) at 2. f_equal.
  induction Hall as [|c cs' Hc _ IH]; [done|].
  rewrite filter_cons_False; [done|]. congruence.
Qed.

Lemma stages_snoc cs c :
  stages (cs ++ [c]) = match stages cs with
                       | Some st => stage_step st c
                       | None => None
                       end.
Proof. unfold stages. by rewrite foldl_app. Qed.

Lemma stages_None cs :
  foldl (λ acc c, match acc with
                  | Some st => stage_step st c
                  | None => None
                  end) None cs = None.
Proof. by induction cs. Qed.

Lemma stages_app_Some cs1 cs2 st :
  stages (cs1 ++ cs2) = Some st → ∃ st1, stages cs1 = Some st1.
Proof.
  unfold stages. rewrite foldl_app.
  destruct (foldl _ (Some Idle) cs1) as [st1|]; [eauto|].
  by rewrite stages_None.
Qed.

(** What the last call was, from where the increment stands. *)
Lemma stages_last cs st :
  stages cs = Some st →
  match st with
  | Idle => cs = [] ∨ ∃ cs0 k, cs = cs0 ++ [Settles k]
  | Reading => ∃ cs0 k, cs = cs0 ++ [GetByTenantId k]
  | Writing => ∃ cs0 k n, cs = cs0 ++ [UpdateByTenantId k n]
  end.
Proof.
  destruct cs as [|c cs _] using rev_ind.
  { intros [= <-]. by left. }
  rewrite stages_snoc. destruct (stages cs) as [st1|] eqn:Hst1; [|done].
  destruct c as [k0|k0 n0|k0], st1; simpl; try done; intros [= <-]; eauto.
Qed.

Lemma key_view_parts k s s' :
  key_view k s' = key_view k s →
  backlog k s' = backlog k s ∧ workers_of k s' = workers_of k s.
Proof. unfold key_view. by intros [= _ ? ? _]. Qed.

(** A turn of another tenant changes nothing for [k]. *)
Lemma inc_key_frame k kA s s' cs :
  kA ≠ k → key_view k s' = key_view k s →
  calls (world s') = calls (world s) ++ cs →
  Forall (λ c, call_tenant c = kA) cs →
  key_ok k s → key_ok k s'.
Proof.
  intros Hne [Hb Hw]%key_view_parts Hc Hall (H1 & H2).
  unfold inc_key. rewrite Hb, Hw, Hc.
  by rewrite (calls_of_foreign k kA).
Qed.

(** The increment of [k] started on a world. *)
Lemma drain_result_increment k l h q w :
  drain_result k l (Entry (increment k) h :: q) w =
    Drained (called (GetByTenantId k) w) [Started k h] (Some q)
            (Some (Worker k l h (Pending (got k)))).
Proof. done. Qed.

Lemma inc_key_started k l h q s' cs0 :
  backlog k s' = q → workers_of k s' = [Worker k l h (Pending (got k))] →
  calls (world s') = cs0 ++ [GetByTenantId k] →
  Forall (λ e, entry_operation e = increment k) q →
  stages (calls_of k cs0) = Some Idle →
  key_ok k s'.
Proof.
  intros Hb Hw Hc Hq Hp. unfold inc_key. rewrite Hb, Hw, Hc.
  split; [done|]. exists Reading.
  rewrite calls_of_own, stages_snoc, Hp by done. split; [done|].
  simpl. by left.
Qed.

(** What the two resumptions of an increment do to the world. *)
Lemma got_cases k o w :
  (fst (got k o w) = called (Settles k) w ∧
   match snd (got k o w) with Pending _ => False | _ => True end) ∨
  (∃ n, got k o w =
          (called (UpdateByTenantId k n) w, Pending (updated k n))).
Proof.
  unfold after_get. destruct o as [counter|e]; [|by left].
  destruct (truthy counter); simpl; [|by left].
  destruct (checked (get_value counter)); [by left|right; by eexists].
Qed.

Lemma updated_cases k n o w :
  fst (updated k n o w) = called (Settles k) w ∧
  match snd (updated k n o w) with Pending _ => False | _ => True end.
Proof.
  unfold after_update. destruct o as [x|e]; [|done].
  by destruct (formatOrderNumber _ _).
Qed.

Lemma inc_inv_turn kA s s' cs :
  all_ok s → (∀ k', kA ≠ k' → key_view k' s' = key_view k' s) →
  calls (world s') = calls (world s) ++ cs →
  Forall (λ c, call_tenant c = kA) cs →
  key_ok kA s' → all_ok s'.
Proof.
  intros Hok Hframe Hc Hall HkA k'.
  destruct (decide (kA = k')) as [<-|Hne]; [done|].
  by apply (inc_key_frame k' kA s s' cs); auto.
Qed.

Lemma inc_inv_step s ev s' :
  Inv s → all_ok s → increments ev → step s ev = Some s' → all_ok s'.
Proof.
  intros HI Hok Hev Hstep.
  pose proof HI as (Hreg & Hh & Hrest & Hrep).
  destruct ev as [k op|h o|h].
  - simpl in Hev. subst op.
    assert (Hframe : ∀ k', k ≠ k' → key_view k' s' = key_view k' s).
    { intros k' Hne.
      by destruct (step_frame s _ s' k k' HI Hstep eq_refl Hne) as [? _]. }
    simpl in Hstep. injection Hstep as Hs'.
    pose proof (Hrest k) as Hr. unfold key_rest in Hr.
    destruct (Hok k) as (Hb & st & Hst & Hw).
    destruct (queues s !! k) as [l|] eqn:Hq.
    + destruct Hr as [Hpr _].
      rewrite (enqueue_busy k _ s l Hq Hpr) in Hs'.
      apply (inc_inv_turn k s s' []); [done|done| |done|].
      { subst s'. simpl. by rewrite app_nil_r. }
      subst s'. unfold inc_key. unfold backlog in *. simpl.
      rewrite Hq in *. unfold array_at at 1. simpl.
      rewrite lookup_insert_eq. simpl. split; [|by exists st].
      apply Forall_app. split; [done|]. by repeat constructor.
    + destruct Hr as [Hnp Hnw]. rewrite Hnw in Hw. subst st.
      rewrite (enqueue_fresh k (increment k) s Hq Hnp) in Hs'.
      rewrite drain_result_increment in Hs'.
      apply (inc_inv_turn k s s' [GetByTenantId k]);
        [done|done|by subst s'|by repeat constructor|].
      apply (inc_key_started k (next_loc s) (next_handle s) [] s'
               (calls (world s))); [| |by subst s'|done|done].
      * subst s'. unfold backlog, array_at. simpl.
        by rewrite !lookup_insert_eq.
      * subst s'. unfold workers_of in *. simpl.
        rewrite filter_app, Hnw. simpl. by rewrite filter_cons_True.
  - assert (∃ wk rest, pick h (suspended s) = Some (wk, rest))
      as (wk & rest & Hp).
    { simpl in Hstep. unfold progress in Hstep.
      destruct (pick h (suspended s)) as [[wk rest]|]; [eauto|done]. }
    assert (Hframe : ∀ k', wk_tenantId wk ≠ k' →
              key_view k' s' = key_view k' s).
    { intros k' Hne.
      destruct (step_frame s _ s' (wk_tenantId wk) k' HI Hstep) as [? _];
        [simpl; by rewrite Hp|done|done]. }
    simpl in Hstep. unfold progress in Hstep. rewrite Hp in Hstep.
    pose proof Hp as (Hwh & ws1 & ws2 & Hs & ->)%pick_Some.
    destruct (suspended_worker s wk ws1 ws2 Hs (Hrest _)) as (Hq & Hpr & Hf).
    set (k := wk_tenantId wk) in *.
    destruct (wk_awaiting wk) as [| |resume] eqn:Haw; try done.
    injection Hstep as Hs'.
    destruct (Hok k) as (Hb & st & Hst & Hw).
    assert (Hwk : workers_of k s = [wk]).
    { pose proof (Hrest k) as Hr. unfold key_rest in Hr. rewrite Hq in Hr.
      destruct Hr as (_ & h0 & p0 & Hw0). rewrite Hw0.
      unfold workers_of in Hw0. rewrite Hs in Hw0.
      by apply filter_singleton_split in Hw0 as [-> _]. }
    rewrite Hwk, Haw in Hw.
    assert (Hnew : workers_of k s' =
                   [Worker k (wk_queue wk) h (snd (resume o (world s)))]).
    { subst s'. unfold workers_of. simpl. rewrite filter_app, Hf. simpl.
      by rewrite filter_cons_True. }
    assert (Hbl : backlog k s' = backlog k s) by (by subst s').
    assert (Hwd : world s' = fst (resume o (world s))) by (by subst s').
    assert (Hends : st ≠ Idle →
              fst (resume o (world s)) = called (Settles k) (world s) →
              match snd (resume o (world s)) with
              | Pending _ => False | _ => True end →
              all_ok s').
    { intros Hne Hw1 Hp1.
      apply (inc_inv_turn k s s' [Settles k]);
        [done|done|by rewrite Hwd, Hw1|by repeat constructor|].
      unfold inc_key. rewrite Hbl, Hnew, Hwd, Hw1. split; [done|].
      exists Idle. simpl. rewrite calls_of_own, stages_snoc, Hst by done.
      split; [by destruct st|].
      by destruct (snd (resume o (world s))). }
    simpl in Hw. destruct Hw as [[-> ->]|[n [-> ->]]].
    + destruct (got_cases k o (world s)) as [[Hw1 Hp1]|[n Hn]];
        [by apply Hends|].
      rewrite Hn in Hnew, Hwd. simpl in Hnew, Hwd.
      apply (inc_inv_turn k s s' [UpdateByTenantId k n]);
        [done|done|by rewrite Hwd|by repeat constructor|].
      unfold inc_key. rewrite Hbl, Hnew, Hwd. simpl. split; [done|].
      exists Writing. rewrite calls_of_own, stages_snoc, Hst by done.
      split; [done|]. simpl. right. by eexists.
    + destruct (updated_cases k n o (world s)) as [Hw1 Hp1].
      by apply Hends.
  - assert (∃ wk rest, pick h (suspended s) = Some (wk, rest))
      as (wk & rest & Hp).
    { simpl in Hstep. unfold wake in Hstep.
      destruct (pick h (suspended s)) as [[wk rest]|]; [eauto|done]. }
    assert (Hframe : ∀ k', wk_tenantId wk ≠ k' →
              key_view k' s' = key_view k' s).
    { intros k' Hne.
      destruct (step_frame s _ s' (wk_tenantId wk) k' HI Hstep) as [? _];
        [simpl; by rewrite Hp|done|done]. }
    simpl in Hstep.
    pose proof Hp as (Hwh & ws1 & ws2 & Hs & Hrest')%pick_Some.
    destruct (suspended_worker s wk ws1 ws2 Hs (Hrest _)) as (Hq & Hpr & Hf).
    assert (Hmatch : ∃ o, match wk_awaiting wk with
                          | Resolved v => o = Fulfilled v
                          | Failed e => o = Rejected e
                          | Pending _ => False
                          end).
    { unfold wake in Hstep. rewrite Hp in Hstep.
      destruct (wk_awaiting wk); try done; eauto. }
    destruct Hmatch as [o Ho].
    rewrite (wake_spec h s wk rest o Hp Ho) in Hstep.
    injection Hstep as Hs'. cbn zeta in Hs'.
    set (k := wk_tenantId wk) in *. set (l := wk_queue wk) in *.
    destruct (Hok k) as (Hb & st & Hst & Hw).
    assert (Hwk : workers_of k s = [wk]).
    { pose proof (Hrest k) as Hr. unfold key_rest in Hr. rewrite Hq in Hr.
      destruct Hr as (_ & h0 & p0 & Hw0). rewrite Hw0.
      unfold workers_of in Hw0. rewrite Hs in Hw0.
      apply filter_singleton_split in Hw0 as [Heq _]; [|done].
      by rewrite <-Heq. }
    rewrite Hwk in Hw.
    assert (st = Idle) as ->.
    { simpl in Hw. by destruct (wk_awaiting wk). }
    assert (Hbq : backlog k s = array_at l s).
    { unfold backlog. by rewrite Hq. }
    rewrite Hbq in Hb.
    assert (Hwr : filter (λ w0 : worker (@iworld D), wk_tenantId w0 = k) rest
                  = []) by (by rewrite Hrest').
    destruct (array_at l s) as [|e q] eqn:Harr.
    + change (drain_result k l [] (world s))
        with (Drained (world s) [WorkerExit k] None None) in Hs'.
      apply (inc_inv_turn k s s' []); [done|done| |done|].
      { subst s'. simpl. by rewrite app_nil_r. }
      unfold inc_key. subst s'. unfold backlog, workers_of. simpl.
      rewrite lookup_delete_eq, app_nil_r, Hwr. split; [done|].
      by exists Idle.
    + apply Forall_cons in Hb as [He Hb].
      assert (e = Entry (increment k) (entry_handle e)) as Hent.
      { destruct e as [op' h']. simpl in *. by subst op'. }
      rewrite Hent, drain_result_increment in Hs'.
      apply (inc_inv_turn k s s' [GetByTenantId k]);
        [done|done|by subst s'|by repeat constructor|].
      apply (inc_key_started k l (entry_handle e) q s' (calls (world s)));
        [| |by subst s'|done|done].
      * subst s'. unfold backlog, array_at. simpl. rewrite Hq. simpl.
        by rewrite lookup_insert_eq.
      * subst s'. unfold workers_of. simpl. rewrite filter_app, Hwr.
        simpl. by rewrite filter_cons_True.
Qed.

Lemma inc_inv_run evs s s' :
  Inv s → all_ok s → Forall increments evs → run s evs = Some s' →
  all_ok s'.
Proof.
  revert s. induction evs as [|ev evs IH]; intros s HI Hok Hev; simpl.
  - by intros [= <-].
  - apply Forall_cons in Hev as [Hev Hevs].
    destruct (step s ev) as [s1|] eqn:Hstep; [|done].
    apply IH; [by eapply step_inv|by eapply inc_inv_step|done].
Qed.

Lemma calls_of_tenant k cs : Forall (λ c, call_tenant c = k) (calls_of k cs).
Proof.
  apply Forall_forall. intros c Hc.
  by apply list_elem_of_filter in Hc as [? _].
Qed.

(** X14.  Increments of one tenant do not interleave.  On a queue that
    carries increments, each under the key of its tenant, the calls made
    for a tenant are those of one increment after the other: a read,
    perhaps the write, and the end, before the next read.  So every
    [updateByTenantId] comes directly after the [getByTenantId] of the
    same increment, and no increment reads before the one before it has
    returned or thrown.  While none is in flight for the tenant the last
    one has ended. *)
Theorem increments_do_not_interleave (d : D) evs s k :
  run (init (IWorld d [])) evs = Some s →
  Forall increments evs →
  (∃ st, stages (calls_of k (calls (world s))) = Some st ∧
         (workers_of k s = [] → st = Idle)) ∧
  (∀ cs1 n cs2,
     calls_of k (calls (world s)) = cs1 ++ UpdateByTenantId k n :: cs2 →
     ∃ cs0, cs1 = cs0 ++ [GetByTenantId k]) ∧
  (∀ cs1 cs2,
     calls_of k (calls (world s)) = cs1 ++ GetByTenantId k :: cs2 →
     cs1 = [] ∨ ∃ cs0, cs1 = cs0 ++ [Settles k]) ∧
  Forall (λ c, call_tenant c = k) (calls_of k (calls (world s))).
Proof.
  intros Hrun Hev.
  assert (all_ok (init (IWorld d []))) as Hinit.
  { intros k'. unfold inc_key, backlog, workers_of. simpl.
    rewrite lookup_empty. split; [done|]. by exists Idle. }
  pose proof (inc_inv_run evs _ s (init_inv _) Hinit Hev Hrun) as Hok.
  destruct (Hok k) as (Hb & st & Hst & Hw).
  pose proof (calls_of_tenant k (calls (world s))) as Hall.
  assert (Hbefore : ∀ cs1 c cs2,
            calls_of k (calls (world s)) = cs1 ++ c :: cs2 →
            ∃ st1, stages cs1 = Some st1 ∧ is_Some (stage_step st1 c) ∧
                   Forall (λ c, call_tenant c = k) cs1).
  { intros cs1 c cs2 Heq. rewrite Heq in Hst, Hall.
    rewrite (assoc_L _ cs1 [c] cs2 : cs1 ++ c :: cs2 = (cs1 ++ [c]) ++ cs2)
      in Hst.
    apply stages_app_Some in Hst as [st2 Hst2].
    rewrite stages_snoc in Hst2.
    destruct (stages cs1) as [st1|]; [|done].
    exists st1. split_and!; [done|by rewrite Hst2|].
    by apply Forall_app in Hall as [? _]. }
  split_and!; [|  | |done].
  - exists st. split; [done|]. intros Hnil. by rewrite Hnil in Hw.
  - intros cs1 n cs2 Heq.
    destruct (Hbefore _ _ _ Heq) as (st1 & Hst1 & [st2 Hstep] & Hk).
    destruct st1; try done.
    destruct (stages_last _ _ Hst1) as (cs0 & k' & ->).
    apply Forall_app in Hk as [_ Hk]. rewrite Forall_singleton in Hk.
    simpl in Hk. subst k'. by exists cs0.
  - intros cs1 cs2 Heq.
    destruct (Hbefore _ _ _ Heq) as (st1 & Hst1 & [st2 Hstep] & Hk).
    destruct st1; try done.
    destruct (stages_last _ _ Hst1) as [->|(cs0 & k' & ->)]; [by left|].
    apply Forall_app in Hk as [_ Hk]. rewrite Forall_singleton in Hk.
    simpl in Hk. subst k'. right. by exists cs0.
Qed.

End IncrementProofs.

(** * The theorems at the scenarios of the test suite *)

Section Witnesses.
Import Demo.
Import Job.

(** The outcomes of the operations of the scenarios: an operation that
    returns [v] has the one outcome [Fulfilled v], one that rejects or
    throws [e] the one outcome [Rejected e]. *)
Lemma own_outcome_returns v o : own_outcome (returns v) o ↔ o = Fulfilled v.
Proof.
  assert (Hr : ∀ p, remains_of (returns v) p → p = Resolved v).
  { induction 1 as [w p Hp|resume o' w _ IH]; [by injection Hp|done]. }
  split; [|intros ->; by apply (remains_returned _ ())].
  destruct o as [v'|e]; simpl.
  - intros H%Hr. by injection H as ->.
  - intros [H%Hr|[w H]]; done.
Qed.

Lemma own_outcome_rejects e o : own_outcome (rejects e) o ↔ o = Rejected e.
Proof.
  assert (Hr : ∀ p, remains_of (rejects e) p → p = Failed e).
  { induction 1 as [w p Hp|resume o' w _ IH]; [by injection Hp|done]. }
  split; [|intros ->; left; by apply (remains_returned _ ())].
  destruct o as [v'|e']; simpl.
  - intros H%Hr. done.
  - intros [H%Hr|[w H]]; [by injection H as ->|done].
Qed.

Lemma own_outcome_throws e o : own_outcome (throws e) o ↔ o = Rejected e.
Proof.
  assert (Hr : ∀ p, ¬ remains_of (throws e) p).
  { intros p. induction 1 as [w p Hp|resume o' w _ IH]; done. }
  split; [|intros ->; right; by exists ()].
  destruct o as [v'|e']; simpl.
  - intros H. by destruct (Hr _ H).
  - intros [H|[w H]]; [by destruct (Hr _ H)|by injection H as ->].
Qed.

Lemma fifo_start_order_witness :
  let s := outcome_of error_isolation in
  run (init ()) error_isolation = Some s ∧
  submitted tenant1 (trace s) = started tenant1 (trace s) ++ (entry_handle <$> backlog tenant1 s) ∧
  (∀ t1 h t2, trace s = t1 ++ Started tenant1 h :: t2 →
     (∃ rest, submitted tenant1 t1 = started tenant1 t1 ++ h :: rest) ∧
     started tenant1 t1 = settled tenant1 t1) ∧
  (∀ i j hi hj t1 t2,
     i < j →
     submitted tenant1 (trace s) !! i = Some hi →
     submitted tenant1 (trace s) !! j = Some hj →
     trace s = t1 ++ Started tenant1 hj :: t2 →
     hi ∈ settled tenant1 t1) ∧
  submitted tenant1 (trace s) = (enqueued_under tenant1 0 (enqueued error_isolation)).*1 ∧
  entry_pair <$> backlog tenant1 s =
    drop (length (started tenant1 (trace s))) (enqueued_under tenant1 0 (enqueued error_isolation)) ∧
  (∀ wk, wk ∈ workers_of tenant1 s →
     ∃ op,
       enqueued_under tenant1 0 (enqueued error_isolation) !! (length (started tenant1 (trace s)) - 1)
         = Some (wk_handle wk, op) ∧
       remains_of op (wk_awaiting wk)) ∧
  (∀ h wk rest o e q,
     pick h (suspended s) = Some (wk, rest) → wk_tenantId wk = tenant1 →
     settles_as (wk_awaiting wk) o →
     backlog tenant1 s = e :: q →
     enqueued_under tenant1 0 (enqueued error_isolation) !! length (started tenant1 (trace s))
       = Some (entry_pair e) ∧
     ∃ s' d, wake h s = Some s' ∧
       trace s' = trace s ++ Settled tenant1 h o :: Started tenant1 (entry_handle e) :: d ∧
       match snd (entry_operation e (world s)) with
       | Returned p =>
           d = [] ∧
           world s' = fst (entry_operation e (world s)) ∧
           workers_of tenant1 s' = [Worker tenant1 (wk_queue wk) (entry_handle e) p] ∧
           backlog tenant1 s' = q
       | Threw err =>
           ∃ d', d = Settled tenant1 (entry_handle e) (Rejected err) :: d'
       end) ∧
  (∀ op, queues s !! tenant1 = None →
     match snd (op (world s)) with
     | Returned p =>
         trace (fst (enqueue tenant1 op s)) =
           trace s ++ [Submitted tenant1 (next_handle s); WorkerStart tenant1;
                       Started tenant1 (next_handle s)] ∧
         world (fst (enqueue tenant1 op s)) = fst (op (world s)) ∧
         workers_of tenant1 (fst (enqueue tenant1 op s)) =
           [Worker tenant1 (next_loc s) (next_handle s) p] ∧
         backlog tenant1 (fst (enqueue tenant1 op s)) = []
     | Threw err =>
         trace (fst (enqueue tenant1 op s)) =
           trace s ++ [Submitted tenant1 (next_handle s); WorkerStart tenant1;
                       Started tenant1 (next_handle s);
                       Settled tenant1 (next_handle s) (Rejected err);
                       WorkerExit tenant1] ∧
         world (fst (enqueue tenant1 op s)) = fst (op (world s)) ∧
         workers_of tenant1 (fst (enqueue tenant1 op s)) = []
     end).
Proof.
  intros s. split; [by vm_compute|].
  apply (fifo_start_order () error_isolation s tenant1). by vm_compute.
Defined.

Lemma single_worker_per_key_witness :
  let s := outcome_of error_isolation in
  run (init ()) error_isolation = Some s ∧
  length (workers_of tenant1 s) ≤ 1 ∧
  (tenant1 ∈ processing s ↔ workers_of tenant1 s ≠ []) ∧
  alternates true (worker_events tenant1 (trace s)) = true ∧
  (∀ t1 t2, trace s = t1 ++ t2 →
     length (started tenant1 t1) ≤ S (length (settled tenant1 t1))) ∧
  (∀ op, tenant1 ∈ processing s →
     suspended (fst (enqueue tenant1 op s)) = suspended s ∧
     trace (fst (enqueue tenant1 op s)) =
       trace s ++ [Submitted tenant1 (next_handle s)]).
Proof.
  intros s. split; [by vm_compute|].
  apply (single_worker_per_key () error_isolation s tenant1). by vm_compute.
Defined.

Lemma settled_exactly_once_witness :
  let s := outcome_of error_isolation in
  run (init ()) error_isolation = Some s ∧
  (∀ h, length (settlements h (trace s)) ≤ 1) ∧
  (∀ k h, h ∈ submitted k (trace s) →
     h ∈ settled k (trace s) ∨ in_flight k s = Some h ∨
     h ∈ entry_handle <$> backlog k s) ∧
  (quiescent s → ∀ k h, h ∈ submitted k (trace s) →
     length (settlements h (trace s)) = 1) ∧
  (∀ h wk rest, pick h (suspended s) = Some (wk, rest) →
     match wk_awaiting wk with
     | Resolved v =>
         ∃ s', wake h s = Some s' ∧ settlements h (trace s') = [Fulfilled v]
     | Failed e =>
         ∃ s', wake h s = Some s' ∧ settlements h (trace s') = [Rejected e]
     | Pending _ => wake h s = None ∧ settlements h (trace s) = []
     end) ∧
  (∀ k h o, Settled k h o ∈ trace s →
     ∃ op, enqueued error_isolation !! h = Some (k, op) ∧ own_outcome op o ∧
           settlements h (trace s) = [o]) ∧
  (∀ k e, e ∈ backlog k s →
     enqueued error_isolation !! entry_handle e = Some (k, entry_operation e)) ∧
  (∀ wk, wk ∈ suspended s →
     ∃ op, enqueued error_isolation !! wk_handle wk = Some (wk_tenantId wk, op) ∧
           remains_of op (wk_awaiting wk)) ∧
  (∀ h wk rest o e q,
     pick h (suspended s) = Some (wk, rest) →
     settles_as (wk_awaiting wk) o →
     backlog (wk_tenantId wk) s = e :: q →
     ∃ s', wake h s = Some s' ∧
       match snd (entry_operation e (world s)) with
       | Returned p =>
           trace s' = trace s ++ [Settled (wk_tenantId wk) h o;
                                  Started (wk_tenantId wk) (entry_handle e)] ∧
           world s' = fst (entry_operation e (world s)) ∧
           workers_of (wk_tenantId wk) s' =
             [Worker (wk_tenantId wk) (wk_queue wk) (entry_handle e) p] ∧
           backlog (wk_tenantId wk) s' = q
       | Threw err =>
           trace s' = trace s ++
             Settled (wk_tenantId wk) h o ::
             Started (wk_tenantId wk) (entry_handle e) ::
             Settled (wk_tenantId wk) (entry_handle e) (Rejected err) ::
             d_events (drain_result (wk_tenantId wk) (wk_queue wk) q
                                    (fst (entry_operation e (world s)))) ∧
           world s' =
             d_world (drain_result (wk_tenantId wk) (wk_queue wk) q
                                   (fst (entry_operation e (world s)))) ∧
           settlements (entry_handle e) (trace s') = [Rejected err]
       end) ∧
  (∀ h wk rest resume o,
     pick h (suspended s) = Some (wk, rest) →
     wk_awaiting wk = Pending resume →
     ∃ s', progress h o s = Some s' ∧
       world s' = fst (resume o (world s)) ∧
       suspended s' =
         rest ++ [Worker (wk_tenantId wk) (wk_queue wk) h
                         (snd (resume o (world s)))] ∧
       trace s' = trace s ∧ queues s' = queues s ∧ arrays s' = arrays s) ∧
  (∀ k op, queues s !! k = None →
     match snd (op (world s)) with
     | Returned p =>
         trace (fst (enqueue k op s)) =
           trace s ++ [Submitted k (next_handle s); WorkerStart k;
                       Started k (next_handle s)] ∧
         world (fst (enqueue k op s)) = fst (op (world s)) ∧
         workers_of k (fst (enqueue k op s)) =
           [Worker k (next_loc s) (next_handle s) p] ∧
         backlog k (fst (enqueue k op s)) = []
     | Threw err =>
         trace (fst (enqueue k op s)) =
           trace s ++ [Submitted k (next_handle s); WorkerStart k;
                       Started k (next_handle s);
                       Settled k (next_handle s) (Rejected err);
                       WorkerExit k] ∧
         world (fst (enqueue k op s)) = fst (op (world s)) ∧
         workers_of k (fst (enqueue k op s)) = []
     end) ∧
  Acc worker_step s ∧
  (¬ quiescent s → ∃ s', worker_step s' s) ∧
  (∀ evs' s', run s evs' = Some s' → (∀ s'', ¬ worker_step s'' s') →
     ∀ h k op, enqueued error_isolation !! h = Some (k, op) →
     ∃ o, settlements h (trace s') = [o] ∧ own_outcome op o) ∧
  (∃ evs' s', run s evs' = Some s' ∧ Forall worker_turn evs' ∧
     quiescent s' ∧
     ∀ h k op, enqueued error_isolation !! h = Some (k, op) →
     ∃ o, settlements h (trace s') = [o] ∧ own_outcome op o).
Proof.
  intros s. split; [by vm_compute|].
  apply (settled_exactly_once () error_isolation s). by vm_compute.
Defined.

Lemma failure_is_isolated_witness :
  let s := outcome_of error_isolation in
  let e := VError "Second operation failed" in
  let wk := Worker tenant1 0 1 (Failed e) in
  let h := 1 in
  let rest := [] in
  run (init ()) error_isolation = Some s ∧
  pick h (suspended s) = Some (wk, rest) ∧
  wk_awaiting wk = Failed e ∧
  ∃ s' d,
    wake h s = Some s' ∧
    trace s' = trace s ++ Settled (wk_tenantId wk) h (Rejected e) :: d ∧
    d = d_events (drain_result (wk_tenantId wk) (wk_queue wk)
                               (backlog (wk_tenantId wk) s) (world s)) ∧
    Forall (λ o, obs_key o = wk_tenantId wk) d ∧
    settlements h (trace s') = [Rejected e] ∧
    (∀ e2 q, backlog (wk_tenantId wk) s = e2 :: q →
       ∃ d', d = Started (wk_tenantId wk) (entry_handle e2) :: d') ∧
    (∀ e', e' ∈ backlog (wk_tenantId wk) s →
       entry_handle e' ∈ settled (wk_tenantId wk) (trace s') ∨
       in_flight (wk_tenantId wk) s' = Some (entry_handle e') ∨
       entry_handle e' ∈ entry_handle <$> backlog (wk_tenantId wk) s') ∧
    (backlog (wk_tenantId wk) s' ≠ [] →
       wk_tenantId wk ∈ processing s' ∧ workers_of (wk_tenantId wk) s' ≠ []) ∧
    (∀ v, ∃ s_ok,
       wake h (set_suspended
                 (Worker (wk_tenantId wk) (wk_queue wk) h (Resolved v) :: rest) s)
         = Some s_ok ∧
       trace s_ok = trace s ++ Settled (wk_tenantId wk) h (Fulfilled v) :: d ∧
       queues s_ok = queues s' ∧ arrays s_ok = arrays s' ∧
       processing s_ok = processing s' ∧ suspended s_ok = suspended s' ∧
       world s_ok = world s') ∧
    (∀ k', k' ≠ wk_tenantId wk →
       queues s' !! k' = queues s !! k' ∧
       backlog k' s' = backlog k' s ∧
       workers_of k' s' = workers_of k' s ∧
       (k' ∈ processing s' ↔ k' ∈ processing s)) ∧
    (∃ op, enqueued error_isolation !! h = Some (wk_tenantId wk, op) ∧
           remains_of op (Failed e)) ∧
    (∀ e', e' ∈ backlog (wk_tenantId wk) s →
       enqueued error_isolation !! entry_handle e'
         = Some (wk_tenantId wk, entry_operation e')) ∧
    (∀ e2 q p, backlog (wk_tenantId wk) s = e2 :: q →
       snd (entry_operation e2 (world s)) = Returned p →
       d = [Started (wk_tenantId wk) (entry_handle e2)] ∧
       world s' = fst (entry_operation e2 (world s)) ∧
       workers_of (wk_tenantId wk) s' =
         [Worker (wk_tenantId wk) (wk_queue wk) (entry_handle e2) p] ∧
       backlog (wk_tenantId wk) s' = q) ∧
    (∀ e2 q err, backlog (wk_tenantId wk) s = e2 :: q →
       snd (entry_operation e2 (world s)) = Threw err →
       d = Started (wk_tenantId wk) (entry_handle e2) ::
           Settled (wk_tenantId wk) (entry_handle e2) (Rejected err) ::
           d_events (drain_result (wk_tenantId wk) (wk_queue wk) q
                                  (fst (entry_operation e2 (world s)))) ∧
       world s' =
         d_world (drain_result (wk_tenantId wk) (wk_queue wk) q
                               (fst (entry_operation e2 (world s)))) ∧
       settlements (entry_handle e2) (trace s') = [Rejected err]) ∧
    (∀ evs' s'', run s' evs' = Some s'' → (∀ s3, ¬ worker_step s3 s'') →
       ∀ e', e' ∈ backlog (wk_tenantId wk) s →
       ∃ o, settlements (entry_handle e') (trace s'') = [o] ∧
            own_outcome (entry_operation e') o) ∧
    (∃ evs' s'', run s' evs' = Some s'' ∧ Forall worker_turn evs' ∧
       quiescent s'' ∧
       ∀ e', e' ∈ backlog (wk_tenantId wk) s →
       ∃ o, settlements (entry_handle e') (trace s'') = [o] ∧
            own_outcome (entry_operation e') o).
Proof.
  intros s e wk h rest. split_and!; [by vm_compute|by vm_compute|done|].
  apply (failure_is_isolated () error_isolation s h wk rest e);
    [by vm_compute|by vm_compute|done].
Defined.

Lemma registry_tracks_activity_witness :
  let s := outcome_of error_isolation in
  run (init ()) error_isolation = Some s ∧
  (is_Some (queues s !! tenant1) ↔
     backlog tenant1 s ≠ [] ∨ workers_of tenant1 s ≠ []) ∧
  (∀ wk, wk ∈ suspended s →
     queues s !! wk_tenantId wk = Some (wk_queue wk)) ∧
  (tenant1 ∉ processing s → queues s !! tenant1 = None) ∧
  dom (queues s) = processing s ∧
  (is_Some (queues s !! tenant1) ↔
     settled tenant1 (trace s) ≠ submitted tenant1 (trace s)) ∧
  (quiescent s → queues s = ∅ ∧ processing s = ∅).
Proof.
  intros s. split; [by vm_compute|].
  apply (registry_tracks_activity () error_isolation s tenant1). by vm_compute.
Defined.

Lemma reuse_like_first_use_witness :
  let s := outcome_of batch1 in
  let s2 := default (init ()) (run (fresh_like s) batch2) in
  run (init ()) batch1 = Some s ∧
  queues s !! tenant1 = None ∧
  Forall (on_key tenant1) batch2 ∧
  run (fresh_like s) batch2 = Some s2 ∧
  ((tenant1 ∉ processing s) ∧ workers_of tenant1 s = [] ∧
   backlog tenant1 s = [] ∧
   submitted tenant1 (trace s) = settled tenant1 (trace s)) ∧
  ∃ s1,
    run s batch2 = Some s1 ∧
    same_key_view tenant1 (trace s) s1 s2 ∧
    submitted tenant1 (trace s1) =
      submitted tenant1 (trace s) ++ submitted tenant1 (trace s2) ∧
    settled tenant1 (trace s1) =
      submitted tenant1 (trace s) ++ settled tenant1 (trace s2).
Proof.
  intros s s2.
  assert (Hon : Forall (on_key tenant1) batch2) by (repeat constructor).
  assert (H1 : run (init ()) batch1 = Some s) by (by vm_compute).
  assert (H2 : queues s !! tenant1 = None) by (by vm_compute).
  assert (H3 : run (fresh_like s) batch2 = Some s2) by (by vm_compute).
  do 4 (split; [done|]).
  by apply (reuse_like_first_use () batch1 s tenant1 batch2 s2).
Defined.

Lemma formatOrderNumber_spec_witness :
  let now := {| getFullYear := 2024; getMonth := 11 |} in
  let v := JNumber (Finite (QArith_base.inject_Z 123)) in
  (10 ≤ getFullYear now ≤ 275760)%Z ∧ (0 ≤ getMonth now ≤ 11)%Z ∧
  (formatOrderNumber now v = Abrupt (VError "Input must be a positive integer")
     ↔ ¬ positive_integer v) ∧
  (∀ e, formatOrderNumber now v = Abrupt e →
        e = VError "Input must be a positive integer") ∧
  (∀ n, (0 < n)%Z → (n ≤ MAX_SAFE_INTEGER)%Z → denotes v n →
     ∃ N,
       formatOrderNumber now v =
         Normal ("ORD-" +:+ two_digits (getFullYear now) +:+
                 two_digits (getMonth now + 1) +:+ "-" +:+ N) ∧
       digits_only N ∧ decimal_value N = n ∧
       ((n ≤ 999999)%Z → String.length N = 6%nat) ∧
       ((999999 < n)%Z →
          N = Number_toString n ∧ (6 < String.length N)%nat ∧
          ¬ leading_zero N)).
Proof.
  intros now v.
  assert (H1 : (10 ≤ getFullYear now ≤ 275760)%Z) by (simpl; lia).
  assert (H2 : (0 ≤ getMonth now ≤ 11)%Z) by (simpl; lia).
  split; [done|]. split; [done|].
  by apply (formatOrderNumber_spec now v).
Defined.

(** Beyond the safe integers the number is not printed in its digits: at
    [1e21] the order number carries an exponent, and at [2^64] digits that
    denote another number. *)
Lemma unsafe_integer_is_not_printed_in_digits :
  let now := {| getFullYear := 2024; getMonth := 11 |} in
  let v := JNumber (Finite (QArith_base.inject_Z (10 ^ 21))) in
  let v' := JNumber (Finite (QArith_base.inject_Z (2 ^ 64))) in
  positive_integer v ∧ denotes v (10 ^ 21) ∧
  formatOrderNumber now v = Normal "ORD-2412-01e+21" ∧
  ¬ digits_only "01e+21" ∧
  positive_integer v' ∧ denotes v' (2 ^ 64) ∧
  formatOrderNumber now v' = Normal "ORD-2412-18446744073709552000" ∧
  decimal_value "18446744073709552000" ≠ (2 ^ 64)%Z.
Proof.
  intros now v v'. split_and!.
  - exists (10 ^ 21)%Z. split; [lia|done].
  - done.
  - by vm_compute.
  - intros (_ & _ & [_ He] & _). apply Nat.leb_le in He. by vm_compute in He.
  - exists (2 ^ 64)%Z. split; [lia|done].
  - done.
  - by vm_compute.
  - by vm_compute.
Qed.

(** [enqueue(null, op)] registers and starts [op], and the promise it
    returned is settled with the value of [op]. *)
Lemma null_key_is_accepted :
  ¬ submission_fails KNull (returns VNull) (init ()) ∧
  snd (enqueue KNull (returns VNull) (init ())) = Normal 0 ∧
  trace (fst (enqueue KNull (returns VNull) (init ()))) =
    [Submitted KNull 0; WorkerStart KNull; Started KNull 0] ∧
  ∃ s', run (fst (enqueue KNull (returns VNull) (init ()))) [Wake 0]
          = Some s' ∧
        settlements 0 (trace s') = [Fulfilled VNull].
Proof.
  split_and!; [|by vm_compute..|].
  - intros [e He]. vm_compute in He. discriminate.
  - eexists. split; by vm_compute.
Qed.

Lemma reset_runs_once_witness :
  let s0 := init reset_world in
  let s2 := default s0 (run (resetCounters (Normal reset_tenants) s0)
                            reset_turns) in
  let h0 := next_handle s0 in
  let c0 := resetAllCounters_calls (world s0) in
  run (init reset_world) [] = Some s0 ∧
  (∀ k e, e ∈ backlog k s0 → other_traffic (entry_operation e)) ∧
  (∀ wk, wk ∈ suspended s0 → calm (wk_awaiting wk)) ∧
  Forall other_turn reset_turns ∧
  run (resetCounters (Normal reset_tenants) s0) reset_turns = Some s2 ∧
  (∃ d, trace (resetCounters (Normal reset_tenants) s0) = trace s0 ++ d ∧
        submissions d = zip reset_tenants (seq h0 (length reset_tenants))) ∧
  resetAllCounters_calls (world s2) ≤ c0 + 1 ∧
  (resetAllCounters_calls (world s2) = c0 + 1 ↔
     resetExecuted (world s2) = true) ∧
  ((∃ k h, h0 ≤ h < h0 + length reset_tenants ∧ h ∈ started k (trace s2)) →
     resetAllCounters_calls (world s2) = c0 + 1) ∧
  (reset_tenants ≠ [] → quiescent s2 →
     resetAllCounters_calls (world s2) = c0 + 1) ∧
  (reset_tenants ≠ [] → ∀ evs' s3,
     Forall other_turn evs' → run s2 evs' = Some s3 →
     (∀ s4, ¬ worker_step s4 s3) →
     resetAllCounters_calls (world s3) = c0 + 1) ∧
  (reset_tenants ≠ [] → ∃ evs' s3,
     run s2 evs' = Some s3 ∧ Forall worker_turn evs' ∧ quiescent s3 ∧
     resetAllCounters_calls (world s3) = c0 + 1) ∧
  (reset_tenants = [] → resetAllCounters_calls (world s2) = c0) ∧
  (∀ w : jworld unit, resetExecuted w = true →
        reset_operation w = (w, Returned (Resolved (resetCount w)))) ∧
  (∀ e, resetCounters (Abrupt e) s0 = s0).
Proof.
  intros s0 s2 h0 c0.
  assert (H1 : ∀ k (e : entry (jworld unit)),
            e ∈ backlog k s0 → other_traffic (entry_operation e)).
  { intros k e Hin. unfold backlog in Hin. simpl in Hin.
    rewrite lookup_empty in Hin. by apply elem_of_nil in Hin. }
  assert (H2 : ∀ wk : worker (jworld unit),
            wk ∈ suspended s0 → calm (wk_awaiting wk)).
  { intros wk Hin. by apply elem_of_nil in Hin. }
  assert (H3 : Forall (@other_turn unit) reset_turns) by (repeat constructor).
  assert (H4 : run (resetCounters (Normal reset_tenants) s0) reset_turns
               = Some s2) by (by vm_compute).
  do 5 (split; [done|]).
  by apply (reset_runs_once reset_world [] s0 reset_tenants reset_turns s2).
Defined.

Lemma distinct_keys_do_not_block_witness :
  let s := init () in
  run (init ()) [] = Some s ∧
  (∀ ev s' kA kB,
     step s ev = Some s' → turn_key s ev = Some kA → kA ≠ kB →
     key_view kB s' = key_view kB s ∧
     ∃ d, trace s' = trace s ++ d ∧ Forall (λ o, obs_key o = kA) d) ∧
  (∀ kB evsB sB,
     Forall (on_key kB) evsB → run (alone kB s) evsB = Some sB →
     ∃ s1, run s evsB = Some s1 ∧ same_key_view kB (trace s) s1 sB) ∧
  (∀ kB op,
     queues s !! kB = None →
     ∃ d, trace (fst (enqueue kB op s)) =
          trace s ++ Submitted kB (next_handle s) :: WorkerStart kB ::
                     Started kB (next_handle s) :: d) ∧
  (∀ k1 k2 k3 v1 v2 v3 t d,
     k1 ≠ k2 → k1 ≠ k3 → k2 ≠ k3 →
     queues s !! k1 = None → queues s !! k2 = None → queues s !! k3 = None →
     let h := next_handle s in
     ∃ s' stamped,
       run_clocked s (three_keys k1 k2 k3 v1 v2 v3 h t d) = Some (s', stamped) ∧
       start_time h stamped = Some t ∧
       start_time (S h) stamped = Some t ∧
       start_time (S (S h)) stamped = Some t ∧
       settle_time h stamped = Some (t + d, Fulfilled v1) ∧
       settle_time (S h) stamped = Some (t + d, Fulfilled v2) ∧
       settle_time (S (S h)) stamped = Some (t + d, Fulfilled v3)).
Proof.
  intros s. split; [done|].
  apply (distinct_keys_do_not_block () [] s). done.
Defined.

End Witnesses.

(** * The edges, the service, the routes and the increment at scenarios *)

Section Scenarios.
Import Demo.
Import Job.
Import Cases.


Lemma throw_settles_within_enqueue_witness :
  let s := outcome_of batch1 in
  let op := throws (VError "boom") in
  let e := VError "boom" in
  run (init ()) batch1 = Some s ∧ queues s !! tenant1 = None ∧
  snd (op (world s)) = Threw e ∧
  snd (enqueue tenant1 op s) = Normal (next_handle s) ∧
  trace (fst (enqueue tenant1 op s)) =
    trace s ++ [Submitted tenant1 (next_handle s); WorkerStart tenant1;
                Started tenant1 (next_handle s);
                Settled tenant1 (next_handle s) (Rejected e);
                WorkerExit tenant1] ∧
  world (fst (enqueue tenant1 op s)) = fst (op (world s)) ∧
  queues (fst (enqueue tenant1 op s)) = queues s ∧
  processing (fst (enqueue tenant1 op s)) = processing s ∧
  suspended (fst (enqueue tenant1 op s)) = suspended s ∧
  next_handle (fst (enqueue tenant1 op s)) = S (next_handle s).
Proof.
  intros s op e.
  assert (H1 : run (init ()) batch1 = Some s) by (by vm_compute).
  assert (H2 : queues s !! tenant1 = None) by (by vm_compute).
  assert (H3 : snd (op (world s)) = Threw e) by done.
  do 3 (split; [done|]).
  by apply (throw_settles_within_enqueue () batch1 s tenant1 op e).
Defined.

Lemma registry_size_in_flight_witness :
  let s := outcome_of error_isolation in
  run (init ()) error_isolation = Some s ∧
  size (queues s) = length (suspended s) ∧
  NoDup (wk_tenantId <$> suspended s) ∧
  NoDup (wk_queue <$> suspended s) ∧
  (∀ k, is_Some (queues s !! k) ↔ k ∈ wk_tenantId <$> suspended s).
Proof.
  intros s. split; [by vm_compute|].
  apply (registry_size_in_flight () error_isolation s). by vm_compute.
Defined.

Lemma reset_one_entry_per_tenant_witness :
  let s0 := init reset_world in
  run (init reset_world) [] = Some s0 ∧
  (∀ rows, rows_reply = Reply (Some rows) None →
     ∃ d, trace (resetCounters (getAllTenantIds rows_reply) s0)
            = trace s0 ++ d ∧
          NoDup (submissions d).*1 ∧
          (∀ k, k ∈ (submissions d).*1 ↔ ∃ r, r ∈ rows ∧ tenant_id r = k) ∧
          length (submissions d) ≤ length rows) ∧
  ((∀ rows, rows_reply ≠ Reply (Some rows) None) →
     resetCounters (getAllTenantIds rows_reply) s0 = s0).
Proof.
  intros s0. split; [done|].
  by apply (reset_one_entry_per_tenant reset_world [] s0 rows_reply).
Defined.

Lemma reset_does_not_block_other_tenants_witness :
  let s0 := init reset_world in
  let ids := [tenant2; tenant3] in
  let s1 := resetCounters (Normal (tenant1 :: ids)) s0 in
  let h1 := next_handle s0 in
  let h2 := S (next_handle s0) + 0 in
  run (init reset_world) [] = Some s0 ∧
  NoDup (tenant1 :: ids) ∧
  (∀ k, k ∈ tenant1 :: ids → queues s0 !! k = None) ∧
  ids !! 0 = Some tenant2 ∧
  resetExecuted (world s1) = true ∧
  resetAllCounters_calls (world s1) = S (resetAllCounters_calls (world s0)) ∧
  (∃ l, workers_of tenant1 s1 = [Worker tenant1 l h1 (Pending after_reset)]) ∧
  (∃ l, workers_of tenant2 s1 = [Worker tenant2 l h2 (Resolved (VNum 0))]) ∧
  ∃ s2, wake h2 s1 = Some s2 ∧
    settlements h2 (trace s2) = [Fulfilled (VNum 0)] ∧
    queues s2 !! tenant2 = None ∧
    (∃ l, workers_of tenant1 s2 = [Worker tenant1 l h1 (Pending after_reset)]) ∧
    settlements h1 (trace s2) = [] ∧
    ∀ op, ∃ d, trace (fst (enqueue tenant2 op s2)) =
                 trace s2 ++ Submitted tenant2 (next_handle s2) ::
                             WorkerStart tenant2 ::
                             Started tenant2 (next_handle s2) :: d.
Proof.
  intros s0 ids s1 h1 h2.
  assert (H1 : run (init reset_world) [] = Some s0) by done.
  assert (H2 : NoDup (tenant1 :: ids)).
  { apply (bool_decide_unpack (NoDup (tenant1 :: ids))). by vm_compute. }
  assert (H3 : ∀ k, k ∈ tenant1 :: ids → queues s0 !! k = None).
  { intros k _. apply lookup_empty. }
  assert (H4 : ids !! 0 = Some tenant2) by done.
  do 4 (split; [done|]).
  by apply (reset_does_not_block_other_tenants reset_world [] s0 tenant1 ids
              0 tenant2).
Defined.

Lemma formatOrderNumber_injective_witness :
  let now := {| getFullYear := 2024; getMonth := 11 |} in
  let v1 := JNumber (Finite (QArith_base.Qmake 123 1)) in
  let v2 := JNumber (Finite (QArith_base.Qmake 246 2)) in
  let s := "ORD-2412-000123"%string in
  denotes v1 123 ∧ (123 ≤ MAX_SAFE_INTEGER)%Z ∧
  denotes v2 123 ∧ (123 ≤ MAX_SAFE_INTEGER)%Z ∧
  formatOrderNumber now v1 = Normal s ∧
  formatOrderNumber now v2 = Normal s ∧
  123%Z = 123%Z ∧ (0 < 123)%Z ∧
  digits_only (after_last_hyphen s) ∧
  decimal_value (after_last_hyphen s) = 123%Z.
Proof.
  intros now v1 v2 s.
  assert (H1 : denotes v1 123) by done.
  assert (H2 : (123 ≤ MAX_SAFE_INTEGER)%Z) by done.
  assert (H3 : denotes v2 123) by done.
  assert (H4 : formatOrderNumber now v1 = Normal s) by (by vm_compute).
  assert (H5 : formatOrderNumber now v2 = Normal s) by (by vm_compute).
  do 6 (split; [done|]).
  by apply (formatOrderNumber_injective now v1 v2 123 123 s).
Defined.

Lemma patch_protects_fields_witness :
  let now := "2024-12-01"%string in
  let allowed := [("name", "orders"); ("updated_at", "1999-01-01")]%string in
  let data := [("name", "orders"); ("updated_at", "2024-12-01")]%string in
  patch_call "8" (Some patch_body) = inr ("8"%string, allowed) ∧
  fst (updateById now found found "8" allowed) = Some ("8"%string, data) ∧
  "8"%string = "8"%string ∧ "8"%string ≠ ""%string ∧
  (∀ f, f ∈ protected_fields → prop f data = None) ∧
  prop "updated_at" data = Some now ∧
  ∃ updates, Some patch_body = Some updates ∧
    (∀ f, f ∉ protected_fields → f ≠ "updated_at"%string →
          prop f data = prop f updates) ∧
    (∃ f, f ∈ Object_keys updates ∧ f ∉ protected_fields).
Proof.
  intros now allowed data.
  assert (H1 : patch_call "8" (Some patch_body) = inr ("8"%string, allowed))
    by (by vm_compute).
  assert (H2 : fst (updateById now found found "8" allowed)
               = Some ("8"%string, data)) by (by vm_compute).
  do 2 (split; [done|]).
  by apply (patch_protects_fields now found found "8" (Some patch_body)
              "8" allowed "8" data).
Defined.

Lemma patch_refuses_protected_only_witness :
  let svc := λ (_ : string) (_ : object string), Ok () in
  let svc' := λ (_ : string) (_ : object string), @Err unit "down" in
  (∀ f, f ∈ Object_keys protected_body → f ∈ protected_fields) ∧
  patch_route svc "8" (Some protected_body)
    = patch_route svc' "8" (Some protected_body) ∧
  ∃ m, patch_route svc "8" (Some protected_body) = Next (badRequest m) ∧
       ("8"%string ≠ ""%string → protected_body ≠ [] →
        m = "No valid fields to update"%string).
Proof.
  intros svc svc'.
  assert (H1 : ∀ f, f ∈ Object_keys protected_body → f ∈ protected_fields).
  { intros f Hf. unfold protected_body, protected_fields in *. simpl in Hf.
    set_solver. }
  split; [done|].
  by apply (patch_refuses_protected_only svc svc' "8" protected_body).
Defined.

Lemma patch_of_missing_counter_witness :
  let now := "2024-12-01"%string in
  let allowed := [("name", "orders"); ("updated_at", "1999-01-01")]%string in
  let m := ("Failed to update counter by id: Counter with id " +:+ "8" +:+
            " not found")%string in
  patch_call "8" (Some patch_body) = inr ("8"%string, allowed) ∧
  ((∃ data e, no_rows = Reply data (Some e) ∧
              error_code e = "PGRST116"%string) ∨
   no_rows = Reply None None) ∧
  updateById now no_rows found "8" allowed = (None, Err m) ∧
  patch_route (λ i u, snd (updateById now no_rows found i u)) "8"
              (Some patch_body)
    = Next (notFound m).
Proof.
  intros now allowed m.
  assert (H1 : patch_call "8" (Some patch_body) = inr ("8"%string, allowed))
    by (by vm_compute).
  assert (H2 : (∃ data e, no_rows = Reply data (Some e) ∧
                          error_code e = "PGRST116"%string) ∨
               no_rows = Reply None None).
  { left. by eexists _, _. }
  do 2 (split; [done|]).
  by apply (patch_of_missing_counter now no_rows found "8" (Some patch_body)
              "8" allowed).
Defined.

Lemma post_inserts_server_timestamps_witness :
  let now := BStr "2024-12-01" in
  post_call (Some post_body) = inr post_body ∧
  Some post_body = Some post_body ∧
  Routes.truthy (prop "name" post_body) = true ∧
  Routes.truthy (prop "tenant_id" post_body) = true ∧
  (∃ v, prop "value" post_body = Some v ∧ v ≠ BNull) ∧
  prop "created_at" (fst (create now found post_body)) = Some now ∧
  prop "updated_at" (fst (create now found post_body)) = Some now ∧
  (∀ f, f ≠ "created_at"%string → f ≠ "updated_at"%string →
        prop f (fst (create now found post_body)) = prop f post_body).
Proof.
  intros now.
  assert (H1 : post_call (Some post_body) = inr post_body) by (by vm_compute).
  split; [done|].
  by apply (post_inserts_server_timestamps now found (Some post_body)
              post_body).
Defined.

Lemma restore_route_answers_witness :
  let now := BStr "2024-12-01" in
  let id := "8"%string in
  let svc := restore deleted_at now live_counter live_counter in
  let route := restore_route (λ i, snd (svc i)) id in
  let missing := ("Failed to restore counter: Counter with id " +:+ id +:+
                  " not found")%string in
  let live := ("Failed to restore counter: Counter with id " +:+ id +:+
               " is not deleted")%string in
  id ≠ ""%string ∧
  ((∀ existing, live_counter ≠ Reply (Some existing) None) →
   (∀ m, live_counter ≠ Thrown m) →
     svc id = (None, Err missing) ∧ route = Next (notFound missing)) ∧
  (∀ existing, live_counter = Reply (Some existing) None →
     deleted_at existing = false →
     svc id = (None, Err live) ∧
     route = Next (if includes "not found" id then notFound live
                   else badRequest live)) ∧
  (∀ existing, live_counter = Reply (Some existing) None →
     deleted_at existing = true →
     fst (svc id) = Some (id, [("deleted_at", None); ("updated_at", Some now)]) ∧
     ∀ row, live_counter = Reply (Some row) None →
            route = Json 200 (Some row)).
Proof.
  intros now id svc route missing live.
  assert (H1 : id ≠ ""%string) by done.
  split; [done|].
  by apply (restore_route_answers deleted_at now live_counter live_counter
              id).
Defined.

Lemma increment_issues_next_number_witness :
  let w := idle_world in
  let w1 := called (UpdateByTenantId tenant1 42) w in
  let resume := after_update december tenant1 42 in
  after_get december no_numeral api_404 api_500 tenant1
            (Fulfilled (counter_at 41)) w = (w1, Pending resume) ∧
  ∃ n, checked_value no_numeral (get_value (counter_at 41)) = inr n ∧
    (0 ≤ n < 2147483647)%Z ∧
    (∃ q, Number no_numeral (get_value (counter_at 41)) = Finite q ∧
          denotes (JNumber (Finite q)) n) ∧
    w1 = called (UpdateByTenantId tenant1 (n + 1)) w ∧
    (∀ e w2, resume (Rejected e) w2 =
               (called (Settles tenant1) w2, Failed e)) ∧
    ∀ x w2, ∃ N,
      resume (Fulfilled x) w2 =
        (called (Settles tenant1) w2,
         Resolved (VObj [("order_number",
           VStr ("ORD-" +:+
                 slice_last2 (Number_toString
                                (getFullYear (december (outside w2)))) +:+
                 padStart0 2 (Number_toString
                                (getMonth (december (outside w2)) + 1)) +:+
                 "-" +:+ N)%string)])) ∧
      digits_only N ∧ decimal_value N = (n + 1)%Z ∧
      (6 ≤ String.length N)%nat.
Proof.
  intros w w1 resume.
  assert (H1 : after_get december no_numeral api_404 api_500 tenant1
                 (Fulfilled (counter_at 41)) w = (w1, Pending resume))
    by reflexivity.
  split; [done|].
  by apply (increment_issues_next_number december no_numeral api_404 api_500
              tenant1 (counter_at 41) w w1 resume).
Defined.

Lemma increment_fails_without_update_witness :
  let w := idle_world in
  let e := api_404 "Counter not found for this tenant" in
  let o := Fulfilled VNull in
  after_get december no_numeral api_404 api_500 tenant1 o w
    = (called (Settles tenant1) w, Failed e) ∧
  called (Settles tenant1) w = called (Settles tenant1) w ∧
  (o = Rejected e ∨
   ∃ counter, o = Fulfilled counter ∧
     ((Increment.truthy counter = false ∧
       e = api_404 "Counter not found for this tenant") ∨
      (Increment.truthy counter = true ∧
       ∃ m, checked_value no_numeral (get_value counter) = inl m ∧
            e = api_500 m))) ∧
  (∀ n, (2147483647 ≤ n)%Z →
        checked_value no_numeral (VNum n)
          = inl "Counter has reached maximum value"%string) ∧
  (∀ n, (n < 0)%Z →
        checked_value no_numeral (VNum n)
          = inl "Counter value cannot be negative"%string).
Proof.
  intros w e o.
  assert (H1 : after_get december no_numeral api_404 api_500 tenant1 o w
               = (called (Settles tenant1) w, Failed e)) by reflexivity.
  split; [done|].
  by apply (increment_fails_without_update december no_numeral api_404
              api_500 tenant1 o w (called (Settles tenant1) w) e).
Defined.

Lemma increments_do_not_interleave_witness :
  let s := default (init idle_world) (run (init idle_world) three_requests) in
  run (init (IWorld () [])) three_requests = Some s ∧
  Forall (increment_turn december no_numeral api_404 api_500)
         three_requests ∧
  (∃ st, stages (calls_of tenant1 (calls (world s))) = Some st ∧
         (workers_of tenant1 s = [] → st = Idle)) ∧
  (∀ cs1 n cs2,
     calls_of tenant1 (calls (world s))
       = cs1 ++ UpdateByTenantId tenant1 n :: cs2 →
     ∃ cs0, cs1 = cs0 ++ [GetByTenantId tenant1]) ∧
  (∀ cs1 cs2,
     calls_of tenant1 (calls (world s))
       = cs1 ++ GetByTenantId tenant1 :: cs2 →
     cs1 = [] ∨ ∃ cs0, cs1 = cs0 ++ [Settles tenant1]) ∧
  Forall (λ c, call_tenant c = tenant1)
         (calls_of tenant1 (calls (world s))).
Proof.
  intros s.
  assert (H1 : run (init (IWorld () [])) three_requests = Some s)
    by (by vm_compute).
  assert (H2 : Forall (increment_turn december no_numeral api_404 api_500)
                      three_requests).
  { unfold three_requests. by repeat constructor. }
  do 2 (split; [done|]).
  by apply (increments_do_not_interleave december no_numeral api_404 api_500
              () three_requests s tenant1).
Defined.

End Scenarios.
